(** * GraphZeppelin streaming front end: binary graph streams and Graph::update

    A shallow embedding of
      - include/binary_graph_stream.h  (BinaryGraphStream, BinaryGraphStream_MT,
        MT_StreamReader),
      - include/graph.h                (Graph::update and the state it touches),
      - src/graph_configuration.cpp    (the setters of GraphConfiguration),
    together with the properties of the update/query protocol.

    Conventions.  Unsigned machine integers are values of [N] with the
    wrap-around written out ([wrap64], [wrap32]).  Files and buffers are lists
    of bytes.  A call that may throw, spin forever or run into undefined
    behaviour returns an [outcome]. *)

From Stdlib Require Import Strings.Byte.
From stdpp Require Import base numbers list gmap sorting strings pretty.

Local Open Scope N_scope.

(** ** Outcomes of a call *)

Inductive exn : Type :=
| BadStreamException
| StreamFailedException
| UpdateLockedException.

Inductive outcome (A : Type) : Type :=
| Returned (a : A)      (* the call returned [a] *)
| Raised (e : exn)      (* the call threw [e] *)
| NoReturn              (* the call was still looping when the model ran out of steps *)
| Undefined.            (* the call read outside an array *)
Arguments Returned {A} a.
Arguments Raised {A} e.
Arguments NoReturn {A}.
Arguments Undefined {A}.

(** ** Machine arithmetic *)

Definition wrap64 (x : N) : N := x mod 2 ^ 64.
Definition wrap32 (x : N) : N := x mod 2 ^ 32.
Definition add64 (a b : N) : N := wrap64 (a + b).
(* a - b on uint64_t operands *)
Definition sub64 (a b : N) : N := wrap64 (a + 2 ^ 64 - b).
Definition UINT64_MAX : N := 2 ^ 64 - 1.

(** ** Wire format (types.h is not among the sources) *)

(** Modelled from the spec: the declarations of types.h.  An update kind is one
    byte, 0 = Insert, 1 = Delete, and Breakpoint is a further enumerator
    distinct from both; node ids are unsigned 32-bit, edge ids unsigned 64-bit.
    [UpdateType] is kept as the integer value of the enumeration, which is what
    the cast [(UpdateType) *buf] preserves. *)
Definition UpdateType : Type := N.
Definition INSERT : UpdateType := 0.
Definition DELETE : UpdateType := 1.
Definition BREAKPOINT : UpdateType := 2.

(* typedef uint32_t node_id_t *)
Abbreviation node_id_t := N (only parsing).

Record Edge : Type := mkEdge { src : node_id_t; dst : node_id_t }.
Record GraphUpdate : Type := mkUpd { edge : Edge; type : UpdateType }.

Global Instance Edge_eq_dec : EqDecision Edge.
Proof. solve_decision. Defined.
Global Instance GraphUpdate_eq_dec : EqDecision GraphUpdate.
Proof. solve_decision. Defined.

(* sizeof(uint8_t) + 2 * sizeof(uint32_t) *)
Definition edge_size : N := 1 + 2 * 4.
(* sizeof(node_id_t) + sizeof(edge_id_t) *)
Definition header_size : N := 4 + 8.

(* memcpy of little-endian bytes into an unsigned integer *)
Definition le_decode (bs : list byte) : N :=
  foldr (fun b acc => Byte.to_N b + 256 * acc) 0 bs.

(* The three reads of get_edge at [p]: *p, memcpy(&a, p + 1, 4), memcpy(&b, p + 5, 4).
   [None] when fewer than edge_size bytes are addressable at [p]. *)
Definition parse_record (rec : list byte) : option GraphUpdate :=
  match rec with
  | u :: rest =>
      if (8 <=? length rest)%nat
      then Some {| edge := {| src := le_decode (take 4 rest);
                              dst := le_decode (take 4 (drop 4 rest)) |};
                   type := Byte.to_N u |}
      else None
  | [] => None
  end.

(* bytes [off, off + len) of a byte array *)
Definition slice (off len : N) (l : list byte) : list byte :=
  take (N.to_nat len) (drop (N.to_nat off) l).

(* the update stored at byte offset [off] of a file or buffer *)
Definition record_at (l : list byte) (off : N) : option GraphUpdate :=
  parse_record (slice off edge_size l).

(** ** The operating system: positioned reads

    [pread(fd, buf, count, offset)] may fail (-1), may deliver fewer bytes than
    asked for (a short read, at least one byte when any is left), or deliver
    all that the file has in [offset, offset + count).  Which of these happens
    is the kernel's choice; it is an input of the model. *)

Inductive pread_outcome : Type :=
| PreadError
| PreadShort (n : positive)   (* at most [n] bytes this time *)
| PreadFull.

(* the bytes transferred; [None] stands for the return value -1 *)
Definition pread (file : list byte) (o : pread_outcome) (count offset : N)
  : option (list byte) :=
  match o with
  | PreadError => None
  | PreadShort n => Some (slice offset (N.min count (Npos n)) file)
  | PreadFull => Some (slice offset count file)
  end.

(* the kernel stores the transferred bytes at the start of the user buffer *)
Definition buf_store (bytes buf : list byte) : list byte :=
  bytes ++ drop (length bytes) buf.

(* [int ret = pread(...)] followed by [data_read += ret] with data_read a size_t:
   the value added, for a byte count n < 2^32. *)
Definition int_as_size_t (n : N) : N :=
  if n <? 2 ^ 31 then n else wrap64 (2 ^ 64 - 2 ^ 32 + n).

(** ** BinaryGraphStream_MT *)

Module BinaryGraphStream_MT.

Record t : Type := mk {
  stream_fd : Z;
  stream_file : list byte;   (* what the kernel holds behind stream_fd *)
  num_nodes : N;
  num_edges : N;
  buf_size : N;
  end_of_file : N;
  stream_off : N;            (* std::atomic<uint64_t> *)
  query_index : N;           (* std::atomic<uint64_t> *)
  query_block : bool         (* std::atomic<bool> *)
}.

Definition set_stream_off (v : N) (s : t) : t :=
  mk (stream_fd s) (stream_file s) (num_nodes s) (num_edges s) (buf_size s)
     (end_of_file s) v (query_index s) (query_block s).
Definition set_query_index (v : N) (s : t) : t :=
  mk (stream_fd s) (stream_file s) (num_nodes s) (num_edges s) (buf_size s)
     (end_of_file s) (stream_off s) v (query_block s).
Definition set_query_block (v : bool) (s : t) : t :=
  mk (stream_fd s) (stream_file s) (num_nodes s) (num_edges s) (buf_size s)
     (end_of_file s) (stream_off s) (query_index s) v.

(** *** Constructor (lines 83-101) *)

(* what open(file_name, O_RDONLY) gave: -1, or a descriptor and the file *)
Inductive open_result : Type :=
| OpenFailed
| Opened (fd : Z) (content : list byte).

Definition fd_of (o : open_result) : Z :=
  match o with OpenFailed => (-1)%Z | Opened fd _ => fd end.

(* read(fd, dst, n) at file position [pos]: the bytes delivered, [None] for -1
   (in particular for the descriptor -1) *)
Definition sys_read (o : open_result) (k : pread_outcome) (pos n : N)
  : option (list byte) :=
  match o with
  | OpenFailed => None
  | Opened _ content => pread content k n pos
  end.

Definition new (o : open_result) (k1 k2 : pread_outcome) (_b : N) : outcome t :=
  let fd := fd_of o in
  if (fd =? 0)%Z then Raised BadStreamException          (* if (!stream_fd) *)
  else
    let buf_size := _b - (_b mod edge_size) in
    match sys_read o k1 0 4 with
    | None => Raised BadStreamException
    | Some nb =>
        if negb (length nb =? 4)%nat then Raised BadStreamException
        else
          match sys_read o k2 4 8 with
          | None => Raised BadStreamException
          | Some eb =>
              if negb (length eb =? 8)%nat then Raised BadStreamException
              else
                let num_edges := le_decode eb in
                Returned
                  {| stream_fd := fd;
                     stream_file := match o with
                                    | OpenFailed => []
                                    | Opened _ c => c
                                    end;
                     num_nodes := le_decode nb;
                     num_edges := num_edges;
                     buf_size := buf_size;
                     end_of_file := add64 (wrap64 (num_edges * edge_size)) header_size;
                     stream_off := header_size;
                     query_index := UINT64_MAX;          (* query_index = -1 *)
                     query_block := false |}
          end
    end.

(** *** Query control (lines 114-137) *)

Definition on_demand_query (s : t) : t := set_query_block true s.

Definition post_query_resume (s : t) : t :=
  set_query_index UINT64_MAX (set_query_block false s).

Definition register_query (query_idx : N) (s : t) : t * bool :=
  let byte_index := add64 header_size (wrap64 (query_idx * edge_size)) in
  if byte_index <=? stream_off s then (s, false)
  else (set_query_index byte_index s, true).

Definition stream_reset (s : t) : t := set_stream_off header_size s.

(** *** read_data (lines 155-185)

    The function touches the shared counter [stream_off] at three places:
    the loads of line 157, the fetch_add of line 160, and the store of line
    164 or 174.  It is written here as these pieces, so that the same text
    serves the sequential reading ([read_data]) and the interleaved one
    (section Readers below).  [query_index] and [query_block] are written by
    the controlling thread only. *)

(* line 157, first two disjuncts *)
Definition check_block_eof (s : t) : bool :=
  query_block s || (end_of_file s <=? stream_off s).
(* line 157, third disjunct (a second load of stream_off) *)
Definition check_query (s : t) : bool :=
  query_index s <=? stream_off s.

(* line 160 *)
Definition fetch_add (s : t) : t * N :=
  (set_stream_off (add64 (stream_off s) (buf_size s)) s, stream_off s).

(* lines 179-184: the retry loop.  [os] lists the kernel's answers to the
   successive pread calls; the loop is unrolled along it. *)
Fixpoint pread_loop (os : list pread_outcome) (file buf : list byte)
         (data_to_read read_off data_read : N) : list byte * outcome N :=
  if data_read <? data_to_read then
    match os with
    | [] => (buf, NoReturn)
    | o :: os' =>
        match pread file o data_to_read (add64 read_off data_read) with
        | None => (buf, Raised StreamFailedException)
        | Some bytes =>
            pread_loop os' file (buf_store bytes buf) data_to_read read_off
                       (add64 data_read (int_as_size_t (N.of_nat (length bytes))))
        end
    end
  else (buf, Returned (wrap32 data_read)).

(* lines 172-175 *)
Definition in_query_window (s : t) (read_off : N) : bool :=
  (read_off <=? query_index s) && (query_index s <? add64 read_off (buf_size s)).

(* lines 171-177 *)
Definition data_to_read (s : t) (read_off : N) : N :=
  let d := if in_query_window s read_off
           then sub64 (query_index s) read_off
           else buf_size s in
  if end_of_file s <? add64 read_off d
  then sub64 (end_of_file s) read_off
  else d.

(* lines 163-184, for the value [read_off] that fetch_add returned *)
Definition read_data_at (os : list pread_outcome) (s : t) (read_off : N)
           (buf : list byte) : t * list byte * outcome N :=
  if query_index s <=? read_off then
    (set_stream_off (query_index s) s, buf, Returned 0)
  else if end_of_file s <=? read_off then (s, buf, Returned 0)
  else
    let s' := if in_query_window s read_off
              then set_stream_off (query_index s) s else s in
    let '(buf', r) :=
      pread_loop os (stream_file s) buf (data_to_read s read_off) read_off 0 in
    (s', buf', r).

(* One thread's call when [stream_off] holds [cur] at the moment of this
   thread's fetch_add: the other threads may have moved it since the check of
   line 157 ("multiple threads may execute this line of code at once"). *)
Definition read_data_racing (cur : N) (os : list pread_outcome) (s : t)
           (buf : list byte) : t * list byte * outcome N :=
  if check_block_eof s || check_query s then (s, buf, Returned 0)
  else
    let '(s1, read_off) := fetch_add (set_stream_off cur s) in
    read_data_at os s1 read_off buf.

(* the call with no other thread in between *)
Definition read_data (os : list pread_outcome) (s : t) (buf : list byte)
  : t * list byte * outcome N :=
  read_data_racing (stream_off s) os s buf.

End BinaryGraphStream_MT.

(** ** MT_StreamReader *)

Module MT_StreamReader.
Import BinaryGraphStream_MT.

Record t : Type := mk {
  buf_mem : list byte;   (* the malloc'ed block at start_buf *)
  buf_pos : N;           (* buf - start_buf *)
  data_in_buf : N
}.

(* the constructor: malloc(stream.buf_size) gives a block of unspecified
   contents [mem]; buf = start_buf; data_in_buf = 0 *)
Definition new (mem : list byte) : t :=
  {| buf_mem := mem; buf_pos := 0; data_in_buf := 0 |}.

Definition breakpoint : GraphUpdate :=
  {| edge := {| src := 0; dst := 0 |}; type := BREAKPOINT |}.

(* lines 206-215 *)
Definition take_record (r : t) : t * outcome GraphUpdate :=
  match record_at (buf_mem r) (buf_pos r) with
  | Some u =>
      ({| buf_mem := buf_mem r; buf_pos := buf_pos r + edge_size;
          data_in_buf := data_in_buf r |}, Returned u)
  | None => (r, Undefined)
  end.

(* lines 200-204, given what read_data did *)
Definition after_read_data (r : t) (res : list byte * outcome N)
  : t * outcome GraphUpdate :=
  match res with
  | (mem, Returned n) =>
      if n =? 0
      then ({| buf_mem := mem; buf_pos := buf_pos r; data_in_buf := n |},
            Returned breakpoint)
      else take_record {| buf_mem := mem; buf_pos := 0; data_in_buf := n |}
  | (mem, Raised e) =>
      ({| buf_mem := mem; buf_pos := buf_pos r; data_in_buf := data_in_buf r |}, Raised e)
  | (mem, NoReturn) =>
      ({| buf_mem := mem; buf_pos := buf_pos r; data_in_buf := data_in_buf r |}, NoReturn)
  | (mem, Undefined) =>
      ({| buf_mem := mem; buf_pos := buf_pos r; data_in_buf := data_in_buf r |}, Undefined)
  end.

(* buf - start_buf >= data_in_buf *)
Definition exhausted (r : t) : bool := data_in_buf r <=? buf_pos r.

Definition get_edge (os : list pread_outcome) (s : BinaryGraphStream_MT.t) (r : t)
  : BinaryGraphStream_MT.t * t * outcome GraphUpdate :=
  if exhausted r then
    let '(s', mem, res) := read_data os s (buf_mem r) in
    let '(r', u) := after_read_data r (mem, res) in
    (s', r', u)
  else
    let '(r', u) := take_record r in (s, r', u).

End MT_StreamReader.

(** ** BinaryGraphStream (single reader) *)

Module BinaryGraphStream.

(* std::ifstream: the file, the get position and the state bits *)
Record ifstream : Type := mk_ifstream {
  is_open : bool;
  content : list byte;
  gpos : N;
  eofbit : bool;
  failbit : bool;
  badbit : bool
}.

(* bin_file.open(name, in | binary): [None] when the file cannot be opened *)
Definition ifstream_open (file : option (list byte)) : ifstream :=
  match file with
  | Some c => mk_ifstream true c 0 false false false
  | None => mk_ifstream false [] 0 false true false
  end.

Definition good (f : ifstream) : bool :=
  negb (eofbit f || failbit f || badbit f).
Definition fail (f : ifstream) : bool := failbit f || badbit f.
Definition eof (f : ifstream) : bool := eofbit f.

(* bin_file.read(dst, n).  A stream that is not good only gets failbit set.
   [io_error] is a device error during this read (badbit).  Reaching the end
   of the file before [n] characters sets eofbit and failbit. *)
Definition ifstream_read (io_error : bool) (f : ifstream) (n : N)
  : ifstream * list byte :=
  if negb (good f) then
    (mk_ifstream (is_open f) (content f) (gpos f) (eofbit f) true (badbit f), [])
  else if io_error then
    (mk_ifstream (is_open f) (content f) (gpos f) (eofbit f) (failbit f) true, [])
  else
    let got := slice (gpos f) n (content f) in
    if N.of_nat (length got) <? n then
      (mk_ifstream (is_open f) (content f) (gpos f + N.of_nat (length got))
                   true true (badbit f), got)
    else
      (mk_ifstream (is_open f) (content f) (gpos f + n)
                   (eofbit f) (failbit f) (badbit f), got).

Record t : Type := mk {
  bin_file : ifstream;
  buf_mem : list byte;   (* the malloc'ed block at start_buf *)
  buf_pos : N;           (* buf - start_buf *)
  buf_size : N;
  num_nodes : N;
  num_edges : N
}.

(* lines 61-69 *)
Definition read_data (io_error : bool) (s : t) : t * outcome unit :=
  let '(f, got) := ifstream_read io_error (bin_file s) (buf_size s) in
  let s' := mk f (buf_store got (buf_mem s)) 0 (buf_size s) (num_nodes s) (num_edges s) in
  if fail f && negb (eof f) then (s', Raised StreamFailedException)
  else (s', Returned tt).

(* lines 23-39.  [file] is what open finds; [io1 io2 io3] are the device
   errors of the three reads; [mem] is the malloc'ed block and [raw_nodes],
   [raw_edges] the bytes the two header fields hold before they are read
   into (all three unspecified). *)
Definition new (file : option (list byte)) (io1 io2 io3 : bool) (_b : N)
           (mem raw_nodes raw_edges : list byte) : outcome t :=
  let f := ifstream_open file in
  if negb (is_open f) then Raised BadStreamException
  else
    let buf_size := _b - (_b mod edge_size) in
    let '(f, nb) := ifstream_read io1 f 4 in
    let '(f, eb) := ifstream_read io2 f 8 in
    let s := mk f mem 0 buf_size
                (le_decode (buf_store nb raw_nodes))
                (le_decode (buf_store eb raw_edges)) in
    match read_data io3 s with
    | (s', Returned _) => Returned s'
    | (_, Raised e) => Raised e
    | (_, NoReturn) => NoReturn
    | (_, Undefined) => Undefined
    end.

(* lines 46-58 *)
Definition get_edge (io_error : bool) (s : t) : t * outcome GraphUpdate :=
  match record_at (buf_mem s) (buf_pos s) with
  | None => (s, Undefined)
  | Some u =>
      let s1 := mk (bin_file s) (buf_mem s) (buf_pos s + edge_size) (buf_size s)
                   (num_nodes s) (num_edges s) in
      if buf_pos s1 =? buf_size s1 then
        match read_data io_error s1 with
        | (s2, Returned _) => (s2, Returned u)
        | (s2, Raised e) => (s2, Raised e)
        | (s2, NoReturn) => (s2, NoReturn)
        | (s2, Undefined) => (s2, Undefined)
        end
      else (s1, Returned u)
  end.

End BinaryGraphStream.

(** ** Graph: the state that update touches (graph.h, lines 41-64, 125-156) *)

Module Graph.

Record t : Type := mk {
  num_nodes : node_id_t;
  update_locked : bool;
  parent : list node_id_t;               (* node_id_t* / std::atomic<node_id_t>* *)
  size : list node_id_t;
  dsu_valid : bool;
  spanning_forest : list (gset node_id_t);  (* std::unordered_set<node_id_t>* *)
  (* GutteringSystem *gts is an external collaborator: what is recorded of it
     is the sequence of calls gts->insert(edge, thr_id), oldest first *)
  gts : list (Edge * Z)
}.

Definition gts_insert (e : Edge) (thr_id : Z) (g : t) : t :=
  mk (num_nodes g) (update_locked g) (parent g) (size g) (dsu_valid g)
     (spanning_forest g) (gts g ++ [(e, thr_id)]).
Definition set_dsu_valid (v : bool) (g : t) : t :=
  mk (num_nodes g) (update_locked g) (parent g) (size g) v
     (spanning_forest g) (gts g).
Definition set_parent (p : list node_id_t) (g : t) : t :=
  mk (num_nodes g) (update_locked g) p (size g) (dsu_valid g)
     (spanning_forest g) (gts g).
Definition set_size (sz : list node_id_t) (g : t) : t :=
  mk (num_nodes g) (update_locked g) (parent g) sz (dsu_valid g)
     (spanning_forest g) (gts g).
Definition set_spanning_forest (f : list (gset node_id_t)) (g : t) : t :=
  mk (num_nodes g) (update_locked g) (parent g) (size g) (dsu_valid g)
     f (gts g).

(** Modelled from the spec: Graph::get_parent is declared in graph.h (line 57)
    and defined in graph.cpp, which is not among the sources.  The spec, 4.E
    Find: "Path-halving: while parent[x] <> x, set parent[x] <- parent[parent[x]],
    then x <- parent[x]".  [fuel] bounds the number of iterations; an index
    outside the array is undefined behaviour. *)
Fixpoint get_parent (fuel : nat) (par : list node_id_t) (x : node_id_t)
  : list node_id_t * outcome node_id_t :=
  match fuel with
  | O => (par, NoReturn)
  | S fuel' =>
      match par !! N.to_nat x with
      | None => (par, Undefined)
      | Some p =>
          if p =? x then (par, Returned x)
          else
            match par !! N.to_nat p with
            | None => (par, Undefined)
            | Some gp => get_parent fuel' (<[N.to_nat x := gp]> par) gp
            end
      end
  end.

Section Update.

(* compiled with USE_EAGER_DSU or not *)
Variable eager : bool.
(* which operand of != in line 141 is evaluated first (unspecified in C++) *)
Variable lhs_first : bool.

(* line 141: a = get_parent(a) and b = get_parent(b) *)
Definition find_both (fuel : nat) (par : list node_id_t) (a b : node_id_t)
  : list node_id_t * outcome (node_id_t * node_id_t) :=
  if lhs_first then
    match get_parent fuel par a with
    | (par1, Returned ra) =>
        match get_parent fuel par1 b with
        | (par2, Returned rb) => (par2, Returned (ra, rb))
        | (par2, Raised e) => (par2, Raised e)
        | (par2, NoReturn) => (par2, NoReturn)
        | (par2, Undefined) => (par2, Undefined)
        end
    | (par1, Raised e) => (par1, Raised e)
    | (par1, NoReturn) => (par1, NoReturn)
    | (par1, Undefined) => (par1, Undefined)
    end
  else
    match get_parent fuel par b with
    | (par1, Returned rb) =>
        match get_parent fuel par1 a with
        | (par2, Returned ra) => (par2, Returned (ra, rb))
        | (par2, Raised e) => (par2, Raised e)
        | (par2, NoReturn) => (par2, NoReturn)
        | (par2, Undefined) => (par2, Undefined)
        end
    | (par1, Raised e) => (par1, Raised e)
    | (par1, NoReturn) => (par1, NoReturn)
    | (par1, Undefined) => (par1, Undefined)
    end.

(* std::atomic_compare_exchange_weak(&parent[b], &b, a).  [spurious] says
   whether this attempt fails although parent[b] holds the expected value.
   Result: the array, the value left in the local b, and success. *)
Definition compare_exchange_weak (spurious : bool) (par : list node_id_t)
           (b a : node_id_t) : option (list node_id_t * node_id_t * bool) :=
  match par !! N.to_nat b with
  | None => None
  | Some cur =>
      if (cur =? b) && negb spurious
      then Some (<[N.to_nat b := a]> par, b, true)
      else Some (par, cur, false)
  end.

(* lines 141-150.  [cas] lists, attempt by attempt, whether the weak
   compare-exchange fails spuriously; past its end it does not. *)
Fixpoint union_loop (fuel : nat) (cas : list bool) (g : t)
         (src_ dst_ a b : node_id_t) {struct fuel} : t * outcome unit :=
  match fuel with
  | O => (g, NoReturn)
  | S fuel' =>
      match find_both (S fuel') (parent g) a b with
      | (par, Returned (a, b)) =>
          let g := set_parent par g in
          if a =? b then (g, Returned tt)
          else
            match size g !! N.to_nat a, size g !! N.to_nat b with
            | Some sa, Some sb =>
                let '(a, b) := if sa <? sb then (b, a) else (a, b) in
                match compare_exchange_weak (hd false cas) (parent g) b a with
                | Some (par', _, true) =>
                    let g := set_parent par' g in
                    match size g !! N.to_nat a, size g !! N.to_nat b,
                          spanning_forest g !! N.to_nat src_ with
                    | Some sa', Some sb', Some f =>
                        let g := set_size (<[N.to_nat a := wrap32 (sa' + sb')]> (size g)) g in
                        let g := set_spanning_forest
                                   (<[N.to_nat src_ := {[dst_]} ∪ f]> (spanning_forest g)) g in
                        (g, Returned tt)
                    | _, _, _ => (g, Undefined)
                    end
                | Some (_, b', false) => union_loop fuel' (tl cas) g src_ dst_ a b'
                | None => (g, Undefined)
                end
            | _, _ => (g, Undefined)
            end
      | (par, Raised e) => (set_parent par g, Raised e)
      | (par, NoReturn) => (set_parent par g, NoReturn)
      | (par, Undefined) => (set_parent par g, Undefined)
      end
  end.

(* lines 133-152, the block under USE_EAGER_DSU *)
Definition eager_dsu_step (fuel : nat) (cas : list bool) (g : t) (e : Edge)
  : t * outcome unit :=
  if dsu_valid g then
    let src_ := N.min (src e) (dst e) in
    let dst_ := N.max (src e) (dst e) in
    (* std::lock_guard sflock(spanning_forest_mtx[src]) is held to the end *)
    match spanning_forest g !! N.to_nat src_ with
    | None => (g, Undefined)
    | Some f =>
        if decide (dst_ ∈ f) then (set_dsu_valid false g, Returned tt)
        else union_loop fuel cas g src_ dst_ src_ dst_
    end
  else (g, Returned tt).

(* lines 125-156 *)
Definition update (fuel : nat) (cas : list bool) (g : t) (upd : GraphUpdate)
           (thr_id : Z) : t * outcome unit :=
  if update_locked g then (g, Raised UpdateLockedException)
  else
    let e := edge upd in
    let g := gts_insert {| src := src e; dst := dst e |} thr_id g in
    let e := {| src := dst e; dst := src e |} in          (* std::swap *)
    let g := gts_insert {| src := src e; dst := dst e |} thr_id g in
    if eager then eager_dsu_step fuel cas g e
    else (set_dsu_valid false g, Returned tt).   (* unlikely_if(dsu_valid) dsu_valid = false *)

End Update.

End Graph.

(** ** Several readers on one stream

    Each reader thread calls get_edge again and again.  Between two accesses
    to the shared counter [stream_off] a thread works on its own memory only,
    so a thread is at one of the following places, and one step of the system
    is one thread moving to its next place.  [query_index] and [query_block]
    are not written while the readers run (the protocol in the comments of
    lines 103-129: queries are registered before the readers start or after
    post_query_resume, before get_edge is called again). *)

Module Readers.
Import BinaryGraphStream_MT.

Inductive pc : Type :=
| Idle                        (* between two calls of get_edge *)
| AfterEofCheck               (* line 157: query_block and the end-of-file test were false *)
| BeforeFetchAdd              (* line 157 is passed *)
| AfterFetchAdd (read_off : N) (* line 160 is done *)
| Halted.                     (* get_edge did not return an update *)

(* what a call of get_edge returned: the update parsed from file offset [off],
   or the breakpoint sentinel *)
Inductive event : Type :=
| Got (off : N) (u : GraphUpdate)
| Stop.

Record reader : Type := mk_reader {
  local : MT_StreamReader.t;
  at_pc : pc;
  block_off : N;       (* book-keeping: the file offset of the block in buf_mem *)
  log : list event     (* book-keeping: what get_edge has returned so far *)
}.

Definition returned (r : reader) (l : MT_StreamReader.t) (boff : N)
           (u : outcome GraphUpdate) (ev : GraphUpdate -> event) : reader :=
  match u with
  | Returned x => mk_reader l Idle boff (log r ++ [ev x])
  | _ => mk_reader l Halted boff (log r)
  end.

(* read_data returned 0 before its fetch_add *)
Definition stopped (r : reader) : reader :=
  let '(l, u) := MT_StreamReader.after_read_data
                   (local r) (MT_StreamReader.buf_mem (local r), Returned 0) in
  returned r l (block_off r) u (fun _ => Stop).

Definition reader_step (os : list pread_outcome) (s : BinaryGraphStream_MT.t)
           (r : reader) : BinaryGraphStream_MT.t * reader :=
  match at_pc r with
  | Idle =>
      if MT_StreamReader.exhausted (local r) then
        if check_block_eof s then (s, stopped r)
        else (s, mk_reader (local r) AfterEofCheck (block_off r) (log r))
      else
        let '(l, u) := MT_StreamReader.take_record (local r) in
        (s, returned r l (block_off r) u
              (Got (block_off r + MT_StreamReader.buf_pos (local r))))
  | AfterEofCheck =>
      if check_query s then (s, stopped r)
      else (s, mk_reader (local r) BeforeFetchAdd (block_off r) (log r))
  | BeforeFetchAdd =>
      let '(s1, read_off) := fetch_add s in
      (s1, mk_reader (local r) (AfterFetchAdd read_off) (block_off r) (log r))
  | AfterFetchAdd read_off =>
      let '(s1, mem, res) :=
        read_data_at os s read_off (MT_StreamReader.buf_mem (local r)) in
      let '(l, u) := MT_StreamReader.after_read_data (local r) (mem, res) in
      match res with
      | Returned n =>
          if n =? 0 then (s1, returned r l (block_off r) u (fun _ => Stop))
          else (s1, returned r l read_off u (Got read_off))
      | _ => (s1, mk_reader l Halted (block_off r) (log r))
      end
  | Halted => (s, r)
  end.

Record system : Type := mk_system {
  stream : BinaryGraphStream_MT.t;
  readers : list reader
}.

(* reader [i] takes its next step; the kernel answers its preads with [os] *)
Definition step (sys : system) (c : nat * list pread_outcome) : system :=
  match readers sys !! c.1 with
  | None => sys
  | Some r =>
      let '(s, r') := reader_step c.2 (stream sys) r in
      mk_system s (<[c.1 := r']> (readers sys))
  end.

Definition run (sched : list (nat * list pread_outcome)) (sys : system) : system :=
  foldl step sys sched.

(* [s] shared by one reader per block of memory in [mems] *)
Definition init (s : BinaryGraphStream_MT.t) (mems : list (list byte)) : system :=
  mk_system s (map (fun m => mk_reader (MT_StreamReader.new m) Idle 0 []) mems).

(* the file offsets of the updates a reader was given, in the order it got them *)
Definition offsets (l : list event) : list N :=
  omap (fun e => match e with Got off _ => Some off | Stop => None end) l.

(* the updates a reader was given *)
Definition updates (l : list event) : list GraphUpdate :=
  omap (fun e => match e with Got _ u => Some u | Stop => None end) l.

(* the reader is between two calls and its last call returned the sentinel *)
Definition at_breakpoint (r : reader) : Prop :=
  at_pc r = Idle ∧ last (log r) = Some Stop.

End Readers.

(** ** Stream files, as the writer of such a file lays them out (spec, 6) *)

Definition byte_of (n : N) : byte := default Byte.x00 (Byte.of_N (n mod 256)).

Fixpoint le_encode (width : nat) (n : N) : list byte :=
  match width with
  | O => []
  | S w => byte_of n :: le_encode w (n / 256)
  end.

Definition encode_update (u : GraphUpdate) : list byte :=
  byte_of (type u) :: le_encode 4 (src (edge u)) ++ le_encode 4 (dst (edge u)).

Definition encode_file (nodes : N) (us : list GraphUpdate) : list byte :=
  le_encode 4 nodes ++ le_encode 8 (N.of_nat (length us))
    ++ concat (map encode_update us).

Definition ins (a b : N) : GraphUpdate := mkUpd (mkEdge a b) INSERT.
Definition del (a b : N) : GraphUpdate := mkUpd (mkEdge a b) DELETE.

(** ** Vocabulary of the statements *)

Module StreamSpec.
Import BinaryGraphStream_MT.

(* The conditions under which the block fetch hands out nothing; [read_off] is
   the value its fetch_add obtained. *)
Definition breakpoint_condition (s : t) (read_off : N) : Prop :=
  query_block s = true
  ∨ end_of_file s <= stream_off s
  ∨ query_index s <= stream_off s
  ∨ query_index s <= read_off
  ∨ end_of_file s <= read_off.

(* query_index lies in [read_off, read_off + buf_size) *)
Definition query_in_block (s : t) (read_off : N) : Prop :=
  read_off <= query_index s ∧ query_index s < read_off + buf_size s.

Global Instance query_in_block_dec s r : Decision (query_in_block s r).
Proof. unfold query_in_block. apply _. Defined.

(* buf_size, clamped first to the registered query and then to the end of the
   file, in unbounded arithmetic *)
Definition clamped_amount (s : t) (read_off : N) : N :=
  let d := if decide (query_in_block s read_off)
           then query_index s - read_off else buf_size s in
  if decide (end_of_file s < read_off + d) then end_of_file s - read_off else d.

(* A stream whose block size is positive, whose file is as long as its header
   says, and whose offsets stay clear of 2^64. *)
Record sane (s : t) : Prop := mk_sane {
  sane_buf : 0 < buf_size s ∧ buf_size s < 2 ^ 32;
  sane_file : end_of_file s <= N.of_nat (length (stream_file s));
  sane_nowrap : end_of_file s + buf_size s < 2 ^ 64;
  sane_query : query_index s < 2 ^ 64
}.

End StreamSpec.

(** ** A small stream file used in the examples *)

Definition sample_file : list byte :=
  encode_file 4 [ins 0 1; ins 1 2; del 2 3].

(* a file that ends inside the header *)
Definition truncated_file : list byte := le_encode 4 4 ++ [Byte.x03].

(* the stream object that the constructor builds on [sample_file] *)
Definition sample_stream (b : N) : BinaryGraphStream_MT.t :=
  BinaryGraphStream_MT.mk 3 sample_file 4 3 (b - b mod edge_size) 39
                          header_size UINT64_MAX false.

(* a malloc'ed block of 18 bytes *)
Definition sample_mem : list byte := replicate 18 Byte.xff.

(** ** Vocabulary for the disjoint-set forest *)

Module DsuSpec.
Import Graph.

(* following parent from [x] ends at the root [r] *)
Inductive root_of (par : list node_id_t) : node_id_t → node_id_t → Prop :=
| root_self x : par !! N.to_nat x = Some x → root_of par x x
| root_step x p r :
    par !! N.to_nat x = Some p → p ≠ x → root_of par p r → root_of par x r.

(* parent stays inside the array and climbs a rank that is bounded *)
Definition forest (par : list node_id_t) (rank : node_id_t → nat) (bound : nat) : Prop :=
  ∀ x p, par !! N.to_nat x = Some p →
         (N.to_nat p < length par)%nat ∧ (rank x ≤ bound)%nat
         ∧ (p ≠ x → (rank x < rank p)%nat).

Record dsu_wf (g : t) (rank : node_id_t → nat) (bound : nat) : Prop := mk_dsu_wf {
  wf_forest : forest (parent g) rank bound;
  wf_size : length (size g) = length (parent g);
  wf_spanning_forest : length (spanning_forest g) = length (parent g)
}.

(* the larger of two roots by tree size, then the smaller, with their sizes;
   the first wins a tie *)
Definition by_size (szs : list node_id_t) (ra rb : node_id_t)
  : option (node_id_t * node_id_t * node_id_t * node_id_t) :=
  match szs !! N.to_nat ra, szs !! N.to_nat rb with
  | Some sa, Some sb =>
      Some (if sa <? sb then (rb, ra, sb, sa) else (ra, rb, sa, sb))
  | _, _ => None
  end.

(* the state in which root [b] hangs below root [a], size[a] has grown by
   size[b] and dst_ is recorded in spanning_forest[src_]; [par] is the parent
   array the finds left *)
Definition linked (g : t) (par : list node_id_t) (a b sa sb : node_id_t)
           (src_ dst_ : node_id_t) (f : gset node_id_t) : t :=
  mk (num_nodes g) (update_locked g)
     (<[N.to_nat b := a]> par)
     (<[N.to_nat a := wrap32 (sa + sb)]> (size g))
     (dsu_valid g)
     (<[N.to_nat src_ := {[dst_]} ∪ f]> (spanning_forest g))
     (gts g).

End DsuSpec.

(** ** A small graph used in the examples: four nodes, each its own root *)

Definition sample_graph : Graph.t :=
  Graph.mk 4 false [0; 1; 2; 3] [1; 1; 1; 1] true [∅; ∅; ∅; ∅] [].

(* the graph after a run of eager updates by thread 0 *)
Definition sample_updates (us : list GraphUpdate) : Graph.t :=
  foldl (fun g u => (Graph.update true true 4 [] g u 0%Z).1) sample_graph us.

(** ** Vocabulary for the readers' protocol *)

Module ReadersSpec.
Import BinaryGraphStream_MT StreamSpec Readers.

(* the offsets lo, lo + 9, lo + 18, ... below hi *)
Definition block_offsets (lo hi : N) : list N :=
  map (fun i => lo + edge_size * N.of_nat i) (seq 0 (N.to_nat ((hi - lo) / edge_size))).

(* where the readers stop: the registered query or the end of the file *)
Definition limit (s : BinaryGraphStream_MT.t) : N :=
  N.min (query_index s) (end_of_file s).

(* the offsets a reader holds but has not returned yet: the rest of its
   buffer, or the block it has claimed by its fetch_add *)
Definition pending (s : BinaryGraphStream_MT.t) (r : reader) : list N :=
  match at_pc r with
  | AfterFetchAdd ro => block_offsets ro (N.min (ro + buf_size s) (limit s))
  | _ => block_offsets (block_off r + MT_StreamReader.buf_pos (local r))
                       (block_off r + MT_StreamReader.data_in_buf (local r))
  end.

Definition owned (s : BinaryGraphStream_MT.t) (r : reader) : list N :=
  offsets (log r) ++ pending s r.

(* the reader is inside read_data, before its fetch_add *)
Definition before_fetch (r : reader) : bool :=
  match at_pc r with
  | AfterEofCheck | BeforeFetchAdd => true
  | _ => false
  end.

Definition slack_of (r : reader) : N := if before_fetch r then 0 else 1.

(* the number of readers that are not between the check and the fetch_add *)
Definition slack (rs : list reader) : N :=
  N.of_nat (length (filter (fun r => before_fetch r = false) rs)).

(* the kernel answers the first pread of this step with the whole count *)
Definition full_read (c : nat * list pread_outcome) : Prop :=
  match c.2 with
  | PreadFull :: _ => True
  | _ => False
  end.

(* the updates stored in the file of a stream, in file order *)
Definition file_updates (s : BinaryGraphStream_MT.t) : list GraphUpdate :=
  omap (record_at (stream_file s)) (block_offsets header_size (end_of_file s)).

(* the file offsets of all updates returned so far, reader by reader *)
Definition delivered (sys : system) : list N :=
  concat (map (fun r => offsets (log r)) (readers sys)).

Definition delivered_updates (sys : system) : list GraphUpdate :=
  concat (map (fun r => updates (log r)) (readers sys)).

Section Invariant.
(* the stream as the readers find it, and their number *)
Variable s0 : BinaryGraphStream_MT.t.
Variable k : nat.

Record reader_inv (so : N) (r : reader) : Prop := mk_reader_inv {
  ri_pc : at_pc r ≠ Halted;
  ri_pos : (edge_size | MT_StreamReader.buf_pos (local r));
  ri_dib : (edge_size | MT_StreamReader.data_in_buf (local r));
  ri_mem : ∀ p, p + edge_size <= MT_StreamReader.data_in_buf (local r) →
                record_at (MT_StreamReader.buf_mem (local r)) p
                = record_at (stream_file s0) (block_off r + p);
  ri_end : MT_StreamReader.data_in_buf (local r) = 0
           ∨ block_off r + MT_StreamReader.data_in_buf (local r) <= (end_of_file s0);
  ri_log : ∀ off u, Got off u ∈ log r → record_at (stream_file s0) off = Some u;
  ri_stop : last (log r) = Some Stop → MT_StreamReader.data_in_buf (local r) = 0;
  ri_exh : at_pc r ≠ Idle →
           MT_StreamReader.data_in_buf (local r) <= MT_StreamReader.buf_pos (local r);
  ri_fetch : ∀ ro, at_pc r = AfterFetchAdd ro →
             N.min (ro + (buf_size s0)) (query_index s0) <= so
             ∧ (ro < (limit s0) → (stream_off s0) <= ro ∧ (edge_size | ro - (stream_off s0)));
  ri_sorted : StronglySorted N.lt (owned s0 r)
}.

Record inv (sys : system) : Prop := mk_inv {
  gi_static : stream sys = set_stream_off (stream_off (stream sys)) s0;
  gi_len : length (readers sys) = k;
  gi_readers : Forall (reader_inv (stream_off (stream sys))) (readers sys);
  gi_perm : concat (map (owned s0) (readers sys))
            ≡ₚ block_offsets (stream_off s0) (N.min (stream_off (stream sys)) (limit s0));
  gi_align : stream_off (stream sys) < (limit s0) →
             (stream_off s0) <= stream_off (stream sys)
             ∧ (edge_size | stream_off (stream sys) - (stream_off s0));
  gi_slack : stream_off (stream sys) <= (end_of_file s0) + slack (readers sys) * (buf_size s0);
  gi_stop : (∃ r, r ∈ readers sys ∧ Stop ∈ log r) → (limit s0) <= stream_off (stream sys);
  gi_clamp : (query_index s0) <= (end_of_file s0) → (query_index s0) < stream_off (stream sys) →
             ∃ i r ro, readers sys !! i = Some r ∧ at_pc r = AfterFetchAdd ro
                       ∧ (query_index s0) < ro + (buf_size s0)
}.

(* what one step of a reader does, seen from outside *)
Inductive trans (so : N) (r : reader) : N → reader → Prop :=
| T_take u :
    at_pc r = Idle →
    MT_StreamReader.buf_pos (local r) < MT_StreamReader.data_in_buf (local r) →
    record_at (stream_file s0) (block_off r + MT_StreamReader.buf_pos (local r)) = Some u →
    trans so r so
      (mk_reader
         (MT_StreamReader.mk (MT_StreamReader.buf_mem (local r))
                             (MT_StreamReader.buf_pos (local r) + edge_size)
                             (MT_StreamReader.data_in_buf (local r)))
         Idle (block_off r)
         (log r ++ [Got (block_off r + MT_StreamReader.buf_pos (local r)) u]))
| T_stop :
    (at_pc r = Idle ∧ (end_of_file s0) <= so) ∨ (at_pc r = AfterEofCheck ∧ (query_index s0) <= so)
    ∨ (∃ ro, at_pc r = AfterFetchAdd ro ∧ (query_index s0) > ro ∧ (end_of_file s0) <= ro) →
    MT_StreamReader.data_in_buf (local r) <= MT_StreamReader.buf_pos (local r) →
    trans so r so
      (mk_reader
         (MT_StreamReader.mk (MT_StreamReader.buf_mem (local r))
                             (MT_StreamReader.buf_pos (local r)) 0)
         Idle (block_off r) (log r ++ [Stop]))
| T_clamp ro :
    at_pc r = AfterFetchAdd ro → (query_index s0) <= ro →
    trans so r (query_index s0)
      (mk_reader
         (MT_StreamReader.mk (MT_StreamReader.buf_mem (local r))
                             (MT_StreamReader.buf_pos (local r)) 0)
         Idle (block_off r) (log r ++ [Stop]))
| T_check1 :
    at_pc r = Idle → so < (end_of_file s0) →
    MT_StreamReader.data_in_buf (local r) <= MT_StreamReader.buf_pos (local r) →
    trans so r so (mk_reader (local r) AfterEofCheck (block_off r) (log r))
| T_check2 :
    at_pc r = AfterEofCheck → so < (query_index s0) →
    trans so r so (mk_reader (local r) BeforeFetchAdd (block_off r) (log r))
| T_fetch :
    at_pc r = BeforeFetchAdd →
    trans so r (so + (buf_size s0)) (mk_reader (local r) (AfterFetchAdd so) (block_off r) (log r))
| T_read ro u :
    at_pc r = AfterFetchAdd ro → ro < (query_index s0) → ro < (end_of_file s0) →
    record_at (stream_file s0) ro = Some u →
    trans so r (if decide (query_in_block s0 ro) then (query_index s0) else so)
      (mk_reader
         (MT_StreamReader.mk
            (buf_store (slice ro (clamped_amount s0 ro) (stream_file s0))
                       (MT_StreamReader.buf_mem (local r)))
            edge_size (clamped_amount s0 ro))
         Idle ro (log r ++ [Got ro u])).

End Invariant.

End ReadersSpec.

(* two readers on the sample stream: a schedule in which both run to the
   end of the file, the kernel delivering every block at once *)
Definition sample_schedule : list (nat * list pread_outcome) :=
  map (fun i => (i, [PreadFull])) [0; 0; 0; 1; 1; 1; 0; 1; 0; 1; 0; 0; 0; 1; 1; 1; 1]%nat.

(* a schedule in which the two readers race through read_data *)
Definition racing_schedule : list (nat * list pread_outcome) :=
  map (fun i => (i, [PreadFull])) [0; 1; 0; 1; 0; 1; 1; 0; 0; 0; 0]%nat.

(** ** Callers: a loop of get_edge calls on the single-reader stream *)

(* one call per entry of [ios] (whether the refill of that call meets a device
   error); the updates returned, or the first outcome that is not a return *)
Fixpoint get_edges (ios : list bool) (s : BinaryGraphStream.t)
  : BinaryGraphStream.t * outcome (list GraphUpdate) :=
  match ios with
  | [] => (s, Returned [])
  | io :: ios' =>
      match BinaryGraphStream.get_edge io s with
      | (s1, Returned u) =>
          match get_edges ios' s1 with
          | (s2, Returned us) => (s2, Returned (u :: us))
          | (s2, Raised e) => (s2, Raised e)
          | (s2, NoReturn) => (s2, NoReturn)
          | (s2, Undefined) => (s2, Undefined)
          end
      | (s1, Raised e) => (s1, Raised e)
      | (s1, NoReturn) => (s1, NoReturn)
      | (s1, Undefined) => (s1, Undefined)
      end
  end.

Module SingleReaderSpec.
Import BinaryGraphStream.

(* The single reader between two calls of get_edge, its buffer holding the
   block that starts at file offset [base]. *)
Record sr_inv (file : list byte) (bs base : N) (s : t) : Prop := mk_sr_inv {
  sr_bs : buf_size s = bs;
  sr_content : content (bin_file s) = file;
  sr_bad : badbit (bin_file s) = false;
  sr_pos : buf_pos s < bs ∧ (edge_size | buf_pos s);
  sr_buf : ∀ p, p + edge_size <= bs →
                base + p + edge_size <= N.of_nat (length file) →
                record_at (buf_mem s) p = record_at file (base + p);
  sr_file : (good (bin_file s) = true ∧ gpos (bin_file s) = base + bs
             ∧ base + bs <= N.of_nat (length file))
            ∨ (eofbit (bin_file s) = true ∧ N.of_nat (length file) < base + bs)
}.

(* What every state of the single reader satisfies when its buffer was
   allocated with buf_size bytes and the device never fails. *)
Record sr_safe (s : t) : Prop := mk_sr_safe {
  safe_bs : 0 < buf_size s ∧ (edge_size | buf_size s);
  safe_mem : N.of_nat (length (buf_mem s)) = buf_size s;
  safe_pos : buf_pos s < buf_size s ∧ (edge_size | buf_pos s);
  safe_bad : badbit (bin_file s) = false;
  safe_eof : failbit (bin_file s) = true → eofbit (bin_file s) = true
}.

(* the stream state bits while the device does not fail *)
Definition flags_ok (f : ifstream) : Prop :=
  badbit f = false ∧ (failbit f = true → eofbit f = true).

End SingleReaderSpec.


Module Resume.
Import BinaryGraphStream_MT Readers.


End Resume.


(* a stream file that ends after its first record although the header
   announces three *)
Definition short_file : list byte := take 21 sample_file.

(** ** The controlling thread next to the readers (lines 103-118)

    While the readers run, the controlling thread may call on_demand_query
    and, later, post_query_resume.  Both are single stores to atomics, so each
    is one step of the system, at any place between the steps of the
    readers. *)

Module Controller.
Import BinaryGraphStream_MT Readers.

Inductive action : Type :=
| Reader (c : nat * list pread_outcome)   (* a reader takes its next step *)
| Pause                                   (* on_demand_query() *)
| Resume.                                 (* post_query_resume() *)

Definition act (sys : system) (a : action) : system :=
  match a with
  | Reader c => step sys c
  | Pause => mk_system (on_demand_query (stream sys)) (readers sys)
  | Resume => mk_system (post_query_resume (stream sys)) (readers sys)
  end.

Definition play (acts : list action) (sys : system) : system := foldl act sys acts.

(* the kernel answers the first pread of every reader step with the whole count *)
Definition full_reads (a : action) : Prop :=
  match a with
  | Reader c => ReadersSpec.full_read c
  | _ => True
  end.

(* the readers that are inside read_data, between line 157 and the fetch_add *)
Definition inside (rs : list reader) : N :=
  N.of_nat (length (filter (fun r => ReadersSpec.before_fetch r = true) rs)).

Section Invariant.
Variable s0 : BinaryGraphStream_MT.t.
Variable k : nat.

(* what holds of the readers whether or not the stream is paused *)
Record winv (sys : system) : Prop := mk_winv {
  wi_static : set_query_block false (stream sys)
              = set_stream_off (stream_off (stream sys)) s0;
  wi_len : length (readers sys) = k;
  wi_readers : Forall (ReadersSpec.reader_inv s0 (stream_off (stream sys))) (readers sys);
  wi_perm : concat (map (ReadersSpec.owned s0) (readers sys))
            ≡ₚ ReadersSpec.block_offsets (stream_off s0)
                 (N.min (stream_off (stream sys)) (ReadersSpec.limit s0));
  wi_align : stream_off (stream sys) < ReadersSpec.limit s0 →
             stream_off s0 <= stream_off (stream sys)
             ∧ (edge_size | stream_off (stream sys) - stream_off s0);
  wi_slack : stream_off (stream sys)
             <= end_of_file s0 + ReadersSpec.slack (readers sys) * buf_size s0
}.

End Invariant.

End Controller.

(* two readers on the sample stream, a pause after the first block has been
   fetched, and the rest of the file after the resume *)
Definition pause_acts : list Controller.action :=
  map (fun i => Controller.Reader (i, [PreadFull])) [0; 0; 0; 0]%nat
  ++ [Controller.Pause]
  ++ map (fun i => Controller.Reader (i, [PreadFull])) [0; 0; 1]%nat
  ++ [Controller.Resume]
  ++ map (fun i => Controller.Reader (i, [PreadFull])) [0; 0; 0; 0; 0; 1]%nat.

(** ** A thread that applies updates one after the other *)

(* each update with the thread id of the call and the spurious failures that
   its compare-exchange meets; the first call that does not return ends
   the run *)
Fixpoint apply_updates (eager lhs_first : bool) (fuel : nat) (g : Graph.t)
         (us : list (GraphUpdate * Z * list bool)) : Graph.t * outcome unit :=
  match us with
  | [] => (g, Returned tt)
  | (u, thr, cas) :: us' =>
      match Graph.update eager lhs_first fuel cas g u thr with
      | (g', Returned _) => apply_updates eager lhs_first fuel g' us'
      | (g', Raised e) => (g', Raised e)
      | (g', NoReturn) => (g', NoReturn)
      | (g', Undefined) => (g', Undefined)
      end
  end.

(* what a list of updates hands to the guttering system *)
Definition gutter_calls (us : list (GraphUpdate * Z * list bool)) : list (Edge * Z) :=
  concat (map (fun x : GraphUpdate * Z * list bool =>
                 [(mkEdge (src (edge x.1.1)) (dst (edge x.1.1)), x.1.2);
                  (mkEdge (dst (edge x.1.1)) (src (edge x.1.1)), x.1.2)]) us).

Module DsuMerge.
Import Graph DsuSpec.

(* two nodes are in the same set of the disjoint-set forest *)
Definition same_set (par : list node_id_t) (x y : node_id_t) : Prop :=
  ∃ r, root_of par x r ∧ root_of par y r.

(* the rank after root [w] has become the parent of another root, when the
   ranks were bounded by [R] *)
Definition lifted (rank : node_id_t → nat) (R : nat) (w : node_id_t)
  : node_id_t → nat :=
  fun y => if decide (y = w) then (rank y + R + 1)%nat else rank y.

(* the two endpoints of an update, as lines 134-135 order them *)
Definition ends (u : GraphUpdate) : node_id_t * node_id_t :=
  (N.min (src (edge u)) (dst (edge u)), N.max (src (edge u)) (dst (edge u))).

(* how many of the updates name the edge [e] *)
Definition toggles (us : list (GraphUpdate * Z * list bool))
           (e : node_id_t * node_id_t) : nat :=
  length (filter (fun x : GraphUpdate * Z * list bool => ends x.1.1 = e) us).

(* The graph that the updates describe.  Graph::update does not look at the
   type of an update: an update toggles its edge, which is in the graph when it
   has been named an odd number of times. *)
Definition present (us : list (GraphUpdate * Z * list bool)) (a b : node_id_t) : Prop :=
  Nat.odd (toggles us (N.min a b, N.max a b)) = true.

Definition connected (us : list (GraphUpdate * Z * list bool)) : relation node_id_t :=
  rtsc (present us).

(* b is recorded in spanning_forest[a] *)
Definition recorded (sf : list (gset node_id_t)) (a b : node_id_t) : Prop :=
  ∃ f, sf !! N.to_nat a = Some f ∧ b ∈ f.

(* iterations that are enough for each of the calls, when the ranks are
   bounded by [R] at the start *)
Fixpoint enough (R : nat) (us : list (GraphUpdate * Z * list bool)) : nat :=
  match us with
  | [] => O
  | x :: us' => S (R `max` length x.2) `max` enough (2 * R + 1) us'
  end.

(* what the disjoint-set forest and the spanning forest keep of the updates
   [us] applied so far, while dsu_valid is set *)
Record tracks (g : Graph.t) (us : list (GraphUpdate * Z * list bool))
       (rank : node_id_t → nat) (R : nat) : Prop := mk_tracks {
  tr_wf : dsu_wf g rank R;
  tr_unlocked : update_locked g = false;
  tr_recorded : ∀ a b, recorded (spanning_forest g) a b →
                       same_set (parent g) a b ∧ toggles us (a, b) = 1%nat ∧ a <= b;
  tr_spans : ∀ x y, same_set (parent g) x y → rtsc (recorded (spanning_forest g)) x y;
  tr_seen : ∀ x, x ∈ us → same_set (parent g) (ends x.1.1).1 (ends x.1.1).2
}.

End DsuMerge.

(** ** GraphConfiguration (graph_configuration.cpp) *)

Module GraphConfiguration.

(** Modelled from the spec: the declarations of graph_configuration.h, which
    is not among the sources: the enumeration of the guttering systems (the
    spec, 5: "gutter_sys in {StandAlone, Tree, CacheTree}";
    graph_configuration.cpp names GUTTERTREE and CACHETREE) and the fields that
    the setters assign.  The guttering configuration _gutter_conf belongs to
    the guttering library and is left out. *)
Inductive GutterSystem : Type := GUTTERTREE | STANDALONE | CACHETREE.

Record t : Type := mk {
  _gutter_sys : GutterSystem;
  _disk_dir : string;
  _backup_in_mem : bool;
  _num_groups : N;   (* size_t *)
  _group_size : N    (* size_t *)
}.

(* std::endl *)
Definition endl : string := String (Ascii.ascii_of_nat 10) EmptyString.

(* lines 5-8 *)
Definition gutter_sys (g : GutterSystem) (c : t) : t :=
  mk g (_disk_dir c) (_backup_in_mem c) (_num_groups c) (_group_size c).

(* lines 10-13 *)
Definition disk_dir (d : string) (c : t) : t :=
  mk (_gutter_sys c) d (_backup_in_mem c) (_num_groups c) (_group_size c).

(* lines 15-18 *)
Definition backup_in_mem (b : bool) (c : t) : t :=
  mk (_gutter_sys c) (_disk_dir c) b (_num_groups c) (_group_size c).

(* lines 20-28: the configuration, and what the call writes to std::cout *)
Definition num_groups (n : N) (c : t) : t * string :=
  let c1 := mk (_gutter_sys c) (_disk_dir c) (_backup_in_mem c) n (_group_size c) in
  if _num_groups c1 <? 1 then
    (mk (_gutter_sys c1) (_disk_dir c1) (_backup_in_mem c1) 1 (_group_size c1),
     "num_groups=" +:+ pretty (_num_groups c1) +:+ " is out of bounds. "
       +:+ "Defaulting to 1." +:+ endl)
  else (c1, EmptyString).

(* lines 30-38 *)
Definition group_size (n : N) (c : t) : t * string :=
  let c1 := mk (_gutter_sys c) (_disk_dir c) (_backup_in_mem c) (_num_groups c) n in
  if _group_size c1 <? 1 then
    (mk (_gutter_sys c1) (_disk_dir c1) (_backup_in_mem c1) (_num_groups c1) 1,
     "group_size=" +:+ pretty (_group_size c1) +:+ " is out of bounds. "
       +:+ "Defaulting to 1." +:+ endl)
  else (c1, EmptyString).

(* Every setter returns *this, so that calls are chained:
   conf.num_groups(4).disk_dir(d)...  One link of such a chain: *)
Inductive call : Type :=
| Gutter_sys (g : GutterSystem)
| Disk_dir (d : string)
| Backup_in_mem (b : bool)
| Num_groups (n : N)
| Group_size (n : N).

(* the configuration after the call, and std::cout with what the call wrote *)
Definition apply (st : t * string) (k : call) : t * string :=
  match k with
  | Gutter_sys g => (gutter_sys g st.1, st.2)
  | Disk_dir d => (disk_dir d st.1, st.2)
  | Backup_in_mem b => (backup_in_mem b st.1, st.2)
  | Num_groups n => let '(c, out) := num_groups n st.1 in (c, st.2 +:+ out)
  | Group_size n => let '(c, out) := group_size n st.1 in (c, st.2 +:+ out)
  end.

Definition chain (calls : list call) (c : t) : t * string :=
  foldl apply (c, EmptyString) calls.

(* the warning that a call writes *)
Definition warning (k : call) : string :=
  match k with
  | Num_groups 0 =>
      "num_groups=0 is out of bounds. Defaulting to 1." +:+ endl
  | Group_size 0 =>
      "group_size=0 is out of bounds. Defaulting to 1." +:+ endl
  | _ => EmptyString
  end.

(* the last value that the calls give to a field, [d] if none does *)
Definition last_set {A} (f : call → option A) (calls : list call) (d : A) : A :=
  default d (last (omap f calls)).

End GraphConfiguration.

(** * Properties *)

(** ** Arithmetic of the machine integers *)

Lemma two64 : 2 ^ 64 = 18446744073709551616.
Proof. reflexivity. Qed.
Lemma two32 : 2 ^ 32 = 4294967296.
Proof. reflexivity. Qed.
Lemma two31 : 2 ^ 31 = 2147483648.
Proof. reflexivity. Qed.

Lemma wrap64_small x : x < 2 ^ 64 → wrap64 x = x.
Proof. apply N.mod_small. Qed.

Lemma wrap32_small x : x < 2 ^ 32 → wrap32 x = x.
Proof. apply N.mod_small. Qed.

Lemma add64_small a b : a + b < 2 ^ 64 → add64 a b = a + b.
Proof. apply wrap64_small. Qed.

Lemma sub64_small a b : b <= a → a < 2 ^ 64 → sub64 a b = a - b.
Proof.
  intros Hle Hlt. unfold sub64, wrap64.
  replace (a + 2 ^ 64 - b) with ((a - b) + 1 * 2 ^ 64) by lia.
  rewrite N.Div0.mod_add. apply N.mod_small. lia.
Qed.

Lemma int_as_size_t_wrap32 n : n < 2 ^ 32 → wrap32 (int_as_size_t n) = n.
Proof.
  intros H. unfold int_as_size_t. destruct (n <? 2 ^ 31) eqn:E.
  - by apply wrap32_small.
  - apply N.ltb_ge in E. rewrite two31 in E. rewrite two32 in H.
    unfold wrap64, wrap32. rewrite two64, two32.
    rewrite (N.mod_small (_ + n)) by lia.
    replace (18446744073709551616 - 4294967296 + n)
      with (n + 4294967295 * 4294967296) by lia.
    rewrite N.Div0.mod_add. apply N.mod_small. lia.
Qed.

Lemma int_as_size_t_ge n : n < 2 ^ 32 → n <= int_as_size_t n < 2 ^ 64.
Proof.
  intros H. unfold int_as_size_t. destruct (n <? 2 ^ 31) eqn:E.
  - rewrite two64. rewrite two32 in H. lia.
  - rewrite two32 in H. unfold wrap64. rewrite two64, two32.
    rewrite N.mod_small by lia. lia.
Qed.

Lemma length_slice off len (l : list byte) :
  off + len <= N.of_nat (length l) → length (slice off len l) = N.to_nat len.
Proof. intros H. unfold slice. rewrite length_take, length_drop. lia. Qed.

(** ** The retry loop when the kernel delivers the whole count at once *)

Lemma pread_loop_full os file buf d off :
  0 < d < 2 ^ 32 → off + d <= N.of_nat (length file) → off < 2 ^ 64 →
  BinaryGraphStream_MT.pread_loop (PreadFull :: os) file buf d off 0
  = (buf_store (slice off d file) buf, Returned d).
Proof.
  intros Hd Hlen Hoff. simpl.
  destruct (N.ltb_spec 0 d) as [_|]; [|lia].
  rewrite add64_small by lia. rewrite N.add_0_r.
  rewrite length_slice by done. rewrite N2Nat.id.
  unfold add64. rewrite N.add_0_l.
  pose proof (int_as_size_t_ge d ltac:(lia)) as [H1 H2].
  rewrite (wrap64_small (int_as_size_t d)) by done.
  assert ((int_as_size_t d <? d) = false) as Hf by (apply N.ltb_ge; lia).
  assert (wrap32 (int_as_size_t d) = d) as Hw by (apply int_as_size_t_wrap32; lia).
  destruct os; simpl; rewrite Hf, Hw; reflexivity.
Qed.

Lemma slice_slice off d p n (l : list byte) :
  p + n <= d → slice p n (slice off d l) = slice (off + p) n l.
Proof.
  intros H. unfold slice.
  rewrite skipn_firstn_comm, take_take, drop_drop.
  f_equal; [lia|]. f_equal. lia.
Qed.

Lemma slice_app_l p n (a b : list byte) :
  p + n <= N.of_nat (length a) → slice p n (a ++ b) = slice p n a.
Proof.
  intros H. unfold slice. rewrite drop_app_le by lia.
  rewrite take_app_le; [done|]. rewrite length_drop. lia.
Qed.

(* a record of a block that pread stored in a buffer is the file's record *)
Lemma record_at_buf_store file buf off d p :
  off + d <= N.of_nat (length file) → p + edge_size <= d →
  record_at (buf_store (slice off d file) buf) p = record_at file (off + p).
Proof.
  intros Hlen Hp. unfold record_at, buf_store.
  rewrite slice_app_l by (rewrite length_slice by done; lia).
  by rewrite slice_slice.
Qed.

Lemma parse_record_Some rec :
  length rec = 9%nat → is_Some (parse_record rec).
Proof.
  destruct rec as [|u rest]; [done|]. simpl. intros [= H].
  rewrite H. simpl. eauto.
Qed.

Lemma record_at_Some file off :
  off + edge_size <= N.of_nat (length file) → is_Some (record_at file off).
Proof.
  intros H. apply parse_record_Some. rewrite length_slice by done. reflexivity.
Qed.

Lemma new_sample_stream b :
  BinaryGraphStream_MT.new (BinaryGraphStream_MT.Opened 3 sample_file)
                           PreadFull PreadFull b
  = Returned (sample_stream b).
Proof. reflexivity. Qed.

(** ** The block fetch: read_data *)

Section BlockFetch.
Import BinaryGraphStream_MT StreamSpec.

Lemma data_to_read_clamped s read_off :
  sane s → read_off < query_index s → read_off < end_of_file s →
  data_to_read s read_off = clamped_amount s read_off
  ∧ 0 < clamped_amount s read_off ∧ clamped_amount s read_off <= buf_size s
  ∧ read_off + clamped_amount s read_off <= end_of_file s
  ∧ in_query_window s read_off = bool_decide (query_in_block s read_off).
Proof.
  intros [[Hb1 Hb2] Hf Hw Hq] Hrq Hre.
  unfold data_to_read, clamped_amount, in_query_window.
  rewrite (add64_small read_off (buf_size s)) by lia.
  assert (((read_off <=? query_index s) && (query_index s <? read_off + buf_size s))
          = bool_decide (query_in_block s read_off)) as ->.
  { unfold query_in_block. case_bool_decide as H.
    - destruct H. apply andb_true_iff. split; [apply N.leb_le | apply N.ltb_lt]; lia.
    - apply andb_false_iff. destruct (N.leb_spec read_off (query_index s)); [|by left].
      right. apply N.ltb_ge. lia. }
  case_bool_decide as Hwin; destruct (decide (query_in_block s read_off)); try done.
  - destruct Hwin as [Hw1 Hw2].
    rewrite sub64_small by lia. rewrite add64_small by lia.
    destruct (N.ltb_spec (end_of_file s) (read_off + (query_index s - read_off)));
      case_decide; try lia;
      try (rewrite sub64_small by lia); repeat split; lia.
  - rewrite add64_small by lia.
    destruct (N.ltb_spec (end_of_file s) (read_off + buf_size s));
      case_decide; try lia;
      try (rewrite sub64_small by lia); repeat split; lia.
Qed.

(* lines 163-184 when the re-checks pass and the kernel delivers at once *)
Lemma read_data_at_full os s read_off buf :
  sane s → read_off < query_index s → read_off < end_of_file s →
  read_data_at (PreadFull :: os) s read_off buf
  = (if decide (query_in_block s read_off)
     then set_stream_off (query_index s) s else s,
     buf_store (slice read_off (clamped_amount s read_off) (stream_file s)) buf,
     Returned (clamped_amount s read_off)).
Proof.
  intros Hs Hq He.
  destruct (data_to_read_clamped s read_off Hs Hq He) as (Hd & Hpos & Hle & Hend & Hwin).
  destruct Hs as [[Hb1 Hb2] Hf Hw Hqi].
  unfold read_data_at.
  destruct (N.leb_spec (query_index s) read_off); [lia|].
  destruct (N.leb_spec (end_of_file s) read_off); [lia|].
  rewrite Hd, Hwin, pread_loop_full by lia.
  by case_bool_decide; case_decide.
Qed.

(** C3 (amended).  For a stream with a positive block size, and a kernel that
    delivers the requested bytes at once: read_data returns 0 exactly when a
    breakpoint condition holds (query_block set, stream_off at or past
    end_of_file or query_index, or the fetched read_off at or past query_index
    or end_of_file); when the re-check finds read_off at or past query_index,
    stream_off is set to query_index; otherwise the call returns the amount
    obtained from buf_size by clamping to the registered query and then to
    the end of the file, the buffer holds that many bytes of the file from
    read_off on, and stream_off is query_index when the query lies in the
    block. *)
Theorem read_data_zero_iff_breakpoint cur os s buf :
  sane s →
  let res := read_data_racing cur (PreadFull :: os) s buf in
  (res.2 = Returned 0 ↔ breakpoint_condition s cur)
  ∧ (check_block_eof s || check_query s = true → res = (s, buf, Returned 0))
  ∧ (check_block_eof s || check_query s = false → query_index s <= cur →
     stream_off res.1.1 = query_index s ∧ res.1.2 = buf)
  ∧ (¬ breakpoint_condition s cur →
     res.2 = Returned (clamped_amount s cur)
     ∧ res.1.2 = buf_store (slice cur (clamped_amount s cur) (stream_file s)) buf
     ∧ stream_off res.1.1 = if decide (query_in_block s cur)
                            then query_index s else cur + buf_size s).
Proof.
  intros Hs res. subst res. unfold read_data_racing, breakpoint_condition.
  unfold check_block_eof, check_query.
  destruct (query_block s) eqn:Hqb; simpl.
  { split; [split; auto|]. split; [done|]. split; [done|]. intros []. by left. }
  destruct (N.leb_spec (end_of_file s) (stream_off s)) as [He|He]; simpl.
  { split; [split; auto|]. split; [done|]. split; [done|]. intros []. auto. }
  destruct (N.leb_spec (query_index s) (stream_off s)) as [Hq|Hq]; simpl.
  { split; [split; auto|]. split; [done|]. split; [done|]. intros []. auto. }
  set (s1 := set_stream_off (add64 cur (buf_size s)) (set_stream_off cur s)).
  assert (sane s1) as Hs1 by (destruct Hs; by constructor).
  destruct (N.leb_spec (query_index s) cur) as [Hqc|Hqc].
  { unfold read_data_at. simpl.
    destruct (N.leb_spec (query_index s) cur); [|lia]. simpl.
    split; [split; auto|]. split; [done|]. split; [done|]. intros []. auto. }
  destruct (N.leb_spec (end_of_file s) cur) as [Hec|Hec].
  { unfold read_data_at. simpl.
    destruct (N.leb_spec (query_index s) cur); [lia|].
    destruct (N.leb_spec (end_of_file s) cur); [|lia]. simpl.
    split; [split; auto|]. split; [done|]. split; [intros; lia|]. intros []. auto. }
  rewrite (read_data_at_full os s1 cur buf Hs1) by done. simpl.
  destruct (data_to_read_clamped s cur Hs Hqc Hec) as (Hd & Hpos & Hle & Hend & Hwin).
  change (clamped_amount s1 cur) with (clamped_amount s cur).
  change (query_in_block s1 cur) with (query_in_block s cur).
  split.
  { split.
    - intros [= H0]. lia.
    - intros [|[|[|[|]]]]; (done || lia). }
  split; [done|]. split; [intros; lia|]. intros _.
  split; [reflexivity|]. split; [reflexivity|].
  repeat case_decide; try done; subst s1; simpl.
  destruct Hs as [[] ? ? ?]. rewrite add64_small by lia. reflexivity.
Qed.

Lemma sample_stream_sane : sane (sample_stream 20).
Proof. constructor; vm_compute; (done || (split; done)). Qed.

End BlockFetch.

Section BlockFetchCases.
Import BinaryGraphStream_MT StreamSpec.

Lemma read_data_zero_iff_breakpoint_witness :
  sane (sample_stream 20)
  ∧ (read_data_racing 12 [PreadFull] (sample_stream 20) sample_mem).2 = Returned 18.
Proof.
  split; [exact sample_stream_sane|].
  destruct (read_data_zero_iff_breakpoint 12 [] (sample_stream 20) sample_mem
              sample_stream_sane) as (_ & _ & _ & H).
  destruct H as (H & _).
  - unfold breakpoint_condition. simpl. unfold UINT64_MAX, header_size. lia.
  - exact H.
Defined.

(* With a block size below one record (B = 5, buf_size = 0) the call returns 0
   although none of the breakpoint conditions holds. *)
Lemma read_data_zero_without_breakpoint :
  (read_data [PreadFull] (sample_stream 5) []).2 = Returned 0
  ∧ ¬ breakpoint_condition (sample_stream 5) (stream_off (sample_stream 5)).
Proof.
  split; [reflexivity|].
  unfold breakpoint_condition. simpl. unfold UINT64_MAX, header_size. lia.
Qed.

(** C4 (the retry loop of lines 179-183 on a short read).  On the sample file
    with an 18-byte block, when the kernel delivers 9 bytes to the first pread:
    the second pread is issued for the full 18 bytes into the start of the
    buffer, read_data returns 27 instead of 18, the buffer holds the file from
    offset 21 instead of offset 12, and the record at offset 12 is gone. *)
Theorem read_data_short_read_overwrites :
  let s := sample_stream 20 in
  data_to_read s 12 = 18
  ∧ read_data [PreadShort 9; PreadFull] s sample_mem
    = (set_stream_off 30 s, slice 21 18 sample_file, Returned 27)
  ∧ slice 21 18 sample_file ≠ buf_store (slice 12 18 sample_file) sample_mem
  ∧ record_at (slice 21 18 sample_file) 0 = Some (ins 1 2)
  ∧ record_at sample_file 12 = Some (ins 0 1).
Proof. repeat split; vm_compute; congruence. Qed.

(* the retry loop throws only StreamFailed, and only on a failed pread *)
Lemma pread_loop_raises os file buf d off n buf' e :
  pread_loop os file buf d off n = (buf', Raised e) →
  e = StreamFailedException ∧ PreadError ∈ os.
Proof.
  revert buf n. induction os as [|o os IH]; intros buf n; simpl.
  - destruct (n <? d); intros [= ].
  - destruct (n <? d); [|intros [= ]].
    destruct o; simpl.
    + intros [= <- <-]. split; [done|]. left.
    + intros H. apply IH in H as [-> H]. split; [done|]. by right.
    + intros H. apply IH in H as [-> H]. split; [done|]. by right.
Qed.

Lemma read_data_raises cur os s buf s' buf' e :
  read_data_racing cur os s buf = (s', buf', Raised e) →
  e = StreamFailedException ∧ PreadError ∈ os.
Proof.
  unfold read_data_racing.
  destruct (check_block_eof s || check_query s); [intros [= ]|].
  simpl. unfold read_data_at.
  destruct (query_index _ <=? _); [intros [= ]|].
  destruct (end_of_file _ <=? _); [intros [= ]|].
  destruct (pread_loop _ _ _ _ _ _) as [b r] eqn:E.
  intros [= _ _ ->]. eapply pread_loop_raises; eauto.
Qed.

Lemma set_stream_off_id s : set_stream_off (stream_off s) s = s.
Proof. by destruct s. Qed.

Lemma new_fresh o k1 k2 b s :
  new o k1 k2 b = Returned s →
  stream_off s = header_size ∧ query_index s = UINT64_MAX ∧ query_block s = false
  ∧ buf_size s = b - b mod edge_size
  ∧ end_of_file s = add64 (wrap64 (num_edges s * edge_size)) header_size.
Proof.
  unfold new. repeat case_match; try done. by intros [= <-].
Qed.

(* a reader whose buffer is used up, on a stream that is not at a breakpoint
   and has a whole record left before the query and the end of the file *)
Lemma get_edge_fetches os s r :
  sane s → query_block s = false → edge_size <= buf_size s →
  stream_off s + edge_size <= end_of_file s →
  stream_off s + edge_size <= query_index s →
  MT_StreamReader.exhausted r = true →
  ∃ u, record_at (stream_file s) (stream_off s) = Some u
       ∧ MT_StreamReader.get_edge (PreadFull :: os) s r
         = (if decide (query_in_block s (stream_off s))
            then set_stream_off (query_index s) s
            else set_stream_off (stream_off s + buf_size s) s,
            {| MT_StreamReader.buf_mem :=
                 buf_store (slice (stream_off s) (clamped_amount s (stream_off s))
                                  (stream_file s)) (MT_StreamReader.buf_mem r);
               MT_StreamReader.buf_pos := edge_size;
               MT_StreamReader.data_in_buf := clamped_amount s (stream_off s) |},
            Returned u).
Proof.
  intros Hs Hqb Hbs He Hq Hex.
  assert (edge_size = 9) as He9 by reflexivity.
  destruct (record_at_Some (stream_file s) (stream_off s)) as [u Hu].
  { destruct Hs. lia. }
  exists u. split; [done|].
  unfold MT_StreamReader.get_edge. rewrite Hex.
  unfold read_data, read_data_racing, check_block_eof, check_query. rewrite Hqb.
  destruct (N.leb_spec (end_of_file s) (stream_off s)); [lia|].
  destruct (N.leb_spec (query_index s) (stream_off s)); [lia|]. simpl.
  rewrite set_stream_off_id.
  set (s1 := set_stream_off _ s).
  assert (sane s1) as Hs1 by (destruct Hs; by constructor).
  rewrite (read_data_at_full os s1 (stream_off s) _ Hs1) by (simpl; lia).
  change (clamped_amount s1 (stream_off s)) with (clamped_amount s (stream_off s)).
  change (query_in_block s1 (stream_off s)) with (query_in_block s (stream_off s)).
  assert (edge_size <= clamped_amount s (stream_off s)) as Hc.
  { unfold clamped_amount, query_in_block. repeat case_decide; lia. }
  destruct (data_to_read_clamped s (stream_off s) Hs) as (_ & _ & _ & Hend & _); [lia..|].
  unfold MT_StreamReader.after_read_data.
  destruct (N.eqb_spec (clamped_amount s (stream_off s)) 0); [lia|].
  unfold MT_StreamReader.take_record. simpl.
  rewrite record_at_buf_store by (destruct Hs; lia).
  rewrite N.add_0_r, Hu. simpl.
  f_equal. f_equal.
  repeat case_decide; try done; subst s1.
  destruct Hs as [[] ? ? ?]. by rewrite add64_small by lia.
Qed.

(** C9 (amended).  register_query(0) on a freshly constructed multi-reader
    stream is rejected: it returns false and leaves the stream as it was (no
    query is registered).  The readers therefore do not stop at their first
    read: when the block size holds a record and the file has one, the first
    get_edge of a reader returns the first update of the file. *)
Theorem register_query_zero_rejected o k1 k2 b s :
  new o k1 k2 b = Returned s →
  register_query 0 s = (s, false)
  ∧ (∀ os mem,
       sane s → edge_size <= buf_size s → header_size + edge_size <= end_of_file s →
       ∃ u, record_at (stream_file s) header_size = Some u
            ∧ (MT_StreamReader.get_edge (PreadFull :: os) s (MT_StreamReader.new mem)).2
              = Returned u).
Proof.
  intros Hnew. destruct (new_fresh _ _ _ _ _ Hnew) as (Hso & Hqi & Hqb & _).
  split.
  - unfold register_query. rewrite Hso. reflexivity.
  - intros os mem Hs Hbs He.
    destruct (get_edge_fetches os s (MT_StreamReader.new mem) Hs Hqb Hbs) as (u & Hu & Hg).
    + rewrite Hso. done.
    + rewrite Hso, Hqi. unfold UINT64_MAX. destruct Hs as [_ _ Hw _].
      change header_size with 12 in *. change edge_size with 9 in *. lia.
    + reflexivity.
    + exists u. rewrite <- Hso at 1. split; [done|]. by rewrite Hg.
Qed.

Lemma register_query_zero_rejected_witness :
  new (Opened 3 sample_file) PreadFull PreadFull 20 = Returned (sample_stream 20)
  ∧ register_query 0 (sample_stream 20) = (sample_stream 20, false).
Proof.
  split; [reflexivity|].
  exact (proj1 (register_query_zero_rejected _ _ _ _ _ (new_sample_stream 20))).
Defined.

(* q = 0 before any read: false is returned, nothing is registered, and the
   first get_edge delivers the first update, not the sentinel *)
Lemma register_query_zero_not_admitted :
  (register_query 0 (sample_stream 20)).2 = false
  ∧ query_index (register_query 0 (sample_stream 20)).1 = UINT64_MAX
  ∧ (MT_StreamReader.get_edge [PreadFull] (register_query 0 (sample_stream 20)).1
                              (MT_StreamReader.new sample_mem)).2
    = Returned (ins 0 1)
  ∧ ins 0 1 ≠ MT_StreamReader.breakpoint.
Proof. repeat split; vm_compute; congruence. Qed.

(** C10 (amended).  When a 0-byte fetch condition holds (query_block set, or
    stream_off at or past end_of_file or query_index) and the reader's buffer
    is used up, get_edge returns the sentinel {{0, 0}, BREAKPOINT}, leaves the
    stream, the buffer contents and the buffer position as they were and sets
    data_in_buf to 0; any further get_edge in that state returns the sentinel
    again and changes nothing; and after post_query_resume the next get_edge
    returns the update stored at the stream's offset stream_off, the place
    where the stream had stopped. *)
Theorem get_edge_breakpoint_frame os s r :
  check_block_eof s || check_query s = true →
  MT_StreamReader.exhausted r = true →
  let r' := {| MT_StreamReader.buf_mem := MT_StreamReader.buf_mem r;
               MT_StreamReader.buf_pos := MT_StreamReader.buf_pos r;
               MT_StreamReader.data_in_buf := 0 |} in
  MT_StreamReader.get_edge os s r = (s, r', Returned MT_StreamReader.breakpoint)
  ∧ (∀ os', MT_StreamReader.get_edge os' s r'
            = (s, r', Returned MT_StreamReader.breakpoint))
  ∧ (∀ os', sane s → edge_size <= buf_size s →
       stream_off s + edge_size <= end_of_file s →
       ∃ u, record_at (stream_file s) (stream_off s) = Some u
            ∧ (MT_StreamReader.get_edge (PreadFull :: os') (post_query_resume s) r').2
              = Returned u).
Proof.
  intros Hc Hex r'.
  assert (MT_StreamReader.exhausted r' = true) as Hex'.
  { apply N.leb_le. simpl. lia. }
  split; [|split].
  - unfold MT_StreamReader.get_edge, read_data, read_data_racing.
    by rewrite Hex, Hc.
  - intros os'. unfold MT_StreamReader.get_edge, read_data, read_data_racing.
    by rewrite Hex', Hc.
  - intros os' Hs Hbs He.
    assert (sane (post_query_resume s)) as Hs'.
    { destruct Hs. by constructor. }
    destruct (get_edge_fetches os' (post_query_resume s) r' Hs') as (u & Hu & Hg);
      try done.
    + simpl. unfold UINT64_MAX. destruct Hs as [_ _ Hw _].
      change edge_size with 9 in *. lia.
    + exists u. split; [done|]. by rewrite Hg.
Qed.

Lemma get_edge_breakpoint_frame_witness :
  check_block_eof (on_demand_query (sample_stream 20))
    || check_query (on_demand_query (sample_stream 20)) = true
  ∧ MT_StreamReader.get_edge [] (on_demand_query (sample_stream 20))
                             (MT_StreamReader.new sample_mem)
    = (on_demand_query (sample_stream 20), MT_StreamReader.new sample_mem,
       Returned MT_StreamReader.breakpoint).
Proof.
  split; [reflexivity|].
  exact (proj1 (get_edge_breakpoint_frame [] (on_demand_query (sample_stream 20))
                  (MT_StreamReader.new sample_mem) eq_refl eq_refl)).
Defined.

(* A reader fetched the first block and got its first update; then the stream
   is paused.  The next get_edge still returns a buffered update and moves the
   buffer position; the one after it returns the sentinel and takes
   data_in_buf from 18 to 0. *)
Lemma get_edge_during_pause_changes_reader :
  let '(s1, r1, _) :=
    MT_StreamReader.get_edge [PreadFull] (sample_stream 20)
                             (MT_StreamReader.new sample_mem) in
  let s2 := on_demand_query s1 in
  let '(_, r2, u2) := MT_StreamReader.get_edge [] s2 r1 in
  let '(_, r3, u3) := MT_StreamReader.get_edge [] s2 r2 in
  check_block_eof s2 = true
  ∧ u2 = Returned (ins 1 2)
  ∧ MT_StreamReader.buf_pos r1 = 9 ∧ MT_StreamReader.buf_pos r2 = 18
  ∧ u3 = Returned MT_StreamReader.breakpoint
  ∧ MT_StreamReader.data_in_buf r2 = 18 ∧ MT_StreamReader.data_in_buf r3 = 0.
Proof. vm_compute. repeat split. Qed.

End BlockFetchCases.

(** ** The constructors *)

Section Constructors.

Lemma BinaryGraphStream_new_not_opened io1 io2 io3 b mem rn re :
  BinaryGraphStream.new None io1 io2 io3 b mem rn re = Raised BadStreamException.
Proof. reflexivity. Qed.

Lemma BinaryGraphStream_MT_new_not_opened k1 k2 b :
  BinaryGraphStream_MT.new BinaryGraphStream_MT.OpenFailed k1 k2 b
  = Raised BadStreamException.
Proof. reflexivity. Qed.

(* the multi-reader constructor checks both header reads *)
Lemma BinaryGraphStream_MT_new_short_header fd content k1 k2 b :
  (length content < 12)%nat →
  BinaryGraphStream_MT.new (BinaryGraphStream_MT.Opened fd content) k1 k2 b
  = Raised BadStreamException.
Proof.
  intros Hlen. unfold BinaryGraphStream_MT.new. simpl.
  destruct (fd =? 0)%Z; [done|].
  destruct (pread content k1 4 0) as [nb|] eqn:E1; [|done].
  destruct (length nb =? 4)%nat eqn:L1; [|done]. simpl.
  destruct (pread content k2 8 4) as [eb|] eqn:E2; [|done].
  destruct (length eb =? 8)%nat eqn:L2; [|done]. simpl.
  apply Nat.eqb_eq in L2.
  assert (length eb ≤ length content - 4)%nat; [|lia].
  destruct k2; simplify_eq/=; unfold slice;
    rewrite length_take, length_drop; lia.
Qed.

(** C8 (where the constructors part from it).  The single-reader constructor
    never looks at the result of its two header reads: on an existing file
    that ends inside the header it returns normally, and on a device error in
    the header it throws StreamFailed, not BadStream.  The multi-reader
    constructor throws BadStream on the same truncated file; its test
    [!stream_fd] does not see a failed open (-1) and rejects the valid
    descriptor 0 of a readable file. *)
Theorem constructors_on_bad_header :
  (∃ s, BinaryGraphStream.new (Some truncated_file) false false false 20
          sample_mem (le_encode 4 0) (le_encode 8 0) = Returned s)
  ∧ BinaryGraphStream.new (Some sample_file) true false false 20
          sample_mem (le_encode 4 0) (le_encode 8 0) = Raised StreamFailedException
  ∧ BinaryGraphStream_MT.new (BinaryGraphStream_MT.Opened 3 truncated_file)
          PreadFull PreadFull 20 = Raised BadStreamException
  ∧ BinaryGraphStream_MT.new (BinaryGraphStream_MT.Opened 0 sample_file)
          PreadFull PreadFull 20 = Raised BadStreamException
  ∧ BinaryGraphStream_MT.new (BinaryGraphStream_MT.Opened 3 sample_file)
          PreadFull PreadFull 20 = Returned (sample_stream 20).
Proof. split; [eexists|]; repeat split; vm_compute; reflexivity. Qed.

End Constructors.

(** ** Graph::update *)

Section GraphUpdate.
Import Graph DsuSpec.

Lemma get_parent_not_raised fuel par x e :
  (get_parent fuel par x).2 ≠ Raised e.
Proof.
  revert par x. induction fuel as [|fuel IH]; intros par x; simpl; [done|].
  destruct (par !! N.to_nat x) as [p|]; [|done].
  destruct (p =? x); [done|].
  destruct (par !! N.to_nat p) as [gp|]; [|done]. apply IH.
Qed.

Lemma find_both_not_raised lhs fuel par a b e :
  (find_both lhs fuel par a b).2 ≠ Raised e.
Proof.
  unfold find_both.
  destruct lhs.
  - destruct (get_parent fuel par a) as [p1 [ra|e1| |]] eqn:E1; simpl; try done.
    + destruct (get_parent fuel p1 b) as [p2 [rb|e2| |]] eqn:E2; simpl; try done.
      pose proof (get_parent_not_raised fuel p1 b e2) as H. by rewrite E2 in H.
    + pose proof (get_parent_not_raised fuel par a e1) as H. by rewrite E1 in H.
  - destruct (get_parent fuel par b) as [p1 [ra|e1| |]] eqn:E1; simpl; try done.
    + destruct (get_parent fuel p1 a) as [p2 [rb|e2| |]] eqn:E2; simpl; try done.
      pose proof (get_parent_not_raised fuel p1 a e2) as H. by rewrite E2 in H.
    + pose proof (get_parent_not_raised fuel par b e1) as H. by rewrite E1 in H.
Qed.

(* the union loop leaves the gutter, the lock flag and dsu_valid alone and
   throws nothing, however it ends *)
Lemma union_loop_frame lhs fuel cas g s d a b :
  let res := union_loop lhs fuel cas g s d a b in
  gts res.1 = gts g ∧ update_locked res.1 = update_locked g
  ∧ dsu_valid res.1 = dsu_valid g
  ∧ ∀ e, res.2 ≠ Raised e.
Proof.
  revert cas g a b. induction fuel as [|fuel IH]; intros cas g a b; [done|].
  cbn [union_loop].
  pose proof (find_both_not_raised lhs (S fuel) (parent g) a b) as Hnr.
  destruct (find_both lhs (S fuel) (parent g) a b) as [par [[ra rb]|e1| |]]; simpl in *;
    try done.
  2:{ by specialize (Hnr e1). }
  destruct (ra =? rb); [done|].
  destruct (size g !! N.to_nat ra) as [sa|]; [|done].
  destruct (size g !! N.to_nat rb) as [sb|]; [|done].
  destruct (sa <? sb).
  - unfold compare_exchange_weak. simpl.
    destruct (par !! N.to_nat ra) as [cur|]; [|done].
    destruct ((cur =? ra) && negb (hd false cas)); simpl.
    + repeat case_match; done.
    + apply (IH (tl cas) (set_parent par g)).
  - unfold compare_exchange_weak. simpl.
    destruct (par !! N.to_nat rb) as [cur|]; [|done].
    destruct ((cur =? rb) && negb (hd false cas)); simpl.
    + repeat case_match; done.
    + apply (IH (tl cas) (set_parent par g)).
Qed.

(** C7.  Graph::update throws UpdateLocked exactly when update_locked is set,
    and then the graph is as before the call; otherwise the gutter has
    received (u, v) and then (v, u), with the caller's thread id. *)
Theorem update_locked_iff eager lhs fuel cas g upd thr :
  let res := update eager lhs fuel cas g upd thr in
  (res.2 = Raised UpdateLockedException ↔ update_locked g = true)
  ∧ (update_locked g = true → res.1 = g)
  ∧ (update_locked g = false →
     gts res.1 = gts g ++ [(mkEdge (src (edge upd)) (dst (edge upd)), thr);
                           (mkEdge (dst (edge upd)) (src (edge upd)), thr)]).
Proof.
  unfold update. destruct (update_locked g) eqn:Hl; simpl.
  { split; [done|]. split; done. }
  set (g2 := gts_insert _ thr (gts_insert _ thr g)).
  assert (gts g2 = gts g ++ [(mkEdge (src (edge upd)) (dst (edge upd)), thr);
                             (mkEdge (dst (edge upd)) (src (edge upd)), thr)]) as Hg.
  { subst g2. simpl. by rewrite <- app_assoc. }
  destruct eager; simpl.
  - unfold eager_dsu_step. destruct (dsu_valid g2); [|done].
    destruct (spanning_forest g2 !! _) as [f|]; [|done].
    case_decide; [done|].
    match goal with |- context [union_loop ?l ?f ?c ?g ?s ?d ?a ?b] =>
      destruct (union_loop_frame l f c g s d a b) as (H1 & H2 & H3 & H4) end.
    split; [split; [intros Hr; by apply H4 in Hr|done]|]. split; [done|].
    intros _. by rewrite H1.
  - done.
Qed.

(** *** Path halving keeps the roots *)

Lemma root_of_unique par x r1 r2 :
  root_of par x r1 → root_of par x r2 → r1 = r2.
Proof.
  intros H1. revert r2. induction H1 as [x Hx|x p r Hx Hp _ IH]; intros r2 H2.
  - inversion H2; subst; [done|]. congruence.
  - inversion H2; subst; [congruence|].
    apply IH. congruence.
Qed.

Lemma root_of_is_root par x r : root_of par x r → par !! N.to_nat r = Some r.
Proof. induction 1; auto. Qed.

Lemma lookup_insert_N (par : list N) (x y v : N) :
  (N.to_nat x < length par)%nat →
  <[N.to_nat x := v]> par !! N.to_nat y
  = if decide (x = y) then Some v else par !! N.to_nat y.
Proof.
  intros Hx. case_decide as H.
  - subst. by apply list_lookup_insert_eq.
  - apply list_lookup_insert_ne. lia.
Qed.

(* one halving write parent[x] <- parent[parent[x]] keeps every root *)
Lemma halve_keeps_roots par x p gp :
  par !! N.to_nat x = Some p → p ≠ x → par !! N.to_nat p = Some gp → gp ≠ x →
  ∀ y r, root_of (<[N.to_nat x := gp]> par) y r ↔ root_of par y r.
Proof.
  intros Hx Hpx Hp Hgx y r.
  assert (N.to_nat x < length par)%nat as Hlen by by eapply lookup_lt_Some.
  split.
  - induction 1 as [y Hy|y q r Hy Hq _ IH].
    + rewrite lookup_insert_N in Hy by done. case_decide; simplify_eq.
      by apply root_self.
    + rewrite lookup_insert_N in Hy by done. case_decide; simplify_eq.
      * destruct (decide (q = p)) as [->|Hne].
        -- by eapply root_step.
        -- eapply root_step; [done..|]. by eapply root_step.
      * by eapply root_step.
  - induction 1 as [y Hy|y q r Hy Hq Hr IH].
    + apply root_self. rewrite lookup_insert_N by done.
      case_decide; [congruence|done].
    + destruct (decide (x = y)) as [->|Hne].
      * simplify_eq. inversion IH as [? Hq'|? q' ? Hq' Hne' Hr']; subst.
        -- rewrite lookup_insert_N in Hq' by done. case_decide; [congruence|].
           simplify_eq.
           eapply root_step; [by rewrite lookup_insert_N, decide_True|done..].
        -- rewrite lookup_insert_N in Hq' by done. case_decide; [congruence|].
           simplify_eq.
           eapply root_step; [by rewrite lookup_insert_N, decide_True|done..].
      * eapply root_step; [by rewrite lookup_insert_N, decide_False|done..].
Qed.

Lemma forest_halve par rank R x p gp :
  forest par rank R →
  par !! N.to_nat x = Some p → p ≠ x → par !! N.to_nat p = Some gp →
  forest (<[N.to_nat x := gp]> par) rank R ∧ gp ≠ x ∧ (rank x < rank gp)%nat.
Proof.
  intros Hf Hx Hpx Hp.
  destruct (Hf x p Hx) as (Hpl & Hrx & Hlt). specialize (Hlt Hpx).
  destruct (Hf p gp Hp) as (Hgl & Hrp & Hlt').
  assert (rank p ≤ rank gp)%nat as Hle.
  { destruct (decide (gp = p)) as [->|Hne]; [done|]. specialize (Hlt' Hne). lia. }
  assert (gp ≠ x) as Hgx by (intros ->; lia).
  split; [|split; [done|lia]].
  intros y q Hy. rewrite length_insert.
  assert (N.to_nat x < length par)%nat as Hlen by by eapply lookup_lt_Some.
  rewrite lookup_insert_N in Hy by done. case_decide; simplify_eq.
  - split; [done|]. split; [done|]. intros _. lia.
  - by apply Hf.
Qed.

Lemma get_parent_root fuel par x :
  par !! N.to_nat x = Some x → get_parent (S fuel) par x = (par, Returned x).
Proof. intros H. cbn [get_parent]. by rewrite H, N.eqb_refl. Qed.

Lemma get_parent_step fuel par x p gp :
  par !! N.to_nat x = Some p → p ≠ x → par !! N.to_nat p = Some gp →
  get_parent (S fuel) par x = get_parent fuel (<[N.to_nat x := gp]> par) gp.
Proof.
  intros Hx Hne Hp. cbn [get_parent]. rewrite Hx.
  destruct (N.eqb_spec p x); [done|]. by rewrite Hp.
Qed.

(* in a forest, with fuel beyond the rank bound, get_parent returns the root
   and leaves a forest with the same roots *)
Lemma get_parent_spec fuel par rank R x :
  forest par rank R → (N.to_nat x < length par)%nat → (R - rank x < fuel)%nat →
  ∃ par' r, get_parent fuel par x = (par', Returned r)
            ∧ root_of par x r
            ∧ forest par' rank R ∧ length par' = length par
            ∧ (∀ y r', root_of par' y r' ↔ root_of par y r').
Proof.
  revert par x. induction fuel as [|fuel IH]; intros par x Hf Hx Hfuel; [lia|].
  destruct (lookup_lt_is_Some_2 par (N.to_nat x) Hx) as [p Hp].
  destruct (decide (p = x)) as [->|Hne].
  { exists par, x. split; [by apply get_parent_root|].
    split; [by apply root_self|]. done. }
  destruct (Hf x p Hp) as (Hpl & Hrx & _).
  destruct (lookup_lt_is_Some_2 par (N.to_nat p) Hpl) as [gp Hgp].
  rewrite (get_parent_step fuel par x p gp) by done.
  destruct (forest_halve par rank R x p gp Hf Hp Hne Hgp) as (Hf' & Hgx & Hlt).
  destruct (Hf p gp Hgp) as (Hgl & _ & _).
  destruct (IH (<[N.to_nat x := gp]> par) gp Hf') as (par' & r & Hg & Hr & Hf'' & Hl & Heq).
  { by rewrite length_insert. }
  { destruct (lookup_lt_is_Some_2 par (N.to_nat gp) Hgl) as [ggp Hggp].
    destruct (Hf gp ggp Hggp) as (_ & Hrg & _). lia. }
  pose proof (halve_keeps_roots par x p gp Hp Hne Hgp Hgx) as Hh.
  exists par', r. split; [done|]. split; [|split; [done|split]].
  - apply Hh in Hr.
    destruct (decide (gp = p)) as [->|Hne'].
    + by eapply root_step.
    + eapply root_step; [done..|]. by eapply root_step.
  - by rewrite Hl, length_insert.
  - intros y r'. by rewrite Heq, Hh.
Qed.

End GraphUpdate.

(** *** The union loop (lines 141-150) *)

Section UnionLoop.
Import Graph DsuSpec.
Variable lhs : bool.

Lemma find_both_spec fuel par rank R a b :
  forest par rank R →
  (N.to_nat a < length par)%nat → (N.to_nat b < length par)%nat → (R < fuel)%nat →
  ∃ par' ra rb, find_both lhs fuel par a b = (par', Returned (ra, rb))
                ∧ root_of par a ra ∧ root_of par b rb
                ∧ forest par' rank R ∧ length par' = length par
                ∧ (∀ y r, root_of par' y r ↔ root_of par y r).
Proof.
  intros Hf Ha Hb Hfuel. unfold find_both. destruct lhs.
  - destruct (get_parent_spec fuel par rank R a Hf Ha) as (p1 & ra & E1 & Hra & Hf1 & Hl1 & Hq1);
      [lia|].
    rewrite E1.
    destruct (get_parent_spec fuel p1 rank R b Hf1) as (p2 & rb & E2 & Hrb & Hf2 & Hl2 & Hq2);
      [lia..|].
    rewrite E2. exists p2, ra, rb. split; [done|]. split; [done|].
    split; [by apply Hq1|]. split; [done|]. split; [congruence|].
    intros y r. by rewrite Hq2, Hq1.
  - destruct (get_parent_spec fuel par rank R b Hf Hb) as (p1 & rb & E1 & Hrb & Hf1 & Hl1 & Hq1);
      [lia|].
    rewrite E1.
    destruct (get_parent_spec fuel p1 rank R a Hf1) as (p2 & ra & E2 & Hra & Hf2 & Hl2 & Hq2);
      [lia..|].
    rewrite E2. exists p2, ra, rb. split; [done|]. split; [by apply Hq1|].
    split; [done|]. split; [done|]. split; [congruence|].
    intros y r. by rewrite Hq2, Hq1.
Qed.

Lemma find_both_roots fuel par a b :
  par !! N.to_nat a = Some a → par !! N.to_nat b = Some b →
  find_both lhs (S fuel) par a b = (par, Returned (a, b)).
Proof.
  intros Ha Hb. unfold find_both.
  destruct lhs; rewrite get_parent_root by done; cbn beta iota;
    rewrite get_parent_root by done; reflexivity.
Qed.

(* One turn of the loop from distinct roots [ra], [rb]: the root of the
   larger tree wins; the compare-exchange links the other below it or,
   failing, the loop is entered again from the two roots. *)
Lemma union_loop_turn fuel cas g src_ dst_ a b par ra rb sa sb f :
  find_both lhs (S fuel) (parent g) a b = (par, Returned (ra, rb)) →
  ra ≠ rb →
  size g !! N.to_nat ra = Some sa → size g !! N.to_nat rb = Some sb →
  par !! N.to_nat ra = Some ra → par !! N.to_nat rb = Some rb →
  spanning_forest g !! N.to_nat src_ = Some f →
  let '(w, l, sw, sl) := if sa <? sb then (rb, ra, sb, sa) else (ra, rb, sa, sb) in
  sl <= sw
  ∧ union_loop lhs (S fuel) cas g src_ dst_ a b
    = if hd false cas
      then union_loop lhs fuel (tl cas) (set_parent par g) src_ dst_ w l
      else (linked g par w l sw sl src_ dst_ f, Returned tt).
Proof.
  intros Hfb Hne Hsa Hsb Hra Hrb Hf.
  cbn [union_loop]. rewrite Hfb. cbn zeta beta iota.
  destruct (N.eqb_spec ra rb); [done|].
  cbn [size parent spanning_forest set_parent set_size set_spanning_forest].
  rewrite Hsa, Hsb.
  destruct (N.ltb_spec sa sb) as [Hlt|Hge].
  - split; [lia|]. cbn beta iota zeta. unfold compare_exchange_weak.
    cbn [size parent spanning_forest set_parent set_size set_spanning_forest].
    rewrite Hra, N.eqb_refl.
    destruct (hd false cas); cbn [andb negb]; [done|].
    cbn [size parent spanning_forest set_parent set_size set_spanning_forest].
    rewrite Hsa, Hsb, Hf. reflexivity.
  - split; [lia|]. cbn beta iota zeta. unfold compare_exchange_weak.
    cbn [size parent spanning_forest set_parent set_size set_spanning_forest].
    rewrite Hrb, N.eqb_refl.
    destruct (hd false cas); cbn [andb negb]; [done|].
    cbn [size parent spanning_forest set_parent set_size set_spanning_forest].
    rewrite Hsa, Hsb, Hf. reflexivity.
Qed.

(* from two distinct roots the loop links them, however often the weak
   compare-exchange fails spuriously before *)
Lemma union_loop_roots cas : ∀ fuel g src_ dst_ ra rb w l sw sl f,
  parent g !! N.to_nat ra = Some ra → parent g !! N.to_nat rb = Some rb →
  ra ≠ rb →
  by_size (size g) ra rb = Some (w, l, sw, sl) →
  spanning_forest g !! N.to_nat src_ = Some f →
  (length cas < fuel)%nat →
  union_loop lhs fuel cas g src_ dst_ ra rb
  = (linked g (parent g) w l sw sl src_ dst_ f, Returned tt).
Proof.
  induction cas as [|c cas IH]; intros fuel g src_ dst_ ra rb w l sw sl f
    Hra Hrb Hne Hby Hf Hfuel;
    (destruct fuel as [|fuel]; [simpl in Hfuel; lia|]);
    unfold by_size in Hby;
    destruct (size g !! N.to_nat ra) as [sa|] eqn:Hsa; try done;
    destruct (size g !! N.to_nat rb) as [sb|] eqn:Hsb; try done.
  - pose proof (union_loop_turn fuel [] g src_ dst_ ra rb (parent g) ra rb sa sb f
                  (find_both_roots fuel _ _ _ Hra Hrb) Hne Hsa Hsb Hra Hrb Hf) as Ht.
    destruct (sa <? sb); simplify_eq; by destruct Ht as [_ ->].
  - pose proof (union_loop_turn fuel (c :: cas) g src_ dst_ ra rb (parent g) ra rb
                  sa sb f
                  (find_both_roots fuel _ _ _ Hra Hrb) Hne Hsa Hsb Hra Hrb Hf) as Ht.
    destruct c.
    + assert (set_parent (parent g) g = g) as Hid by by destruct g.
      destruct (N.ltb_spec sa sb); simplify_eq; destruct Ht as [Hle ->]; simpl;
        rewrite Hid; apply IH; try done; try (simpl in Hfuel; lia).
      * unfold by_size. rewrite Hsa, Hsb.
        destruct (N.ltb_spec sw sl); [lia|done].
      * unfold by_size. rewrite Hsa, Hsb.
        destruct (N.ltb_spec sw sl); [lia|done].
    + destruct (sa <? sb); simplify_eq; by destruct Ht as [_ ->].
Qed.

(* the union loop from the two endpoints of an edge *)
Lemma union_loop_spec fuel cas g src_ dst_ rank R f :
  dsu_wf g rank R →
  spanning_forest g !! N.to_nat src_ = Some f →
  (N.to_nat dst_ < length (parent g))%nat →
  (R < fuel)%nat → (length cas < fuel)%nat →
  ∃ par ra rb,
    root_of (parent g) src_ ra ∧ root_of (parent g) dst_ rb
    ∧ (∀ y r, root_of par y r ↔ root_of (parent g) y r)
    ∧ if decide (ra = rb)
      then union_loop lhs fuel cas g src_ dst_ src_ dst_ = (set_parent par g, Returned tt)
      else ∃ w l sw sl,
          by_size (size g) ra rb = Some (w, l, sw, sl) ∧ sl <= sw
          ∧ union_loop lhs fuel cas g src_ dst_ src_ dst_
            = (linked g par w l sw sl src_ dst_ f, Returned tt).
Proof.
  intros [Hf Hsz Hsf] Hlook Hd HR Hcas.
  assert (N.to_nat src_ < length (parent g))%nat as Hs.
  { rewrite <- Hsf. by eapply lookup_lt_Some. }
  destruct fuel as [|fuel]; [lia|].
  destruct (find_both_spec (S fuel) (parent g) rank R src_ dst_ Hf Hs Hd HR)
    as (par & ra & rb & Hfb & Hra & Hrb & Hf' & Hlen & Heq).
  exists par, ra, rb. split; [done|]. split; [done|]. split; [done|].
  case_decide as Hab.
  - subst rb. cbn [union_loop]. rewrite Hfb. cbn zeta beta iota.
    by rewrite N.eqb_refl.
  - assert (par !! N.to_nat ra = Some ra) as Hpa.
    { eapply root_of_is_root. by apply Heq. }
    assert (par !! N.to_nat rb = Some rb) as Hpb.
    { eapply root_of_is_root. by apply Heq. }
    destruct (lookup_lt_is_Some_2 (size g) (N.to_nat ra)) as [sa Hsa].
    { rewrite Hsz, <- Hlen. by eapply lookup_lt_Some. }
    destruct (lookup_lt_is_Some_2 (size g) (N.to_nat rb)) as [sb Hsb].
    { rewrite Hsz, <- Hlen. by eapply lookup_lt_Some. }
    pose proof (union_loop_turn fuel cas g src_ dst_ src_ dst_ par ra rb sa sb f
                  Hfb Hab Hsa Hsb Hpa Hpb Hlook) as Ht.
    unfold by_size. rewrite Hsa, Hsb.
    destruct (N.ltb_spec sa sb) as [Hlt|Hge]; destruct Ht as [Hle Ht];
      eexists _, _, _, _; (split; [done|]); (split; [done|]); rewrite Ht;
      (destruct cas as [|[] cas]; [done| |done]); cbn [hd tl].
    + rewrite (union_loop_roots cas fuel (set_parent par g) src_ dst_ rb ra
                 rb ra sb sa f); try done; [|simpl in Hcas; lia].
      unfold by_size. cbn. rewrite Hsa, Hsb.
      by destruct (N.ltb_spec sb sa); [lia|].
    + rewrite (union_loop_roots cas fuel (set_parent par g) src_ dst_ ra rb
                 ra rb sa sb f); try done; [|simpl in Hcas; lia].
      unfold by_size. cbn. rewrite Hsa, Hsb.
      by destruct (N.ltb_spec sa sb); [lia|].
Qed.

(* update in eager mode, unlocked: the two gutter calls, then the DSU block *)
Lemma update_eager_unfold fuel cas g upd thr :
  update_locked g = false →
  update true lhs fuel cas g upd thr
  = eager_dsu_step lhs fuel cas
      (gts_insert (mkEdge (dst (edge upd)) (src (edge upd))) thr
         (gts_insert (mkEdge (src (edge upd)) (dst (edge upd))) thr g))
      (mkEdge (dst (edge upd)) (src (edge upd))).
Proof. intros Hl. unfold update. by rewrite Hl. Qed.

(* eager mode with dsu_valid set: the call returns on a well-formed forest *)
Lemma eager_update_returns fuel cas g upd thr rank R f :
  let src_ := N.min (src (edge upd)) (dst (edge upd)) in
  let dst_ := N.max (src (edge upd)) (dst (edge upd)) in
  update_locked g = false → dsu_valid g = true →
  spanning_forest g !! N.to_nat src_ = Some f →
  dsu_wf g rank R → (N.to_nat dst_ < length (parent g))%nat →
  (R < fuel)%nat → (length cas < fuel)%nat →
  (update true lhs fuel cas g upd thr).2 = Returned tt.
Proof.
  intros src_ dst_ Hl Hv Hf Hwf Hd HR Hcas.
  rewrite update_eager_unfold by done.
  unfold eager_dsu_step. cbn [src dst].
  rewrite (N.min_comm (dst (edge upd))), (N.max_comm (dst (edge upd))).
  fold src_ dst_. cbn [dsu_valid spanning_forest gts_insert]. rewrite Hv, Hf.
  case_decide; [done|].
  set (g0 := gts_insert _ thr (gts_insert _ thr g)).
  assert (dsu_wf g0 rank R) as Hwf0 by (destruct Hwf; by constructor).
  destruct (union_loop_spec fuel cas g0 src_ dst_ rank R f Hwf0 Hf Hd HR Hcas)
    as (par & ra & rb & _ & _ & _ & Hu).
  case_decide.
  - by rewrite Hu.
  - destruct Hu as (w & l & sw & sl & _ & _ & ->). reflexivity.
Qed.


End UnionLoop.

Section EagerCases.
Import Graph DsuSpec.

Lemma sample_graph_wf : dsu_wf sample_graph (fun _ => 0%nat) 0.
Proof.
  constructor; [|done..].
  intros x p Hx.
  assert (p = x) as ->.
  { change (parent sample_graph) with [0; 1; 2; 3] in Hx.
    destruct (N.to_nat x) as [|[|[|[|n]]]] eqn:E; simplify_eq/=; lia. }
  apply lookup_lt_Some in Hx. split; [done|]. split; [done|]. done.
Qed.


(** C6 (amended).  Without USE_EAGER_DSU every update, of either kind, leaves
    dsu_valid false.  With it, update does not look at the kind of the update:
    a Delete is processed as an Insert is, and after the call dsu_valid holds
    exactly when it held before and max(u, v) is not in
    spanning_forest[min(u, v)]; on a well-formed forest the call returns. *)
Theorem update_dsu_valid_after eager lhs fuel cas g upd thr :
  update_locked g = false →
  let res := update eager lhs fuel cas g upd thr in
  let src_ := N.min (src (edge upd)) (dst (edge upd)) in
  let dst_ := N.max (src (edge upd)) (dst (edge upd)) in
  (eager = false → dsu_valid res.1 = false ∧ res.2 = Returned tt)
  ∧ (eager = true → ∀ f, spanning_forest g !! N.to_nat src_ = Some f →
       dsu_valid res.1 = dsu_valid g && bool_decide (dst_ ∉ f))
  ∧ update eager lhs fuel cas g (mkUpd (edge upd) DELETE) thr
    = update eager lhs fuel cas g (mkUpd (edge upd) INSERT) thr
  ∧ (eager = true → ∀ rank R f,
       dsu_wf g rank R → spanning_forest g !! N.to_nat src_ = Some f →
       (N.to_nat dst_ < length (parent g))%nat →
       (R < fuel)%nat → (length cas < fuel)%nat →
       res.2 = Returned tt).
Proof.
  intros Hl res src_ dst_. subst res.
  split; [|split; [|split]].
  - intros ->. unfold update. by rewrite Hl.
  - intros -> f Hf. rewrite update_eager_unfold by done.
    unfold eager_dsu_step. cbn [src dst].
    rewrite (N.min_comm (dst (edge upd))), (N.max_comm (dst (edge upd))).
    fold src_ dst_. cbn [dsu_valid spanning_forest gts_insert]. rewrite Hf.
    destruct (dsu_valid g) eqn:Hv; [|done].
    case_decide as Hin.
    + rewrite bool_decide_false by auto. done.
    + rewrite bool_decide_true by done.
      match goal with |- context [union_loop ?l ?f ?c ?g ?s ?d ?a ?b] =>
        destruct (union_loop_frame l f c g s d a b) as (_ & _ & -> & _) end.
      done.
  - reflexivity.
  - intros -> rank R f Hwf Hf Hd HR Hcas.
    destruct (dsu_valid g) eqn:Hv.
    + exact (eager_update_returns lhs fuel cas g upd thr rank R f Hl Hv Hf Hwf Hd HR Hcas).
    + rewrite update_eager_unfold by done. unfold eager_dsu_step.
      cbn [dsu_valid gts_insert]. by rewrite Hv.
Qed.

End EagerCases.

Section DeletionCases.
Import Graph.

Lemma update_dsu_valid_after_witness :
  update_locked sample_graph = false
  ∧ dsu_valid (update false true 0 [] sample_graph (del 0 1) 0%Z).1 = false.
Proof.
  split; [reflexivity|].
  exact (proj1 (proj1 (update_dsu_valid_after false true 0%nat [] sample_graph
                         (del 0 1) 0%Z eq_refl) eq_refl)).
Defined.

(* Eager mode: after the insertions of {0,1}, {1,2} and {0,2}, the deletion of
   {0,2}, an edge of the graph that is not in the spanning forest, returns and
   leaves dsu_valid set. *)
Lemma delete_keeps_dsu_valid :
  let g := sample_updates [ins 0 1; ins 1 2; ins 0 2] in
  let res := update true true 4 [] g (del 0 2) 0%Z in
  update_locked g = false ∧ dsu_valid g = true
  ∧ res.2 = Returned tt ∧ dsu_valid res.1 = true.
Proof. vm_compute. repeat split. Qed.

End DeletionCases.

(** ** Several readers: the invariant of the protocol *)

Section ReadersLists.
Import BinaryGraphStream_MT StreamSpec Readers ReadersSpec.

Lemma block_offsets_nil lo hi : hi <= lo → block_offsets lo hi = [].
Proof.
  intros H. unfold block_offsets. replace (hi - lo) with 0 by lia. reflexivity.
Qed.

Lemma block_offsets_app lo mid hi :
  lo <= mid → mid <= hi → (edge_size | mid - lo) → (edge_size | hi - mid) →
  block_offsets lo hi = block_offsets lo mid ++ block_offsets mid hi.
Proof.
  intros H1 H2 [a Ha] [b Hb]. unfold block_offsets.
  change edge_size with 9 in *.
  replace (hi - lo) with ((a + b) * 9) by lia.
  rewrite Ha, Hb, !N.div_mul by done.
  rewrite N2Nat.inj_add, seq_app, map_app. f_equal.
  replace (seq (0 + N.to_nat a) (N.to_nat b))
    with (Nat.add (N.to_nat a) <$> seq 0 (N.to_nat b))
    by (rewrite fmap_add_seq; f_equal; lia).
  change map with (@fmap list _).
  rewrite <- list_fmap_compose. apply list_fmap_ext. intros _ i _. simpl. lia.
Qed.

Lemma block_offsets_cons lo hi :
  lo < hi → (edge_size | hi - lo) →
  block_offsets lo hi = lo :: block_offsets (lo + edge_size) hi.
Proof.
  intros H [a Ha]. change edge_size with 9 in *.
  assert (1 <= a) by lia.
  rewrite (block_offsets_app lo (lo + 9) hi); try lia.
  - f_equal. unfold block_offsets. change edge_size with 9.
    replace (lo + 9 - lo) with (1 * 9) by lia.
    rewrite N.div_mul by done. simpl. f_equal. lia.
  - exists 1. change edge_size with 9. lia.
  - exists (a - 1). change edge_size with 9. lia.
Qed.

Lemma elem_of_block_offsets x lo hi :
  x ∈ block_offsets lo hi → lo <= x ∧ x + edge_size <= hi ∧ (edge_size | x - lo).
Proof.
  unfold block_offsets. intros (i & -> & Hi)%list_elem_of_fmap.
  apply elem_of_seq in Hi. change edge_size with 9 in *.
  pose proof (N.Div0.mul_div_le (hi - lo) 9).
  split; [lia|]. split; [nia|]. exists (N.of_nat i). lia.
Qed.

Lemma block_offsets_sorted lo hi : StronglySorted N.lt (block_offsets lo hi).
Proof.
  unfold block_offsets. generalize (N.to_nat ((hi - lo) / edge_size)) as n.
  intros n. generalize 0%nat as st. induction n as [|n IH]; intros st; simpl.
  - constructor.
  - constructor; [apply IH|].
    apply Forall_forall. intros x (i & -> & Hi)%list_elem_of_fmap.
    apply elem_of_seq in Hi. change edge_size with 9. lia.
Qed.

Lemma concat_map_insert {A B} (f : A → list B) (rs : list A) i r r' extra :
  rs !! i = Some r → f r' = f r ++ extra →
  concat (map f (<[i:=r']> rs)) ≡ₚ concat (map f rs) ++ extra.
Proof.
  intros Hi Hf.
  rewrite insert_take_drop by by eapply lookup_lt_Some.
  rewrite <- (take_drop_middle rs i r Hi) at 3.
  rewrite !map_app, !concat_app. simpl. rewrite Hf.
  rewrite <- !app_assoc. f_equiv. f_equiv. apply Permutation_app_comm.
Qed.

Lemma slack_cons r rs : slack (r :: rs) = slack_of r + slack rs.
Proof.
  unfold slack, slack_of. rewrite filter_cons.
  case_decide as H; [rewrite H; simpl; lia|].
  destruct (before_fetch r); [lia|done].
Qed.

Lemma slack_app rs1 rs2 : slack (rs1 ++ rs2) = slack rs1 + slack rs2.
Proof. unfold slack. rewrite filter_app, length_app. lia. Qed.

Lemma slack_insert rs i r r' :
  rs !! i = Some r →
  slack (<[i:=r']> rs) + slack_of r = slack rs + slack_of r'.
Proof.
  intros Hi.
  rewrite insert_take_drop by by eapply lookup_lt_Some.
  rewrite <- (take_drop_middle rs i r Hi) at 3.
  rewrite !slack_app, !slack_cons. lia.
Qed.

Lemma slack_le rs : slack rs <= N.of_nat (length rs).
Proof. unfold slack. pose proof (length_filter (fun r => before_fetch r = false) rs). lia. Qed.

End ReadersLists.

Section InvariantProofs.
Import BinaryGraphStream_MT StreamSpec Readers ReadersSpec.
Variable s0 : BinaryGraphStream_MT.t.
Variable k : nat.

Abbreviation BS := (buf_size s0).
Abbreviation EOF := (end_of_file s0).
Abbreviation QI := (query_index s0).
Abbreviation LIM := (limit s0).
Abbreviation START := (stream_off s0).
Abbreviation file := (stream_file s0).

Hypothesis Hsane : sane s0.
Hypothesis Hqb : query_block s0 = false.
Hypothesis Hbs9 : (edge_size | BS).
Hypothesis Hstart : START <= LIM.
Hypothesis Halign : (edge_size | LIM - START).
Hypothesis Hwrap : EOF + (N.of_nat k + 1) * BS < 2 ^ 64.

Lemma clamped_amount_limit ro :
  ro < QI → ro < EOF → clamped_amount s0 ro = N.min (ro + BS) LIM - ro.
Proof.
  intros H1 H2. unfold clamped_amount, query_in_block, limit.
  repeat case_decide; lia.
Qed.

Lemma block_end_aligned ro :
  ro < LIM → START <= ro → (edge_size | ro - START) →
  (edge_size | N.min (ro + BS) LIM - ro).
Proof.
  intros H1 H2 [a Ha]. destruct Hbs9 as [b Hb]. destruct Halign as [c Hc].
  change edge_size with 9 in *.
  destruct (N.min_spec (ro + BS) LIM) as [[_ ->]|[_ ->]].
  - exists b. lia.
  - exists (c - a). lia.
Qed.

Lemma divide_lt_step a b :
  (edge_size | a) → (edge_size | b) → a < b → a + edge_size <= b.
Proof. intros [x ->] [y ->]. change edge_size with 9. lia. Qed.

Lemma reader_step_trans os s r so :
  s = set_stream_off so s0 → so + BS < 2 ^ 64 →
  reader_inv s0 so r →
  ∃ so' r', reader_step (PreadFull :: os) s r = (set_stream_off so' s0, r')
            ∧ trans s0 so r so' r'.
Proof.
  intros -> Hw Hr. destruct Hsane as [[Hb1 Hb2] Hfl Hnw Hq].
  destruct r as [[mem pos dib] pc boff lg]. unfold reader_step.
  destruct Hr as [Hpc Hpos Hdib Hmem Hend Hlog Hstop Hexh Hfetch Hsort].
  simpl in *. destruct pc as [| | |ro|]; [| | | |done].
  - unfold MT_StreamReader.exhausted. simpl.
    destruct (N.leb_spec dib pos) as [Hex|Hex].
    + unfold check_block_eof. simpl. rewrite Hqb. simpl.
      destruct (N.leb_spec EOF so) as [He|He].
      * eexists so, _. split; [reflexivity|].
        apply (T_stop s0 so (mk_reader (MT_StreamReader.mk mem pos dib) Idle boff lg));
          [left; done|done].
      * eexists so, _. split; [reflexivity|].
        by apply (T_check1 s0 so (mk_reader (MT_StreamReader.mk mem pos dib) Idle boff lg)).
    + pose proof (divide_lt_step _ _ Hpos Hdib Hex) as Hp9.
      destruct Hend as [->|Hend]; [lia|].
      destruct (record_at_Some file (boff + pos)) as [u Hu]; [lia|].
      unfold MT_StreamReader.take_record. simpl.
      rewrite Hmem, Hu by done. simpl.
      eexists so, _. split; [reflexivity|].
      by apply (T_take s0 so (mk_reader (MT_StreamReader.mk mem pos dib) Idle boff lg)).
  - unfold check_query. simpl.
    destruct (N.leb_spec QI so) as [He|He].
    + eexists so, _. split; [reflexivity|].
      apply (T_stop s0 so (mk_reader (MT_StreamReader.mk mem pos dib) AfterEofCheck boff lg));
        [right; left; done|by apply Hexh].
    + eexists so, _. split; [reflexivity|].
      by apply (T_check2 s0 so (mk_reader (MT_StreamReader.mk mem pos dib)
                                       AfterEofCheck boff lg)).
  - simpl. rewrite add64_small by done.
    eexists (so + BS), _. split; [reflexivity|].
    by apply (T_fetch s0 so (mk_reader (MT_StreamReader.mk mem pos dib)
                                    BeforeFetchAdd boff lg)).
  - destruct (N.leb_spec QI ro) as [Hqr|Hqr].
    { unfold read_data_at. simpl.
      destruct (N.leb_spec QI ro); [|lia]. simpl.
      eexists QI, _. split; [reflexivity|].
      by apply (T_clamp s0 so (mk_reader (MT_StreamReader.mk mem pos dib)
                                      (AfterFetchAdd ro) boff lg) ro). }
    destruct (N.leb_spec EOF ro) as [Her|Her].
    { unfold read_data_at. simpl.
      destruct (N.leb_spec QI ro); [lia|].
      destruct (N.leb_spec EOF ro); [|lia]. simpl.
      eexists so, _. split; [reflexivity|].
      apply (T_stop s0 so (mk_reader (MT_StreamReader.mk mem pos dib)
                                  (AfterFetchAdd ro) boff lg));
        [right; right; exists ro; split; [done|lia]|by apply Hexh]. }
    assert (sane (set_stream_off so s0)) as Hs1 by by constructor.
    rewrite (read_data_at_full os (set_stream_off so s0) ro mem Hs1) by done.
    change (clamped_amount (set_stream_off so s0) ro) with (clamped_amount s0 ro).
    change (query_in_block (set_stream_off so s0) ro) with (query_in_block s0 ro).
    destruct (data_to_read_clamped s0 ro) as (_ & Hpos' & Hle & Hend' & _); [done..|].
    assert (edge_size <= clamped_amount s0 ro) as Hc9.
    { destruct (Hfetch ro eq_refl) as [_ Hal]. unfold limit in Hal.
      destruct Hal as [Hal1 Hal2]; [lia|].
      pose proof (block_end_aligned ro) as Hba. unfold limit in Hba.
      rewrite clamped_amount_limit in * by done. unfold limit in *.
      destruct Hba as [x Hx]; [lia|done..|]. rewrite Hx in *.
      change edge_size with 9 in *. lia. }
    destruct (record_at_Some file ro) as [u Hu]; [lia|].
    unfold MT_StreamReader.after_read_data.
    destruct (N.eqb_spec (clamped_amount s0 ro) 0); [lia|].
    unfold MT_StreamReader.take_record. simpl.
    rewrite record_at_buf_store by lia. rewrite N.add_0_r, Hu. simpl.
    eexists (if decide (query_in_block s0 ro) then QI else so), _.
    split; [|by apply (T_read s0 so (mk_reader (MT_StreamReader.mk mem pos dib)
                                   (AfterFetchAdd ro) boff lg) ro u)].
    by destruct (decide (query_in_block s0 ro)).
Qed.


Lemma offsets_snoc_got lg off u : offsets (lg ++ [Got off u]) = offsets lg ++ [off].
Proof. unfold offsets. by rewrite omap_app. Qed.

Lemma offsets_snoc_stop lg : offsets (lg ++ [Stop]) = offsets lg.
Proof. unfold offsets. rewrite omap_app. simpl. by rewrite app_nil_r. Qed.

(* how a step moves stream_off *)
Lemma trans_so so r so' r' :
  trans s0 so r so' r' → reader_inv s0 so r →
  so' = so ∨ (so' = so + BS ∧ at_pc r = BeforeFetchAdd) ∨ (so' = QI ∧ QI <= so).
Proof.
  intros Ht Hr. destruct Ht; auto.
  - right; right. split; [done|].
    destruct (ri_fetch _ _ _ Hr ro) as [Hm _]; [done|]. lia.
  - case_decide as Hin; [|by left]. right; right. split; [done|].
    destruct Hin. destruct (ri_fetch _ _ _ Hr ro) as [Hm _]; [done|]. lia.
Qed.

Lemma limit_le_query : LIM <= QI.
Proof. unfold limit. lia. Qed.

Lemma limit_le_eof : LIM <= EOF.
Proof. unfold limit. lia. Qed.

(* a step adds to what the reader holds exactly the offsets by which the
   claimed part of the file grows *)
Lemma trans_owned so r so' r' :
  trans s0 so r so' r' → reader_inv s0 so r →
  owned s0 r' = owned s0 r ++ block_offsets (N.min so LIM) (N.min so' LIM).
Proof.
  intros Ht Hr. pose proof limit_le_query as HLQ. pose proof limit_le_eof as HLE.
  destruct Hr as [Hpc Hpos Hdib Hmem Hend Hlog Hstop Hexh Hfetch Hsort].
  destruct Ht as [u Hi Hlt Hu|Hc Hex|ro Hi Hq|Hi He Hex|Hi Hq|Hi|ro u Hi Hq He Hu];
    unfold owned, pending; simpl; rewrite ?Hi.
  - rewrite offsets_snoc_got, (block_offsets_nil (N.min so LIM)) by done.
    rewrite app_nil_r, <- app_assoc. f_equal. simpl.
    rewrite (block_offsets_cons (block_off r + MT_StreamReader.buf_pos (local r)));
      [|lia|].
    + do 2 f_equal. lia.
    + destruct Hpos as [a Ha]. destruct Hdib as [b Hb]. exists (b - a).
      change edge_size with 9 in *. lia.
  - rewrite offsets_snoc_stop, (block_offsets_nil (N.min so LIM)) by done.
    rewrite app_nil_r. f_equal.
    rewrite (block_offsets_nil (block_off r + _)) by lia.
    destruct Hc as [[-> _]|[[-> _]|(ro & -> & _ & He)]]; symmetry;
      apply block_offsets_nil; lia.
  - rewrite offsets_snoc_stop. destruct (Hfetch ro Hi) as [Hm _].
    rewrite (block_offsets_nil (N.min so LIM)) by lia.
    rewrite app_nil_r. f_equal.
    rewrite !block_offsets_nil by lia. done.
  - by rewrite (block_offsets_nil (N.min so LIM)), app_nil_r by done.
  - by rewrite (block_offsets_nil (N.min so LIM)), app_nil_r by done.
  - rewrite <- app_assoc. f_equal.
    rewrite (block_offsets_nil (block_off r + _)) by (apply N.add_le_mono_l, Hexh; by rewrite Hi).
    simpl. destruct (N.lt_ge_cases so LIM).
    + by rewrite (N.min_l so LIM) by lia.
    + by rewrite !block_offsets_nil by lia.
  - destruct (Hfetch ro Hi) as [Hm Hal]. destruct Hal as [Hal1 Hal2]; [unfold limit; lia|].
    assert (N.min (if decide (query_in_block s0 ro) then QI else so) LIM = N.min so LIM) as ->.
    { case_decide as Hin; [|done]. destruct Hin. lia. }
    rewrite (block_offsets_nil (N.min so LIM)), app_nil_r by done.
    rewrite offsets_snoc_got, <- app_assoc. f_equal. simpl.
    rewrite clamped_amount_limit by done.
    pose proof (block_end_aligned ro) as Hba.
    destruct Hsane as [[Hb1 Hb2] _ _ _].
    rewrite (block_offsets_cons ro); [|unfold limit; lia|].
    + do 2 f_equal. unfold limit. lia.
    + destruct Hba as [x Hx]; [unfold limit; lia|done..|]. exists x.
      change edge_size with 9 in *. lia.
Qed.


Lemma elem_of_got_snoc lg off u off' u' :
  Got off u ∈ lg ++ [Got off' u'] → Got off u ∈ lg ∨ (off = off' ∧ u = u').
Proof.
  intros [H|H]%elem_of_app; [by left|]. apply list_elem_of_singleton in H.
  right. by simplify_eq.
Qed.

Lemma elem_of_got_snoc_stop lg off u :
  Got off u ∈ lg ++ [Stop] → Got off u ∈ lg.
Proof.
  intros [H|H]%elem_of_app; [done|]. by apply list_elem_of_singleton in H.
Qed.

Lemma trans_reader_inv so r so' r' :
  trans s0 so r so' r' → reader_inv s0 so r →
  (∀ x, x ∈ owned s0 r → x < N.min so LIM) →
  (so < LIM → START <= so ∧ (edge_size | so - START)) →
  reader_inv s0 so' r'.
Proof.
  intros Ht Hr Hown Hal.
  pose proof (trans_owned so r so' r' Ht Hr) as Ho.
  assert (StronglySorted N.lt (owned s0 r')) as Hsorted.
  { rewrite Ho. apply StronglySorted_app_2;
      [|by destruct Hr|apply block_offsets_sorted].
    intros x y Hx Hy. apply Hown in Hx.
    apply elem_of_block_offsets in Hy. lia. }
  clear Ho Hown.
  pose proof limit_le_query as HLQ. pose proof limit_le_eof as HLE.
  destruct Hsane as [[Hb1 Hb2] Hfl Hnw Hqi].
  destruct Hr as [Hpc Hpos Hdib Hmem Hend Hlog Hstop Hexh Hfetch _].
  destruct Ht as [u Hi Hlt Hu|Hc Hex|ro Hi Hq|Hi He Hex|Hi Hq|Hi|ro u Hi Hq He Hu];
    constructor; simpl; try done.
  - destruct Hpos as [a ->]. exists (a + 1). change edge_size with 9. lia.
  - intros off v [H|[-> ->]]%elem_of_got_snoc; [by eapply Hlog|done].
  - by rewrite last_snoc.
  - exists 0. lia.
  - intros p Hp. change edge_size with 9 in Hp. lia.
  - by left.
  - intros off v H%elem_of_got_snoc_stop. by eapply Hlog.
  - exists 0. lia.
  - intros p Hp. change edge_size with 9 in Hp. lia.
  - by left.
  - intros off v H%elem_of_got_snoc_stop. by eapply Hlog.
  - intros _. apply Hexh. by rewrite Hi.
  - intros _. apply Hexh. by rewrite Hi.
  - intros ro [= <-]. split; [lia|done].
  - destruct (Hfetch ro Hi) as [_ [Hal1 Hal2]]; [unfold limit; lia|].
    rewrite clamped_amount_limit by done.
    by apply block_end_aligned; [unfold limit; lia|..].
  - intros p Hp. apply record_at_buf_store; [|done].
    destruct (data_to_read_clamped s0 ro) as (_ & _ & _ & Hend' & _); [done..|]. lia.
  - right. destruct (data_to_read_clamped s0 ro) as (_ & _ & _ & Hend' & _); [done..|]. lia.
  - intros off v [H|[-> ->]]%elem_of_got_snoc; [by eapply Hlog|done].
  - by rewrite last_snoc.
Qed.


Lemma reader_inv_mono so so' r :
  so <= so' ∨ so' = QI → reader_inv s0 so r → reader_inv s0 so' r.
Proof.
  intros Hso [Hpc Hpos Hdib Hmem Hend Hlog Hstop Hexh Hfetch Hsort].
  constructor; try done.
  intros ro Hro. destruct (Hfetch ro Hro) as [Hm Hal]. split; [lia|done].
Qed.

Lemma inv_owned_lt sys r x :
  inv s0 k sys → r ∈ readers sys → x ∈ owned s0 r →
  x < N.min (stream_off (stream sys)) LIM.
Proof.
  intros Hinv Hr Hx.
  assert (x ∈ concat (map (owned s0) (readers sys))) as Hc.
  { apply list_elem_of_In, in_concat. exists (owned s0 r).
    split; [apply in_map|]; by apply list_elem_of_In. }
  rewrite (gi_perm _ _ _ Hinv) in Hc. apply elem_of_block_offsets in Hc.
  change edge_size with 9 in Hc. lia.
Qed.

Lemma inv_no_wrap sys : inv s0 k sys → stream_off (stream sys) + BS < 2 ^ 64.
Proof.
  intros Hinv. pose proof (gi_slack _ _ _ Hinv) as Hs.
  pose proof (slack_le (readers sys)) as Hl. rewrite (gi_len _ _ _ Hinv) in Hl.
  assert (slack (readers sys) * BS <= N.of_nat k * BS) by by apply N.mul_le_mono_r.
  rewrite N.mul_add_distr_r in Hwrap. lia.
Qed.


Lemma trans_stop so r so' r' :
  trans s0 so r so' r' → reader_inv s0 so r → Stop ∈ log r' → Stop ∈ log r ∨ LIM <= so'.
Proof.
  intros Ht Hr. pose proof limit_le_query as HLQ. pose proof limit_le_eof as HLE.
  destruct Hsane as [[Hb1 Hb2] _ _ _].
  destruct Ht as [u Hi Hlt Hu|Hc Hex|ro Hi Hq|Hi He Hex|Hi Hq|Hi|ro u Hi Hq He Hu];
    simpl; auto.
  - intros [H|H]%elem_of_app; [by left|]. by apply list_elem_of_singleton in H.
  - intros _. right. destruct Hc as [[_ ?]|[[_ ?]|(ro & Hi & ? & ?)]]; [lia|lia|].
    destruct (ri_fetch _ _ _ Hr ro Hi) as [Hm _]. lia.
  - intros [H|H]%elem_of_app; [by left|]. by apply list_elem_of_singleton in H.
Qed.

Lemma trans_clamps so r so' r' ro :
  trans s0 so r so' r' → at_pc r = AfterFetchAdd ro → QI < ro + BS → QI <= EOF →
  so' = QI.
Proof.
  intros Ht Hpc Hq He.
  destruct Ht as [u Hi Hlt Hu|Hc Hex|ro' Hi Hq'|Hi He' Hex|Hi Hq'|Hi|ro' u Hi Hq' He' Hu];
    try congruence.
  - destruct Hc as [[? _]|[[? _]|(ro' & Hi & ? & ?)]]; try congruence.
    rewrite Hpc in Hi. injection Hi as <-. lia.
  - rewrite Hpc in Hi. injection Hi as <-. rewrite decide_True; [done|]. split; lia.
Qed.

Lemma trans_fetches so r so' r' :
  trans s0 so r so' r' → at_pc r = BeforeFetchAdd → at_pc r' = AfterFetchAdd so.
Proof.
  intros Ht Hpc.
  destruct Ht as [u Hi Hlt Hu|Hc Hex|ro' Hi Hq'|Hi He' Hex|Hi Hq'|Hi|ro' u Hi Hq' He' Hu];
    try congruence.
  - destruct Hc as [[? _]|[[? _]|(ro' & Hi & ? & ?)]]; congruence.
  - done.
Qed.

Lemma trans_slack so r so' r' (sl sl' : N) :
  trans s0 so r so' r' → reader_inv s0 so r →
  sl' + slack_of r = sl + slack_of r' →
  so <= EOF + sl * BS → so' <= EOF + sl' * BS.
Proof.
  intros Ht Hr Hsl Hso. pose proof (trans_so _ _ _ _ Ht Hr) as Hcases.
  unfold slack_of, before_fetch in Hsl.
  destruct Ht as [u Hi Hlt Hu|Hc Hex|ro' Hi Hq'|Hi He' Hex|Hi Hq'|Hi|ro' u Hi Hq' He' Hu];
    simpl in Hsl; rewrite ?Hi in Hsl.
  - assert (sl' = sl) as -> by lia. done.
  - destruct Hc as [[Hi _]|[[Hi _]|(ro' & Hi & _)]]; rewrite Hi in Hsl; nia.
  - assert (sl' = sl) as -> by lia.
    destruct Hcases as [?|[[? ?]|[? ?]]]; [lia|congruence|lia].
  - nia.
  - assert (sl' = sl) as -> by lia. done.
  - nia.
  - assert (sl' = sl) as -> by lia.
    destruct Hcases as [?|[[? ?]|[? ?]]]; [lia|congruence|lia].
Qed.

Lemma aligned_min so :
  (so < LIM → START <= so ∧ (edge_size | so - START)) →
  START <= N.min so LIM ∧ (edge_size | N.min so LIM - START).
Proof.
  intros H. destruct (N.lt_ge_cases so LIM) as [Hlt|Hge].
  - rewrite N.min_l by lia. by apply H.
  - rewrite N.min_r by lia. done.
Qed.

Lemma divide_sub a b c :
  c <= a → a <= b → (edge_size | a - c) → (edge_size | b - c) → (edge_size | b - a).
Proof.
  intros H1 H2 [x Hx] [y Hy]. exists (y - x). change edge_size with 9 in *. lia.
Qed.

(** every step of a reader keeps the invariant *)
Lemma inv_step sys c : inv s0 k sys → full_read c → inv s0 k (step sys c).
Proof.
  intros Hinv Hfull.
  assert (∃ os, c.2 = PreadFull :: os) as [os Hos].
  { unfold full_read in Hfull. destruct (c.2) as [|[] os]; try done. by exists os. }
  unfold step.
  destruct (readers sys !! c.1) as [r|] eqn:Hr; [|done].
  set (so := stream_off (stream sys)).
  assert (reader_inv s0 so r) as Hri.
  { eapply Forall_lookup_1; [apply (gi_readers _ _ _ Hinv)|done]. }
  pose proof (inv_no_wrap sys Hinv) as Hnw.
  destruct (reader_step_trans os (stream sys) r so (gi_static _ _ _ Hinv) Hnw Hri)
    as (so' & r' & Hstep & Ht).
  rewrite Hos, Hstep.
  pose proof limit_le_query as HLQ.
  pose proof (trans_so _ _ _ _ Ht Hri) as Hso.
  pose proof (trans_owned _ _ _ _ Ht Hri) as Hown.
  pose proof (gi_align _ _ _ Hinv) as Hal. fold so in Hal.
  assert (reader_inv s0 so' r') as Hri'.
  { eapply trans_reader_inv; [done..| |done].
    intros x Hx. eapply (inv_owned_lt sys r); [done| |done].
    by eapply list_elem_of_lookup_2. }
  assert (so <= so' ∨ so' = QI) as Hmono by lia.
  assert (so' < LIM → START <= so' ∧ (edge_size | so' - START)) as Hal'.
  { destruct Hso as [->|[[-> _]|[-> _]]]; [done| |lia].
    intros Hlt. destruct Hal as [Ha1 [x Hx]]; [lia|]. split; [lia|].
    destruct Hbs9 as [y Hy]. exists (x + y). change edge_size with 9 in *. lia. }
  constructor; simpl.
  - reflexivity.
  - rewrite length_insert. apply (gi_len _ _ _ Hinv).
  - apply Forall_insert; [|done].
    eapply Forall_impl; [apply (gi_readers _ _ _ Hinv)|].
    intros x Hx. by eapply reader_inv_mono.
  - rewrite (concat_map_insert _ _ _ _ _ _ Hr Hown), (gi_perm _ _ _ Hinv). fold so.
    destruct (aligned_min so Hal) as [Hs1 Hs2].
    destruct (aligned_min so' Hal') as [Hs1' Hs2'].
    assert (N.min so LIM <= N.min so' LIM) as Hle by lia.
    rewrite <- block_offsets_app; [done..|].
    by eapply divide_sub.
  - done.
  - eapply trans_slack; [done..| |apply (gi_slack _ _ _ Hinv)].
    by apply slack_insert.
  - intros (r0 & Hr0 & Hst).
    assert (∀ x, Stop ∈ log x → x ∈ readers sys → LIM <= so') as Hold.
    { intros x ? ?. pose proof (gi_stop _ _ _ Hinv) as Hs. fold so in Hs.
      assert (LIM <= so) by (apply Hs; eauto). lia. }
    apply list_elem_of_lookup in Hr0 as [j Hj].
    destruct (decide (j = c.1)) as [->|Hne].
    + rewrite list_lookup_insert_eq in Hj by by eapply lookup_lt_Some.
      simplify_eq.
      destruct (trans_stop _ _ _ _ Ht Hri Hst) as [Hs|Hs]; [|done].
      apply (Hold r); [done|by eapply list_elem_of_lookup_2].
    + rewrite list_lookup_insert_ne in Hj by done.
      apply (Hold r0); [done|by eapply list_elem_of_lookup_2].
  - intros Hqe Hqs.
    destruct Hso as [->|[[-> Hpc]|[-> _]]]; [| |lia].
    + destruct (gi_clamp _ _ _ Hinv Hqe Hqs) as (j & rj & ro & Hj & Hpc & Hro).
      destruct (decide (j = c.1)) as [->|Hne].
      * rewrite Hr in Hj. simplify_eq.
        pose proof (trans_clamps _ _ _ _ _ Ht Hpc Hro Hqe). subst so. lia.
      * exists j, rj, ro. by rewrite list_lookup_insert_ne.
    + exists c.1, r', so. rewrite list_lookup_insert_eq by by eapply lookup_lt_Some.
      split; [done|]. split; [by eapply trans_fetches|done].
Qed.

Lemma inv_run sched sys :
  inv s0 k sys → Forall full_read sched → inv s0 k (run sched sys).
Proof.
  revert sys. induction sched as [|c sched IH]; intros sys Hinv Hf; [done|].
  inversion Hf; subst. simpl. apply IH; [|done]. by apply inv_step.
Qed.

Lemma inv_init mems :
  length mems = k → inv s0 k (init s0 mems).
Proof.
  intros Hk. destruct Hsane as [[Hb1 Hb2] Hfl Hnw Hqi].
  pose proof limit_le_eof as HLE. pose proof limit_le_query as HLQ.
  assert (∀ so, Forall (reader_inv s0 so)
            (map (fun m => mk_reader (MT_StreamReader.new m) Idle 0 []) mems)) as Hrs.
  { intros so. apply Forall_forall. intros r (m & -> & _)%list_elem_of_fmap.
    constructor; simpl; try done.
    - exists 0. lia.
    - exists 0. lia.
    - intros p Hp. change edge_size with 9 in Hp. lia.
    - by left.
    - intros off u H. by apply elem_of_nil in H.
    - unfold owned, pending. simpl. rewrite block_offsets_nil by lia. constructor. }
  constructor; simpl.
  - by destruct s0.
  - by rewrite length_map.
  - apply Hrs.
  - rewrite N.min_l by done. rewrite (block_offsets_nil START START) by lia.
    clear Hrs Hk. induction mems as [|m mems IH]; [done|].
    rewrite !map_cons. cbn [concat]. by rewrite IH, app_nil_r.
  - intros _. split; [lia|]. exists 0. lia.
  - lia.
  - intros (r & (m & -> & _)%list_elem_of_fmap & H). simpl in H.
    by apply elem_of_nil in H.
  - lia.
Qed.

End InvariantProofs.

(** ** Runs of the readers *)

Section RunLemmas.
Import BinaryGraphStream_MT StreamSpec Readers ReadersSpec.

Lemma new_opened fd content k1 k2 b s :
  new (Opened fd content) k1 k2 b = Returned s →
  stream_file s = content ∧ stream_off s = header_size
  ∧ query_index s = UINT64_MAX ∧ query_block s = false
  ∧ buf_size s = b - b mod edge_size
  ∧ end_of_file s = add64 (wrap64 (num_edges s * edge_size)) header_size.
Proof.
  unfold new. repeat case_match; try done. by intros [= <-].
Qed.

Lemma concat_owned s rs :
  concat (map (owned s) rs)
  ≡ₚ concat (map (fun r => offsets (log r)) rs) ++ concat (map (pending s) rs).
Proof.
  induction rs as [|r rs IH]; [done|]. simpl. rewrite IH. unfold owned.
  rewrite <- !app_assoc. f_equiv.
  rewrite !app_assoc. f_equiv. apply Permutation_app_comm.
Qed.

Lemma updates_of_offsets file lg :
  (∀ off u, Got off u ∈ lg → record_at file off = Some u) →
  updates lg = omap (record_at file) (offsets lg).
Proof.
  induction lg as [|[off u|] lg IH]; intros H; simpl; [done| |].
  - rewrite (H off u) by left. f_equal. apply IH. intros ? ? ?. apply H. by right.
  - apply IH. intros ? ? ?. apply H. by right.
Qed.

Lemma omap_concat {A B} (f : A → option B) (ls : list (list A)) :
  omap f (concat ls) = concat (map (omap f) ls).
Proof.
  induction ls as [|l ls IH]; [done|]. simpl. by rewrite omap_app, IH.
Qed.


(* all readers at a breakpoint: nothing is in flight *)
Lemma quiescent_no_pending s0 k sys :
  inv s0 k sys → Forall at_breakpoint (readers sys) →
  concat (map (pending s0) (readers sys)) = [].
Proof.
  intros Hinv Hbp. pose proof (gi_readers _ _ _ Hinv) as Hrs.
  induction (readers sys) as [|r rs IH]; [done|].
  inversion Hbp as [|? ? [Hpc Hlast] Hbp']; subst.
  inversion Hrs as [|? ? Hr Hrs']; subst.
  simpl. rewrite IH by done. rewrite app_nil_r.
  unfold pending. rewrite Hpc. rewrite (ri_stop _ _ _ Hr Hlast).
  apply block_offsets_nil. lia.
Qed.

Lemma quiescent_limit s0 k sys :
  inv s0 k sys → (0 < k)%nat → Forall at_breakpoint (readers sys) →
  limit s0 <= stream_off (stream sys).
Proof.
  intros Hinv Hk Hbp. apply (gi_stop _ _ _ Hinv).
  pose proof (gi_len _ _ _ Hinv) as Hlen.
  destruct (readers sys) as [|r rs]; [simpl in Hlen; lia|].
  inversion Hbp as [|? ? [Hpc Hlast] _]; subst.
  exists r. split; [left|].
  destruct (log r) as [|e lg] using rev_ind; [done|].
  rewrite last_snoc in Hlast. simplify_eq. apply elem_of_app. right. left.
Qed.

Lemma block_size_aligned b :
  edge_size <= b →
  edge_size <= b - b mod edge_size ∧ b - b mod edge_size <= b
  ∧ (edge_size | b - b mod edge_size).
Proof.
  intros Hb. change edge_size with 9 in *.
  pose proof (N.div_mod b 9 ltac:(done)) as Hdm.
  pose proof (N.mod_upper_bound b 9 ltac:(done)) as Hm.
  pose proof (N.le_0_l (b mod 9)) as Hm0.
  remember (b mod 9) as m. remember (b / 9) as q.
  assert (b - m = q * 9) as -> by lia.
  split; [|split]; [lia|lia|]. by exists q.
Qed.

(* the constructor on a file that is as long as its header says *)
Lemma new_well_formed fd content k1 k2 b s (n : nat) :
  new (Opened fd content) k1 k2 b = Returned s →
  N.of_nat (length content) = header_size + edge_size * num_edges s →
  edge_size <= b → b < 2 ^ 32 →
  header_size + edge_size * num_edges s + (N.of_nat n + 1) * b < 2 ^ 64 →
  stream_file s = content ∧ stream_off s = header_size
  ∧ query_index s = UINT64_MAX ∧ query_block s = false
  ∧ end_of_file s = header_size + edge_size * num_edges s
  ∧ sane s ∧ (edge_size | buf_size s)
  ∧ end_of_file s + (N.of_nat n + 1) * buf_size s < 2 ^ 64.
Proof.
  intros Hnew Hlen Hb1 Hb2 Hw.
  destruct (new_opened _ _ _ _ _ _ Hnew) as (Hf & Hso & Hqi & Hqb & Hbs & He).
  destruct (block_size_aligned b Hb1) as (Hs1 & Hs2 & Hs3).
  assert ((N.of_nat n + 1) * buf_size s <= (N.of_nat n + 1) * b) as Hmul.
  { apply N.mul_le_mono_l. by rewrite Hbs. }
  assert (1 * b <= (N.of_nat n + 1) * b) as Hmul1 by (apply N.mul_le_mono_r; lia).
  assert (end_of_file s = header_size + edge_size * num_edges s) as He'.
  { rewrite He. change edge_size with 9 in *. change header_size with 12 in *.
    remember ((N.of_nat n + 1) * b) as X.
    unfold add64. rewrite (wrap64_small (num_edges s * 9)) by lia.
    rewrite wrap64_small by lia. lia. }
  change edge_size with 9 in *. change header_size with 12 in *.
  remember ((N.of_nat n + 1) * b) as X.
  remember ((N.of_nat n + 1) * buf_size s) as Y.
  repeat split; try done; rewrite ?Hbs, ?He', ?Hf, ?Hqi; unfold UINT64_MAX; try lia.
  done.
Qed.

End RunLemmas.

Section Runs.
Import BinaryGraphStream_MT StreamSpec Readers ReadersSpec.
Variable s : BinaryGraphStream_MT.t.
Variable mems : list (list byte).
Variable sched : list (nat * list pread_outcome).

Hypothesis Hsane : sane s.
Hypothesis Hqb : query_block s = false.
Hypothesis Hbs9 : (edge_size | buf_size s).
Hypothesis Hstart : stream_off s <= limit s.
Hypothesis Halign : (edge_size | limit s - stream_off s).
Hypothesis Hwrap : end_of_file s + (N.of_nat (length mems) + 1) * buf_size s < 2 ^ 64.
Hypothesis Hfull : Forall full_read sched.

Lemma run_inv : inv s (length mems) (run sched (init s mems)).
Proof. apply inv_run; [done..| |done]. by apply inv_init. Qed.

(* at any moment: what has been returned and what is held but not yet
   returned make up the claimed part of the file, each offset once *)
Lemma run_claimed :
  let sys := run sched (init s mems) in
  delivered sys ++ concat (map (pending s) (readers sys))
  ≡ₚ block_offsets (stream_off s) (N.min (stream_off (stream sys)) (limit s)).
Proof.
  intros sys. unfold delivered. rewrite <- concat_owned.
  apply (gi_perm _ _ _ run_inv).
Qed.

Lemma run_reader r :
  r ∈ readers (run sched (init s mems)) →
  StronglySorted N.lt (offsets (log r))
  ∧ updates (log r) = omap (record_at (stream_file s)) (offsets (log r))
  ∧ (∀ off, off ∈ offsets (log r) →
       stream_off s <= off ∧ off + edge_size <= limit s).
Proof.
  intros Hr.
  pose proof (proj1 (Forall_forall _ _) (gi_readers _ _ _ run_inv) r Hr) as Hri.
  split; [|split].
  - eapply StronglySorted_app_1_l, (ri_sorted _ _ _ Hri).
  - apply updates_of_offsets, (ri_log _ _ _ Hri).
  - intros off Hoff.
    assert (off ∈ concat (map (owned s) (readers (run sched (init s mems))))) as Hc.
    { apply list_elem_of_In, in_concat. exists (owned s r).
      split; [apply in_map; by apply list_elem_of_In|].
      apply list_elem_of_In, elem_of_app. by left. }
    rewrite (gi_perm _ _ _ run_inv) in Hc. apply elem_of_block_offsets in Hc. lia.
Qed.

Lemma run_quiescent :
  mems ≠ [] →
  let sys := run sched (init s mems) in
  Forall at_breakpoint (readers sys) →
  delivered sys ≡ₚ block_offsets (stream_off s) (limit s)
  ∧ delivered_updates sys
    ≡ₚ omap (record_at (stream_file s)) (block_offsets (stream_off s) (limit s))
  ∧ limit s <= stream_off (stream sys)
  ∧ (query_index s <= end_of_file s → stream_off (stream sys) = query_index s).
Proof.
  intros Hne sys Hbp. subst sys.
  assert (0 < length mems)%nat as Hk by (destruct mems; [done|simpl; lia]).
  pose proof (quiescent_limit _ _ _ run_inv Hk Hbp) as Hlim.
  pose proof run_claimed as Hcl. simpl in Hcl.
  rewrite (quiescent_no_pending _ _ _ run_inv Hbp), app_nil_r in Hcl.
  rewrite N.min_r in Hcl by done.
  split; [done|]. split; [|split; [done|]].
  - unfold delivered_updates. rewrite <- Hcl. unfold delivered.
    rewrite omap_concat, map_map.
    assert (map (fun r => updates (log r)) (readers (run sched (init s mems)))
            = map (fun r => omap (record_at (stream_file s)) (offsets (log r)))
                  (readers (run sched (init s mems)))) as ->; [|done].
    apply map_ext_in. intros r Hr%list_elem_of_In.
    by destruct (run_reader r Hr) as (_ & ? & _).
  - intros Hqe. unfold limit in Hlim. rewrite N.min_l in Hlim by done.
    destruct (N.le_gt_cases (stream_off (stream (run sched (init s mems))))
                            (query_index s)); [lia|].
    destruct (gi_clamp _ _ _ run_inv Hqe) as (i & r & ro & Hi & Hpc & _); [done|].
    apply list_elem_of_lookup_2 in Hi.
    pose proof (proj1 (Forall_forall _ _) Hbp r Hi) as [Hidle _]. congruence.
Qed.

End Runs.

(** ** Delivery across the readers *)

Section Delivery.
Import BinaryGraphStream_MT StreamSpec Readers ReadersSpec.

(** C1 (amended).  A stream constructed on a file of M records with a block
    size B >= 9, any number of readers, any interleaving of their steps, the
    kernel delivering every block at once.  At every moment the offsets of the
    updates returned so far, together with those held in buffers or claimed,
    are exactly the record offsets of the claimed part of the file, each once;
    every reader's updates come at strictly increasing file offsets and are
    the file's records at these offsets; and once every reader has returned
    Breakpoint, the updates returned are, as a multiset, the updates of the
    file. *)
Theorem exactly_once_delivery fd content k1 k2 b s mems sched :
  new (Opened fd content) k1 k2 b = Returned s →
  N.of_nat (length content) = header_size + edge_size * num_edges s →
  edge_size <= b → b < 2 ^ 32 →
  header_size + edge_size * num_edges s + (N.of_nat (length mems) + 1) * b < 2 ^ 64 →
  Forall full_read sched →
  let sys := run sched (init s mems) in
  (delivered sys ++ concat (map (pending s) (readers sys))
   ≡ₚ block_offsets header_size (N.min (stream_off (stream sys)) (end_of_file s)))
  ∧ (∀ r, r ∈ readers sys →
       StronglySorted N.lt (offsets (log r))
       ∧ updates (log r) = omap (record_at content) (offsets (log r)))
  ∧ (mems ≠ [] → Forall at_breakpoint (readers sys) →
     delivered sys ≡ₚ block_offsets header_size (end_of_file s)
     ∧ delivered_updates sys ≡ₚ file_updates s).
Proof.
  intros Hnew Hlen Hb1 Hb2 Hw Hfull sys.
  destruct (new_well_formed _ _ _ _ _ _ (length mems) Hnew Hlen Hb1 Hb2 Hw)
    as (Hf & Hso & Hqi & Hqb & He & Hsane & Hbs9 & Hwrap).
  assert (limit s = end_of_file s) as Hlim.
  { unfold limit. rewrite Hqi. unfold UINT64_MAX.
    remember ((N.of_nat (length mems) + 1) * buf_size s) as X. lia. }
  assert (stream_off s <= limit s) as Hstart.
  { rewrite Hlim, Hso, He. lia. }
  assert ((edge_size | limit s - stream_off s)) as Halign.
  { rewrite Hlim, Hso, He. exists (num_edges s). lia. }
  split; [|split].
  - pose proof (run_claimed s mems sched Hsane Hqb Hbs9 Hstart Halign Hwrap Hfull) as H.
    simpl in H. by rewrite Hlim, Hso in H.
  - intros r Hr.
    destruct (run_reader s mems sched Hsane Hqb Hbs9 Hstart Halign Hwrap Hfull r Hr)
      as (H1 & H2 & _).
    by rewrite Hf in H2.
  - intros Hne Hbp.
    destruct (run_quiescent s mems sched Hsane Hqb Hbs9 Hstart Halign Hwrap Hfull
                Hne Hbp) as (H1 & H2 & _).
    rewrite Hlim, Hso in H1, H2. done.
Qed.

Lemma sample_runs_to_breakpoint :
  Forall at_breakpoint
    (readers (run sample_schedule (init (sample_stream 20) [sample_mem; sample_mem]))).
Proof. vm_compute. repeat constructor. Qed.

Lemma sample_schedule_full : Forall full_read sample_schedule.
Proof. vm_compute. repeat constructor. Qed.

Lemma exactly_once_delivery_witness :
  delivered_updates
    (run sample_schedule (init (sample_stream 20) [sample_mem; sample_mem]))
  ≡ₚ [ins 0 1; ins 1 2; del 2 3].
Proof.
  change [ins 0 1; ins 1 2; del 2 3] with (file_updates (sample_stream 20)).
  eapply (exactly_once_delivery 3 sample_file PreadFull PreadFull 20 (sample_stream 20)
            [sample_mem; sample_mem] sample_schedule).
  - apply new_sample_stream.
  - vm_compute. reflexivity.
  - vm_compute. discriminate.
  - vm_compute. reflexivity.
  - vm_compute. reflexivity.
  - exact sample_schedule_full.
  - discriminate.
  - exact sample_runs_to_breakpoint.
Defined.

(* With B = 5 the block size is 0: the reader's first get_edge returns
   Breakpoint and no update of the three in the file is ever delivered. *)
Lemma zero_block_size_delivers_nothing :
  let sys := run (map (fun i => (i, [PreadFull])) [0; 0; 0; 0]%nat)
                 (init (sample_stream 5) [[]]) in
  new (Opened 3 sample_file) PreadFull PreadFull 5 = Returned (sample_stream 5)
  ∧ Forall at_breakpoint (readers sys)
  ∧ delivered_updates sys = []
  ∧ file_updates (sample_stream 5) = [ins 0 1; ins 1 2; del 2 3].
Proof. vm_compute. repeat split. repeat constructor. Qed.





End Delivery.

(** * Further properties of the streams, the readers and the graph *)

Section SingleReader.
Import BinaryGraphStream SingleReaderSpec.

Lemma slice_clamp off n (l : list byte) :
  slice off n l = slice off (N.min n (N.of_nat (length l) - off)) l.
Proof.
  unfold slice.
  destruct (N.le_gt_cases n (N.of_nat (length l) - off)).
  - by rewrite N.min_l.
  - rewrite N.min_r by lia.
    rewrite !take_ge; [done|rewrite length_drop; lia..].
Qed.

Lemma length_slice_le off n (l : list byte) :
  N.of_nat (length (slice off n l)) = N.min n (N.of_nat (length l) - off).
Proof. unfold slice. rewrite length_take, length_drop. lia. Qed.

Lemma record_at_buf_store_clamped file buf off n p :
  p + edge_size <= n → off + p + edge_size <= N.of_nat (length file) →
  record_at (buf_store (slice off n file) buf) p = record_at file (off + p).
Proof.
  intros Hp Hlen. rewrite slice_clamp.
  apply record_at_buf_store; lia.
Qed.


Lemma aligned_next a b :
  (edge_size | a) → (edge_size | b) → a < b → a + edge_size <= b.
Proof. intros [x ->] [y ->]. change edge_size with 9. lia. Qed.

Lemma new_sr_inv file b mem rn re :
  header_size <= N.of_nat (length file) → edge_size <= b →
  ∃ s, new (Some file) false false false b mem rn re = Returned s
       ∧ sr_inv file (b - b mod edge_size) header_size s
       ∧ buf_pos s = 0
       ∧ num_nodes s = le_decode (buf_store (slice 0 4 file) rn)
       ∧ num_edges s = le_decode (buf_store (slice 4 8 file) re).
Proof.
  intros Hlen Hb.
  destruct (block_size_aligned b Hb) as (Hbs & _ & Hdiv).
  set (bs := b - b mod edge_size) in *.
  unfold new, ifstream_open. cbn [is_open negb]. fold bs.
  change header_size with 12 in *. change edge_size with 9 in Hbs, Hdiv.
  unfold ifstream_read at 1. cbn [good eofbit failbit badbit orb negb gpos content is_open].
  rewrite length_slice_le.
  destruct (N.ltb_spec (N.min 4 (N.of_nat (length file) - 0)) 4) as [|_]; [lia|].
  unfold ifstream_read at 1. cbn [good eofbit failbit badbit orb negb gpos content is_open].
  rewrite length_slice_le.
  destruct (N.ltb_spec (N.min 8 (N.of_nat (length file) - (0 + 4))) 8) as [|_]; [lia|].
  unfold read_data. cbn [bin_file buf_size buf_mem num_nodes num_edges].
  unfold ifstream_read. cbn [good eofbit failbit badbit orb negb gpos content is_open].
  rewrite length_slice_le.
  destruct (N.ltb_spec (N.min bs (N.of_nat (length file) - (0 + 4 + 8))) bs) as [Hs|Hs];
    unfold fail, eof; cbn [eofbit failbit badbit orb negb andb];
    (eexists; split; [reflexivity|]);
    (split; [|done]);
    (constructor; cbn [bin_file buf_size buf_mem buf_pos content badbit good eofbit
                       failbit gpos orb negb]; try done).
  - split; [lia|]. exists 0. lia.
  - intros p Hp Hp'. change edge_size with 9 in *.
    apply record_at_buf_store_clamped; change edge_size with 9; lia.
  - right. split; [done|]. lia.
  - split; [lia|]. exists 0. lia.
  - intros p Hp Hp'. change edge_size with 9 in *.
    apply record_at_buf_store_clamped; change edge_size with 9; lia.
  - left. split; [done|]. lia.
Qed.

Lemma get_edge_sr_step file bs base s :
  (edge_size | bs) → sr_inv file bs base s →
  base + buf_pos s + edge_size <= N.of_nat (length file) →
  ∃ u s' base',
    get_edge false s = (s', Returned u)
    ∧ record_at file (base + buf_pos s) = Some u
    ∧ sr_inv file bs base' s'
    ∧ base' + buf_pos s' = base + buf_pos s + edge_size.
Proof.
  intros Hdiv [Hbs Hc Hbad [Hpos Hpdiv] Hbuf Hfile] Hlen.
  pose proof (aligned_next _ _ Hpdiv Hdiv Hpos) as Hstep.
  destruct (record_at_Some file (base + buf_pos s) Hlen) as [u Hu].
  exists u. unfold get_edge.
  rewrite (Hbuf (buf_pos s)) by lia. rewrite Hu.
  cbn [buf_pos buf_size]. rewrite Hbs.
  destruct (N.eqb_spec (buf_pos s + edge_size) bs) as [Heq|Hne].
  - unfold read_data. cbn [bin_file buf_size buf_mem num_nodes num_edges].
    unfold ifstream_read.
    destruct Hfile as [(Hgood & Hg & Hle)|(Heof & Hlt)].
    + rewrite Hgood. cbn [negb]. rewrite Hc, length_slice_le, Hg.
      unfold good in Hgood. apply negb_true_iff in Hgood.
      apply orb_false_iff in Hgood as [Hgood _].
      apply orb_false_iff in Hgood as [Heofb Hfailb].
      destruct (N.ltb_spec (N.min bs (N.of_nat (length file) - (base + bs))) bs) as [Hs|Hs].
      * unfold fail, eof; cbn [eofbit failbit badbit]. rewrite Hbad.
        cbn [orb negb andb].
        eexists _, (base + bs). split; [reflexivity|]. split; [done|].
        split; [|cbn [buf_pos]; lia].
        constructor; cbn [bin_file buf_size buf_mem buf_pos content badbit good eofbit
                          failbit gpos orb negb]; try done.
        -- split; [lia|]. exists 0. lia.
        -- intros p Hp Hp'. apply record_at_buf_store_clamped; lia.
        -- right. split; [done|]. lia.
      * unfold fail, eof; cbn [eofbit failbit badbit]. rewrite Hbad, Hfailb.
        cbn [orb negb andb].
        eexists _, (base + bs). split; [reflexivity|]. split; [done|].
        split; [|cbn [buf_pos]; lia].
        constructor; cbn [bin_file buf_size buf_mem buf_pos content badbit good eofbit
                          failbit gpos orb negb]; try done.
        -- split; [lia|]. exists 0. lia.
        -- intros p Hp Hp'. apply record_at_buf_store_clamped; lia.
        -- left. unfold good. cbn [eofbit failbit badbit].
           rewrite ?Heofb, ?Hfailb, ?Hbad. split; [done|]. lia.
    + assert (good (bin_file s) = false) as Hng.
      { unfold good. rewrite Heof. done. }
      rewrite Hng. unfold fail, eof; cbn [negb eofbit failbit badbit].
      rewrite Heof. rewrite andb_false_r.
      eexists _, (base + bs). split; [reflexivity|]. split; [done|].
      split; [|cbn [buf_pos]; lia].
      constructor; cbn [bin_file buf_size buf_mem buf_pos content badbit good eofbit
                        failbit gpos orb negb]; try done.
      * split; [lia|]. exists 0. lia.
      * intros p Hp Hp'. lia.
      * right. split; [done|]. lia.
  - eexists _, base. split; [reflexivity|]. split; [done|].
    split; [|cbn [buf_pos]; lia].
    constructor; cbn [bin_file buf_size buf_mem buf_pos]; try done.
    + split; [lia|]. destruct Hpdiv as [x Hx]. exists (x + 1).
      change edge_size with 9 in *. lia.
Qed.

Lemma omap_cons_Some {A B} (f : A → option B) x y l :
  f x = Some y → omap f (x :: l) = y :: omap f l.
Proof. intros H. simpl. by rewrite H. Qed.

Lemma get_edges_in_order file bs : (edge_size | bs) →
  ∀ n base s,
    sr_inv file bs base s →
    base + buf_pos s + edge_size * N.of_nat n <= N.of_nat (length file) →
    ∃ s' base',
      get_edges (replicate n false) s
      = (s', Returned (omap (record_at file)
                            (ReadersSpec.block_offsets (base + buf_pos s)
                               (base + buf_pos s + edge_size * N.of_nat n))))
      ∧ sr_inv file bs base' s'
      ∧ base' + buf_pos s' = base + buf_pos s + edge_size * N.of_nat n.
Proof.
  intros Hdiv. induction n as [|n IH]; intros base s Hinv Hlen.
  - exists s, base. simpl. rewrite block_offsets_nil by lia.
    split; [done|]. split; [done|]. lia.
  - destruct (get_edge_sr_step file bs base s Hdiv Hinv) as (u & s1 & base1 & Hg & Hu & Hinv1 & Hp1).
    { change edge_size with 9 in *. lia. }
    destruct (IH base1 s1 Hinv1) as (s2 & base2 & Hgs & Hinv2 & Hp2).
    { change edge_size with 9 in *. lia. }
    exists s2, base2. cbn [replicate get_edges]. rewrite Hg, Hgs.
    split; [|split; [done|change edge_size with 9 in *; lia]].
    f_equal. f_equal.
    rewrite (block_offsets_cons (base + buf_pos s)).
    + rewrite (omap_cons_Some _ _ _ _ Hu). f_equal. rewrite Hp1. f_equal. f_equal.
      change edge_size with 9. lia.
    + change edge_size with 9. lia.
    + exists (N.of_nat (S n)). lia.
Qed.


Lemma length_omap_records file : ∀ n off,
  off + edge_size * N.of_nat n <= N.of_nat (length file) →
  length (omap (record_at file)
            (ReadersSpec.block_offsets off (off + edge_size * N.of_nat n))) = n.
Proof.
  induction n as [|n IH]; intros off Hlen.
  - rewrite block_offsets_nil by lia. done.
  - rewrite block_offsets_cons; [|change edge_size with 9; lia|exists (N.of_nat (S n)); lia].
    destruct (record_at_Some file off) as [u Hu]; [change edge_size with 9 in *; lia|].
    rewrite (omap_cons_Some _ _ _ _ Hu). cbn [length]. f_equal.
    replace (off + edge_size * N.of_nat (S n))
      with (off + edge_size + edge_size * N.of_nat n) by lia.
    apply IH. change edge_size with 9 in *. lia.
Qed.

Lemma ifstream_read_flags f n :
  flags_ok f →
  flags_ok (ifstream_read false f n).1
  ∧ N.of_nat (length (ifstream_read false f n).2) <= n
  ∧ (fail (ifstream_read false f n).1 && negb (eof (ifstream_read false f n).1)) = false.
Proof.
  intros [Hbad Hfe]. unfold ifstream_read, flags_ok, fail, eof, good.
  rewrite Hbad, orb_false_r.
  destruct (eofbit f) eqn:He, (failbit f) eqn:Hf; cbn [orb negb];
    cbn [fst snd eofbit failbit badbit length andb orb negb];
    try (split; [done|split; [lia|done]]).
  - by specialize (Hfe eq_refl).
  - rewrite length_slice_le.
    destruct (N.ltb_spec (N.min n (N.of_nat (length (content f)) - gpos f)) n);
      cbn [fst snd eofbit failbit badbit length andb orb negb]; rewrite ?Hbad, ?He, ?Hf;
      rewrite ?length_slice_le; (split; [done|split; [lia|done]]).
Qed.

Lemma length_buf_store got (buf : list byte) :
  (length got ≤ length buf)%nat → length (buf_store got buf) = length buf.
Proof. intros H. unfold buf_store. rewrite length_app, length_drop. lia. Qed.

Lemma read_data_safe s :
  0 < buf_size s → (edge_size | buf_size s) →
  N.of_nat (length (buf_mem s)) = buf_size s →
  flags_ok (bin_file s) →
  (read_data false s).2 = Returned tt ∧ sr_safe (read_data false s).1.
Proof.
  intros Hpos Hdiv Hmem Hfl. unfold read_data.
  pose proof (ifstream_read_flags (bin_file s) (buf_size s) Hfl) as (Hfl' & Hlen & Hnf).
  destruct (ifstream_read false (bin_file s) (buf_size s)) as [f got].
  cbn [fst snd] in *. rewrite Hnf. cbn [fst snd]. split; [done|].
  destruct Hfl' as [Hb He].
  constructor; cbn [buf_size buf_mem buf_pos bin_file]; try done.
  - rewrite length_buf_store; lia.
  - split; [lia|]. exists 0. lia.
Qed.

Lemma new_safe file b mem rn re :
  edge_size <= b → N.of_nat (length mem) = b - b mod edge_size →
  ∃ s, new (Some file) false false false b mem rn re = Returned s ∧ sr_safe s.
Proof.
  intros Hb Hmem. destruct (block_size_aligned b Hb) as (Hbs & _ & Hdiv).
  unfold new. cbn [ifstream_open is_open negb].
  set (f0 := mk_ifstream true file 0 false false false).
  assert (flags_ok f0) as H0 by done.
  pose proof (ifstream_read_flags f0 4 H0) as (H1 & _ & _).
  destruct (ifstream_read false f0 4) as [f1 nb]. cbn [fst] in H1.
  pose proof (ifstream_read_flags f1 8 H1) as (H2 & _ & _).
  destruct (ifstream_read false f1 8) as [f2 eb]. cbn [fst] in H2.
  match goal with |- context [read_data false ?s] =>
    destruct (read_data_safe s) as [Hr Hs]; cbn [buf_size buf_mem bin_file]; try done;
    [change edge_size with 9 in *; lia|];
    destruct (read_data false s) as [s' o]
  end.
  cbn [fst snd] in *. subst o. eauto.
Qed.

Lemma get_edge_safe s :
  sr_safe s → ∃ u s', get_edge false s = (s', Returned u) ∧ sr_safe s'.
Proof.
  intros [[Hpos Hdiv] Hmem [Hp Hpd] Hbad Heof].
  pose proof (aligned_next _ _ Hpd Hdiv Hp) as Hstep.
  destruct (record_at_Some (buf_mem s) (buf_pos s)) as [u Hu]; [lia|].
  exists u. unfold get_edge. rewrite Hu. cbn [buf_pos buf_size].
  destruct (N.eqb_spec (buf_pos s + edge_size) (buf_size s)) as [Heq|Hne].
  - match goal with |- context [read_data false ?s1] =>
      destruct (read_data_safe s1) as [Hr Hs]; cbn [buf_size buf_mem bin_file]; try done;
      destruct (read_data false s1) as [s' o]
    end.
    cbn [fst snd] in *. subst o. eauto.
  - eexists. split; [reflexivity|].
    constructor; cbn [buf_size buf_mem buf_pos bin_file]; try done.
    split; [lia|]. destruct Hpd as [x Hx]. exists (x + 1). lia.
Qed.

Lemma get_edges_safe : ∀ n s,
  sr_safe s →
  ∃ us s', get_edges (replicate n false) s = (s', Returned us)
           ∧ length us = n ∧ sr_safe s'.
Proof.
  induction n as [|n IH]; intros s Hs.
  - exists [], s. done.
  - destruct (get_edge_safe s Hs) as (u & s1 & Hg & Hs1).
    destruct (IH s1 Hs1) as (us & s2 & Hgs & Hlen & Hs2).
    exists (u :: us), s2. cbn [replicate get_edges]. rewrite Hg, Hgs.
    split; [done|]. split; [by cbn [length]; f_equal|done].
Qed.


(** X1.  BinaryGraphStream on a file that holds the 12-byte header and m
    records, with a block size b >= 9 and no device error: the constructor
    returns, nodes() and edges() are the two header fields, and the first
    n <= m calls of get_edge return the records at the file offsets 12, 21,
    ..., in this order, none left out. *)
Theorem single_reader_in_order file m b mem rn re n :
  N.of_nat (length file) = header_size + edge_size * m →
  edge_size <= b → N.of_nat n <= m →
  length rn = 4%nat → length re = 8%nat →
  ∃ s s' us,
    new (Some file) false false false b mem rn re = Returned s
    ∧ num_nodes s = le_decode (slice 0 4 file)
    ∧ num_edges s = le_decode (slice 4 8 file)
    ∧ get_edges (replicate n false) s = (s', Returned us)
    ∧ us = omap (record_at file)
             (ReadersSpec.block_offsets header_size
                (header_size + edge_size * N.of_nat n))
    ∧ length us = n.
Proof.
  intros Hlen Hb Hn Hrn Hre.
  destruct (new_sr_inv file b mem rn re) as (s & Hnew & Hinv & Hp & Hnn & Hne);
    [change edge_size with 9 in *; change header_size with 12 in *; lia|done|].
  destruct (block_size_aligned b Hb) as (_ & _ & Hdiv).
  destruct (get_edges_in_order file _ Hdiv n header_size s Hinv)
    as (s' & base' & Hg & _ & _).
  { rewrite Hp. change edge_size with 9 in *. lia. }
  rewrite Hp, N.add_0_r in Hg.
  eexists s, s', _. split; [done|].
  assert (∀ (a raw : list byte), length a = length raw → buf_store a raw = a) as Hst.
  { intros a raw Hl. unfold buf_store. rewrite Hl, drop_all. apply app_nil_r. }
  split; [|split; [|split; [done|split; [done|]]]].
  - rewrite Hnn. f_equal. apply Hst. rewrite Hrn.
    apply Nat2N.inj. rewrite length_slice_le.
    change edge_size with 9 in *. change header_size with 12 in *. lia.
  - rewrite Hne. f_equal. apply Hst. rewrite Hre.
    apply Nat2N.inj. rewrite length_slice_le.
    change edge_size with 9 in *. change header_size with 12 in *. lia.
  - apply length_omap_records. change edge_size with 9 in *. lia.
Qed.

Lemma single_reader_in_order_witness :
  ∃ s s',
    new (Some sample_file) false false false 20 sample_mem
        (le_encode 4 0) (le_encode 8 0) = Returned s
    ∧ get_edges [false; false; false] s
      = (s', Returned [ins 0 1; ins 1 2; del 2 3]).
Proof.
  destruct (single_reader_in_order sample_file 3 20 sample_mem
              (le_encode 4 0) (le_encode 8 0) 3)
    as (s & s' & us & Hnew & _ & _ & Hg & Hus & _).
  - vm_compute. reflexivity.
  - vm_compute. discriminate.
  - vm_compute. discriminate.
  - reflexivity.
  - reflexivity.
  - exists s, s'. split; [exact Hnew|]. rewrite Hus in Hg. exact Hg.
Defined.

(** X2.  BinaryGraphStream with a block size b >= 9, whatever the file holds
    (it may be empty or end inside the header or inside a record), and no
    device error: the constructor returns and every call of get_edge returns
    an update; the stream never raises and never tells that the file is used
    up. *)
Theorem single_reader_never_ends file b mem rn re n :
  edge_size <= b → N.of_nat (length mem) = b - b mod edge_size →
  ∃ s s' us,
    new (Some file) false false false b mem rn re = Returned s
    ∧ get_edges (replicate n false) s = (s', Returned us)
    ∧ length us = n.
Proof.
  intros Hb Hmem.
  destruct (new_safe file b mem rn re Hb Hmem) as (s & Hnew & Hs).
  destruct (get_edges_safe n s Hs) as (us & s' & Hg & Hlen & _).
  by exists s, s', us.
Qed.

Lemma single_reader_never_ends_witness :
  ∃ s s' us,
    new (Some sample_file) false false false 20 sample_mem
        (le_encode 4 0) (le_encode 8 0) = Returned s
    ∧ get_edges (replicate 5 false) s = (s', Returned us)
    ∧ length us = 5%nat.
Proof.
  apply (single_reader_never_ends sample_file 20 sample_mem
           (le_encode 4 0) (le_encode 8 0) 5).
  - vm_compute. discriminate.
  - vm_compute. reflexivity.
Defined.

(** X3.  BinaryGraphStream::get_edge on a stream whose block size holds a
    record, whose buffer was allocated with buf_size bytes and whose device
    has not failed before: the call never runs outside the buffer, and it
    raises exactly when this call refills the buffer (the position reaches
    buf_size), the stream is still good and the device fails during the
    read; what it raises is StreamFailed.  Once the stream has met the end of
    the file no device error is reported any more. *)
Theorem single_reader_stream_failed io s :
  sr_safe s →
  let res := get_edge io s in
  (res.2 = Raised StreamFailedException
   ↔ io = true ∧ buf_pos s + edge_size = buf_size s ∧ good (bin_file s) = true)
  ∧ (∀ e, res.2 = Raised e → e = StreamFailedException)
  ∧ res.2 ≠ Undefined ∧ res.2 ≠ NoReturn.
Proof.
  intros [[Hpos Hdiv] Hmem [Hp Hpd] Hbad Heof] res. subst res.
  pose proof (aligned_next _ _ Hpd Hdiv Hp) as Hstep.
  destruct (record_at_Some (buf_mem s) (buf_pos s)) as [u Hu]; [lia|].
  unfold get_edge. rewrite Hu. cbn [buf_pos buf_size].
  destruct (N.eqb_spec (buf_pos s + edge_size) (buf_size s)) as [Heq|Hne].
  - unfold read_data, ifstream_read. cbn [bin_file buf_size buf_mem].
    unfold good, fail, eof. rewrite Hbad, orb_false_r.
    destruct (eofbit (bin_file s)) eqn:He, (failbit (bin_file s)) eqn:Hf, io;
      cbn [orb negb andb eofbit failbit badbit snd];
      rewrite ?Hbad, ?He, ?Hf; cbn [orb negb andb snd];
      try (split; [split; [done|intros (? & ? & ?); done]|];
           split; [intros e [=]; done|done]);
      try (by specialize (Heof eq_refl)).
    rewrite length_slice_le.
    destruct (N.ltb_spec (N.min (buf_size s)
                (N.of_nat (length (content (bin_file s))) - gpos (bin_file s)))
                (buf_size s));
      unfold fail, eof; cbn [orb negb andb eofbit failbit badbit snd];
      rewrite ?Hbad, ?He, ?Hf; cbn [orb negb andb snd];
      (split; [split; [done|intros (? & ? & ?); done]|];
       split; [intros e [=]; done|done]).
  - cbn [snd]. split; [split; [done|intros (? & ? & ?); done]|].
    split; [intros e [=]; done|done].
Qed.

Lemma single_reader_stream_failed_witness :
  let s := mk (mk_ifstream true sample_file 30 false false false)
              (slice 12 18 sample_file) 9 18 4 3 in
  (get_edge true s).2 = Raised StreamFailedException.
Proof.
  intros s.
  assert (sr_safe s) as Hs.
  { constructor; cbn [buf_size buf_mem buf_pos bin_file badbit failbit eofbit s].
    - split; [done|]. by exists 2.
    - vm_compute. reflexivity.
    - split; [done|]. by exists 1.
    - reflexivity.
    - discriminate. }
  apply (single_reader_stream_failed true s Hs). repeat split.
Defined.

(** X4.  BinaryGraphStream with a block size b below the size of a record:
    buf_size is 0, the constructor allocates no byte and returns, and
    get_edge reads its first record outside the buffer. *)
Theorem single_reader_small_block file b rn re io :
  b < edge_size →
  ∃ s, new (Some file) false false false b [] rn re = Returned s
       ∧ buf_size s = 0 ∧ buf_mem s = []
       ∧ get_edge io s = (s, Undefined).
Proof.
  intros Hb. unfold new. cbn [ifstream_open is_open negb].
  rewrite N.mod_small by done. rewrite N.sub_diag.
  set (f0 := mk_ifstream true file 0 false false false).
  assert (flags_ok f0) as H0 by done.
  pose proof (ifstream_read_flags f0 4 H0) as (H1 & _ & _).
  destruct (ifstream_read false f0 4) as [f1 nb]. cbn [fst] in H1.
  pose proof (ifstream_read_flags f1 8 H1) as (H2 & _ & _).
  destruct (ifstream_read false f1 8) as [f2 eb]. cbn [fst] in H2.
  unfold read_data. cbn [bin_file buf_size buf_mem].
  pose proof (ifstream_read_flags f2 0 H2) as (H3 & Hl & Hnf).
  destruct (ifstream_read false f2 0) as [f3 got]. cbn [fst snd] in *.
  rewrite Hnf. destruct got as [|x got]; [|cbn [length] in Hl; lia].
  eexists. split; [reflexivity|]. done.
Qed.

Lemma single_reader_small_block_witness :
  ∃ s, new (Some sample_file) false false false 5 [] (le_encode 4 0) (le_encode 8 0)
       = Returned s
       ∧ get_edge false s = (s, Undefined).
Proof.
  destruct (single_reader_small_block sample_file 5 (le_encode 4 0) (le_encode 8 0) false)
    as (s & Hnew & _ & _ & Hg).
  - vm_compute. reflexivity.
  - exists s. split; [exact Hnew|exact Hg].
Defined.

End SingleReader.

Section WireFormat.






Lemma parse_record_short rec : (length rec < 9)%nat → parse_record rec = None.
Proof.
  destruct rec as [|u rest]; [done|]. cbn [length parse_record]. intros H.
  destruct (Nat.leb_spec 8 (length rest)); [lia|done].
Qed.








End WireFormat.

Section MoreRuns.
Import BinaryGraphStream_MT StreamSpec Readers ReadersSpec.

Lemma take_block_offsets lo hi (m : nat) :
  (m ≤ length (block_offsets lo hi))%nat →
  take m (block_offsets lo hi) = block_offsets lo (lo + edge_size * N.of_nat m).
Proof.
  unfold block_offsets. rewrite length_map, length_seq. intros Hm.
  change map with (@fmap list _). rewrite <- fmap_take, take_seq.
  rewrite Nat.min_l by done.
  replace (lo + edge_size * N.of_nat m - lo) with (N.of_nat m * edge_size) by lia.
  rewrite N.div_mul by done. by rewrite Nat2N.id.
Qed.

Lemma sorted_lt_unique (l1 l2 : list N) :
  StronglySorted N.lt l1 → StronglySorted N.lt l2 → l1 ≡ₚ l2 → l1 = l2.
Proof. apply StronglySorted_unique_strong. intros. lia. Qed.

Lemma prefix_block_offsets l1 l2 lo hi :
  l1 ++ l2 = block_offsets lo hi →
  l1 = block_offsets lo (lo + edge_size * N.of_nat (length l1))
  ∧ lo + edge_size * N.of_nat (length l1) <= N.max lo hi.
Proof.
  intros H.
  assert (length l1 ≤ length (block_offsets lo hi))%nat as Hle
    by (rewrite <- H, length_app; lia).
  split.
  - rewrite <- (take_block_offsets lo hi) by done. rewrite <- H.
    by rewrite take_app_length.
  - unfold block_offsets in Hle. rewrite length_map, length_seq in Hle.
    pose proof (N.Div0.mul_div_le (hi - lo) edge_size) as Hd.
    change edge_size with 9 in *. remember ((hi - lo) / 9) as d. lia.
Qed.

Lemma length_updates lg : length (updates lg) = length (offsets lg).
Proof. induction lg as [|[off u|] lg IH]; simpl; [done|by rewrite IH|done]. Qed.

(** X6.  One MT_StreamReader on a freshly constructed stream (block size
    b >= 9, a file as long as its header says, the kernel delivering every
    block at once), whatever the number of steps taken: the updates that
    get_edge has returned so far are the first m records of the file, in file
    order, for some m; and once the reader has returned Breakpoint they are
    all the updates of the file, in file order. *)
Theorem one_reader_in_order fd content k1 k2 b s mem sched :
  new (Opened fd content) k1 k2 b = Returned s →
  N.of_nat (length content) = header_size + edge_size * num_edges s →
  edge_size <= b → b < 2 ^ 32 →
  header_size + edge_size * num_edges s + 2 * b < 2 ^ 64 →
  Forall full_read sched →
  ∃ r, readers (run sched (init s [mem])) = [r]
       ∧ (∃ m : nat,
            N.of_nat m <= num_edges s
            ∧ length (updates (log r)) = m
            ∧ updates (log r)
              = omap (record_at content)
                  (block_offsets header_size (header_size + edge_size * N.of_nat m)))
       ∧ (at_breakpoint r → updates (log r) = file_updates s).
Proof.
  intros Hnew Hlen Hb1 Hb2 Hw Hfull.
  destruct (new_well_formed _ _ _ _ _ _ 1 Hnew Hlen Hb1 Hb2 Hw)
    as (Hf & Hso & Hqi & Hqb & He & Hsane & Hbs9 & Hwrap).
  assert (limit s = end_of_file s) as Hlim.
  { unfold limit. rewrite Hqi. unfold UINT64_MAX.
    remember ((N.of_nat 1 + 1) * buf_size s) as X. lia. }
  assert (stream_off s <= limit s) as Hstart.
  { rewrite Hlim, Hso, He. lia. }
  assert ((edge_size | limit s - stream_off s)) as Halign.
  { rewrite Hlim, Hso, He. exists (num_edges s). lia. }
  pose proof (run_inv s [mem] sched Hsane Hqb Hbs9 Hstart Halign Hwrap Hfull) as Hinv.
  pose proof (gi_len _ _ _ Hinv) as Hl.
  destruct (readers (run sched (init s [mem]))) as [|r [|r' rs]] eqn:Hrs; try done.
  exists r. split; [done|].
  assert (r ∈ readers (run sched (init s [mem]))) as Hr by (rewrite Hrs; left).
  destruct (run_reader s [mem] sched Hsane Hqb Hbs9 Hstart Halign Hwrap Hfull r Hr)
    as (Hsorted & Hupd & _).
  rewrite Hf in Hupd.
  pose proof (gi_perm _ _ _ Hinv) as Hperm. rewrite Hrs in Hperm.
  cbn [map concat] in Hperm. rewrite app_nil_r in Hperm.
  pose proof (gi_readers _ _ _ Hinv) as Hris. rewrite Hrs in Hris.
  apply Forall_cons_1 in Hris as [Hri _].
  apply sorted_lt_unique in Hperm;
    [|apply (ri_sorted _ _ _ Hri)|apply block_offsets_sorted].
  unfold owned in Hperm.
  apply prefix_block_offsets in Hperm as [Hoff Hle].
  split.
  - exists (length (offsets (log r))). split; [|split].
    + rewrite Hso, Hlim, He in Hle. change edge_size with 9 in *. lia.
    + apply length_updates.
    + rewrite Hupd. rewrite Hso in Hoff. by rewrite <- Hoff.
  - intros Hbp.
    destruct (run_quiescent s [mem] sched Hsane Hqb Hbs9 Hstart Halign Hwrap Hfull)
      as (Hd & _); [done|by rewrite Hrs; constructor|].
    unfold delivered in Hd. rewrite Hrs in Hd. cbn [map concat] in Hd.
    rewrite app_nil_r in Hd.
    apply sorted_lt_unique in Hd; [|done|apply block_offsets_sorted].
    rewrite Hupd, Hd. unfold file_updates. by rewrite Hf, Hso, Hlim.
Qed.

Lemma one_reader_in_order_witness :
  ∃ r, readers (run (map (fun i => (i, [PreadFull])) (replicate 11 0%nat))
                    (init (sample_stream 20) [sample_mem])) = [r]
       ∧ updates (log r) = [ins 0 1; ins 1 2; del 2 3].
Proof.
  destruct (one_reader_in_order 3 sample_file PreadFull PreadFull 20 (sample_stream 20)
              sample_mem (map (fun i => (i, [PreadFull])) (replicate 11 0%nat)))
    as (r & Hr & _ & Hall).
  - apply new_sample_stream.
  - vm_compute. reflexivity.
  - vm_compute. discriminate.
  - vm_compute. reflexivity.
  - vm_compute. reflexivity.
  - vm_compute. repeat constructor.
  - exists r. split; [exact Hr|].
    change [ins 0 1; ins 1 2; del 2 3] with (file_updates (sample_stream 20)).
    apply Hall. revert Hr. vm_compute. intros [= <-]. split; reflexivity.
Defined.

End MoreRuns.

Section Phases.
Import BinaryGraphStream_MT StreamSpec Readers ReadersSpec Resume.



(* a step of a reader writes nothing of the stream but stream_off *)
Lemma reader_step_frame os s r :
  (reader_step os s r).1 = set_stream_off (stream_off (reader_step os s r).1) s.
Proof.
  assert (∀ v, set_stream_off v s = set_stream_off (stream_off (set_stream_off v s)) s)
    as Hset by done.
  assert (s = set_stream_off (stream_off s) s) as Hid by (by destruct s).
  unfold reader_step. destruct (at_pc r) as [| | |ro|].
  - destruct (MT_StreamReader.exhausted (local r)).
    + by destruct (check_block_eof s).
    + by destruct (MT_StreamReader.take_record (local r)).
  - by destruct (check_query s).
  - unfold fetch_add. cbn [fst]. apply Hset.
  - unfold read_data_at.
    destruct (query_index s <=? ro).
    + cbn [MT_StreamReader.after_read_data N.eqb fst returned]. apply Hset.
    + destruct (end_of_file s <=? ro).
      * cbn [MT_StreamReader.after_read_data N.eqb fst returned]. apply Hid.
      * destruct (pread_loop _ _ _ _ _ _) as [buf' res].
        destruct (MT_StreamReader.after_read_data _ _) as [l u].
        destruct (in_query_window s ro); destruct res as [n| | |];
          try destruct (n =? 0); cbn [fst]; done.
  - done.
Qed.

Lemma run_frame sched sys :
  stream (run sched sys) = set_stream_off (stream_off (stream (run sched sys))) (stream sys).
Proof.
  revert sys. induction sched as [|c sched IH]; intros sys.
  - cbn. by destruct (stream sys).
  - change (run (c :: sched) sys) with (run sched (step sys c)).
    rewrite IH at 1.
    assert (stream (step sys c)
            = set_stream_off (stream_off (stream (step sys c))) (stream sys)) as ->.
    { unfold step. destruct (readers sys !! c.1) as [r|].
      - pose proof (reader_step_frame c.2 (stream sys) r) as H.
        destruct (reader_step c.2 (stream sys) r) as [s1 r1]. exact H.
      - by destruct (stream sys). }
    done.
Qed.

(** X7.  stream_reset after the readers have run, for any number of readers,
    any interleaving, any answers of the kernel and at any moment: the
    readers have written nothing of the stream but stream_off, and a stream as
    constructed, with or without a registered query, is after stream_reset
    exactly what it was before the readers started; a registered query stays
    registered. *)
Theorem stream_reset_rewinds fd content k1 k2 b s q mems sched :
  new (Opened fd content) k1 k2 b = Returned s →
  let s' := (register_query q s).1 in
  let sys := run sched (init s' mems) in
  stream sys = set_stream_off (stream_off (stream sys)) s'
  ∧ stream_reset (stream sys) = s'.
Proof.
  intros Hnew s' sys.
  assert (stream_off s = header_size) as Hso.
  { unfold new in Hnew.
    destruct (fd_of _ =? 0)%Z; [done|].
    destruct (sys_read _ k1 0 4) as [nb|]; [|done].
    destruct (negb _); [done|].
    destruct (sys_read _ k2 4 8) as [eb|]; [|done].
    destruct (negb _); [done|].
    by injection Hnew as <-. }
  assert (stream_off s' = header_size) as Hso'.
  { subst s'. unfold register_query. by destruct (_ <=? _). }
  pose proof (run_frame sched (init s' mems)) as Hf. fold sys in Hf.
  change (stream (init s' mems)) with s' in Hf.
  split; [exact Hf|].
  rewrite Hf. unfold stream_reset. rewrite <- Hso'. by destruct s'.
Qed.

Lemma stream_reset_rewinds_witness :
  let s' := (register_query 2 (sample_stream 20)).1 in
  let sys := run racing_schedule (init s' [sample_mem; sample_mem]) in
  stream sys = set_stream_off (stream_off (stream sys)) s'
  ∧ stream_reset (stream sys) = s'.
Proof.
  apply (stream_reset_rewinds 3 sample_file PreadFull PreadFull 20 (sample_stream 20) 2
           [sample_mem; sample_mem] racing_schedule).
  apply new_sample_stream.
Defined.






End Phases.

Section TruncatedFile.
Import BinaryGraphStream_MT StreamSpec.

Lemma length_pread file o count offset bytes :
  pread file o count offset = Some bytes →
  N.of_nat (length bytes) <= N.of_nat (length file) - offset.
Proof.
  destruct o as [|n|]; intros [= <-]; rewrite length_slice_le; lia.
Qed.

(* the retry loop on a file that ends before the block does *)
Lemma pread_loop_spins file d off :
  0 < d → d < 2 ^ 31 → off + d < 2 ^ 64 → N.of_nat (length file) < off + d →
  ∀ os buf n,
    Forall (fun o => o ≠ PreadError) os →
    n <= N.of_nat (length file) - off →
    (pread_loop os file buf d off n).2 = NoReturn.
Proof.
  intros Hd0 Hd Hw Hlen. induction os as [|o os IH]; intros buf n Hos Hn; cbn [pread_loop].
  - destruct (N.ltb_spec n d); [done|lia].
  - destruct (N.ltb_spec n d); [|lia].
    apply Forall_cons_1 in Hos as [Ho Hos].
    rewrite add64_small by lia.
    destruct (pread file o d (off + n)) as [bytes|] eqn:Hp.
    + pose proof (length_pread _ _ _ _ _ Hp) as Hb.
      apply IH; [done|].
      assert (N.of_nat (length bytes) < 2 ^ 31) as Hb31 by lia.
      unfold int_as_size_t.
      destruct (N.ltb_spec (N.of_nat (length bytes)) (2 ^ 31)); [|lia].
      rewrite add64_small by lia. lia.
    + by destruct o.
Qed.

(** X9.  read_data on a file that is shorter than its header says.  When the
    block to fetch (buf_size bytes from stream_off, cut at a registered query
    and at end_of_file) reaches past the real end of the file, and the kernel
    reports no error, the retry loop of read_data never ends: the bytes that
    are left never add up to data_to_read, and each further pread returns 0.
    A get_edge that has to refill its buffer does not return either. *)
Theorem read_data_truncated_file os s buf :
  Forall (fun o => o ≠ PreadError) os →
  query_block s = false →
  stream_off s < end_of_file s → stream_off s < query_index s →
  0 < buf_size s → buf_size s < 2 ^ 31 →
  end_of_file s + buf_size s < 2 ^ 64 → query_index s < 2 ^ 64 →
  N.of_nat (length (stream_file s)) < stream_off s + clamped_amount s (stream_off s) →
  (read_data os s buf).2 = NoReturn
  ∧ (∀ r, MT_StreamReader.exhausted r = true →
          (MT_StreamReader.get_edge os s r).2 = NoReturn).
Proof.
  intros Hos Hqb He Hq Hb0 Hb31 Hw Hq64 Hlen.
  set (pad := mk (stream_fd s) (replicate (N.to_nat (end_of_file s)) Byte.x00)
                 (num_nodes s) (num_edges s) (buf_size s) (end_of_file s)
                 (stream_off s) (query_index s) (query_block s)).
  assert (sane pad) as Hpad.
  { constructor; cbn [buf_size stream_file end_of_file query_index pad]; try done.
    - lia.
    - rewrite length_replicate. lia. }
  destruct (data_to_read_clamped pad (stream_off s) Hpad Hq He) as (Hd & Hpos & Hle & _).
  assert (data_to_read s (stream_off s) = clamped_amount s (stream_off s)) as Hd'
    by (destruct s; exact Hd).
  assert (clamped_amount s (stream_off s) <= buf_size s) as Hle'
    by (destruct s; exact Hle).
  assert (0 < clamped_amount s (stream_off s)) as Hpos'
    by (destruct s; exact Hpos).
  assert (read_data os s buf
          = (let '(b, r) := pread_loop os (stream_file s) buf
                              (clamped_amount s (stream_off s)) (stream_off s) 0 in
             (if in_query_window s (stream_off s)
              then set_stream_off (query_index s)
                     (set_stream_off (add64 (stream_off s) (buf_size s)) s)
              else set_stream_off (add64 (stream_off s) (buf_size s)) s, b, r))) as Hrd.
  { unfold read_data, read_data_racing, check_block_eof, check_query.
    rewrite Hqb. cbn [orb].
    destruct (N.leb_spec (end_of_file s) (stream_off s)); [lia|].
    destruct (N.leb_spec (query_index s) (stream_off s)); [lia|].
    cbn [orb fetch_add]. unfold read_data_at. cbn [stream_off set_stream_off query_index
      end_of_file stream_file].
    destruct (N.leb_spec (query_index s) (stream_off s)); [lia|].
    destruct (N.leb_spec (end_of_file s) (stream_off s)); [lia|].
    rewrite <- Hd'. by destruct s. }
  pose proof (pread_loop_spins (stream_file s) (clamped_amount s (stream_off s))
                (stream_off s) Hpos' ltac:(lia) ltac:(lia) Hlen os buf 0 Hos ltac:(lia)) as Hsp.
  assert ((read_data os s buf).2 = NoReturn) as Hres.
  { rewrite Hrd. destruct (pread_loop _ _ _ _ _ _) as [b r]. exact Hsp. }
  split; [done|].
  intros r Hex. unfold MT_StreamReader.get_edge. rewrite Hex.
  pose proof (pread_loop_spins (stream_file s) (clamped_amount s (stream_off s))
                (stream_off s) Hpos' ltac:(lia) ltac:(lia) Hlen os
                (MT_StreamReader.buf_mem r) 0 Hos ltac:(lia)) as Hsp'.
  assert (read_data os s (MT_StreamReader.buf_mem r)
          = (let '(b, r0) := pread_loop os (stream_file s) (MT_StreamReader.buf_mem r)
                              (clamped_amount s (stream_off s)) (stream_off s) 0 in
             (if in_query_window s (stream_off s)
              then set_stream_off (query_index s)
                     (set_stream_off (add64 (stream_off s) (buf_size s)) s)
              else set_stream_off (add64 (stream_off s) (buf_size s)) s, b, r0))) as Hrd'.
  { unfold read_data, read_data_racing, check_block_eof, check_query.
    rewrite Hqb. cbn [orb].
    destruct (N.leb_spec (end_of_file s) (stream_off s)); [lia|].
    destruct (N.leb_spec (query_index s) (stream_off s)); [lia|].
    cbn [orb fetch_add]. unfold read_data_at. cbn [stream_off set_stream_off query_index
      end_of_file stream_file].
    destruct (N.leb_spec (query_index s) (stream_off s)); [lia|].
    destruct (N.leb_spec (end_of_file s) (stream_off s)); [lia|].
    rewrite <- Hd'. by destruct s. }
  rewrite Hrd'.
  destruct (pread_loop os (stream_file s) (MT_StreamReader.buf_mem r)
              (clamped_amount s (stream_off s)) (stream_off s) 0) as [b r0].
  cbn [snd] in Hsp'. subst r0. done.
Qed.

Lemma read_data_truncated_file_witness :
  let s := mk 3 short_file 4 3 18 39 header_size UINT64_MAX false in
  (read_data [PreadFull; PreadFull; PreadShort 4; PreadFull] s sample_mem).2 = NoReturn.
Proof.
  intros s.
  apply (read_data_truncated_file [PreadFull; PreadFull; PreadShort 4; PreadFull] s sample_mem).
  - repeat constructor; discriminate.
  - reflexivity.
  - reflexivity.
  - reflexivity.
  - reflexivity.
  - reflexivity.
  - reflexivity.
  - reflexivity.
  - vm_compute. reflexivity.
Defined.

End TruncatedFile.

Section PausedSteps.
Import BinaryGraphStream_MT StreamSpec Readers ReadersSpec Controller.

Lemma read_data_at_query_block b os s ro buf :
  read_data_at os (set_query_block b s) ro buf
  = (set_query_block b (read_data_at os s ro buf).1.1,
     (read_data_at os s ro buf).1.2, (read_data_at os s ro buf).2).
Proof.
  destruct s as [fd f nn ne bs eof so qi qb].
  unfold read_data_at, in_query_window, data_to_read, set_query_block, set_stream_off.
  cbn [query_index end_of_file buf_size stream_file stream_fd num_nodes num_edges
       stream_off query_block].
  destruct (qi <=? ro); [done|]. destruct (eof <=? ro); [done|].
  destruct (pread_loop _ _ _ _ _ _) as [b' r].
  by destruct ((ro <=? qi) && (qi <? add64 ro bs)).
Qed.

(* a step that does not start a refill does not look at query_block *)
Lemma reader_step_query_block b os s r :
  at_pc r ≠ Idle ∨ MT_StreamReader.exhausted (local r) = false →
  reader_step os (set_query_block b s) r
  = (set_query_block b (reader_step os s r).1, (reader_step os s r).2).
Proof.
  intros H. unfold reader_step.
  destruct (at_pc r) as [| | |ro|] eqn:Hpc.
  - destruct H as [H|H]; [done|]. rewrite H.
    by destruct (MT_StreamReader.take_record (local r)).
  - assert (check_query (set_query_block b s) = check_query s) as -> by by destruct s.
    by destruct (check_query s).
  - by destruct s.
  - rewrite read_data_at_query_block.
    destruct (read_data_at os s ro (MT_StreamReader.buf_mem (local r))) as [[s1 mem] res].
    cbn [fst snd].
    destruct (MT_StreamReader.after_read_data (local r) (mem, res)) as [l u].
    destruct res as [n| | |]; [|done..]. by destruct (n =? 0).
  - done.
Qed.

(* a reader that has to refill while the stream is paused *)
Lemma reader_step_paused os s r :
  query_block s = true → at_pc r = Idle → MT_StreamReader.exhausted (local r) = true →
  reader_step os s r
  = (s, mk_reader (MT_StreamReader.mk (MT_StreamReader.buf_mem (local r))
                                      (MT_StreamReader.buf_pos (local r)) 0)
                  Idle (block_off r) (log r ++ [Stop])).
Proof.
  intros Hq Hpc Hex. unfold reader_step, check_block_eof. rewrite Hpc, Hex, Hq.
  reflexivity.
Qed.

Lemma unpause_stream b so s :
  query_block s = false →
  set_query_block false (set_query_block b (set_stream_off so s)) = set_stream_off so s.
Proof. intros H. destruct s. cbn in *. by subst. Qed.

Lemma inside_slack rs : inside rs + slack rs = N.of_nat (length rs).
Proof.
  unfold inside, slack. induction rs as [|r rs IH]; [done|].
  rewrite !filter_cons. destruct (before_fetch r);
    repeat case_decide; try done; cbn [length]; lia.
Qed.

Lemma winv_no_pending s0 k sys :
  winv s0 k sys → Forall at_breakpoint (readers sys) →
  concat (map (pending s0) (readers sys)) = [].
Proof.
  intros Hinv Hbp. pose proof (wi_readers _ _ _ Hinv) as Hrs.
  induction (readers sys) as [|r rs IH]; [done|].
  inversion Hbp as [|? ? [Hpc Hlast] Hbp']; subst.
  inversion Hrs as [|? ? Hr Hrs']; subst.
  simpl. rewrite IH by done. rewrite app_nil_r.
  unfold pending. rewrite Hpc. rewrite (ri_stop _ _ _ Hr Hlast).
  apply block_offsets_nil. lia.
Qed.

End PausedSteps.

Section ControllerProofs.
Import BinaryGraphStream_MT StreamSpec Readers ReadersSpec Controller.
Variable s0 : BinaryGraphStream_MT.t.
Variable k : nat.

Hypothesis Hsane : sane s0.
Hypothesis Hqb : query_block s0 = false.
Hypothesis Hqi : query_index s0 = UINT64_MAX.
Hypothesis Hbs9 : (edge_size | buf_size s0).
Hypothesis Hstart : stream_off s0 <= limit s0.
Hypothesis Halign : (edge_size | limit s0 - stream_off s0).
Hypothesis Hwrap : end_of_file s0 + (N.of_nat k + 1) * buf_size s0 < 2 ^ 64.

Lemma paused_stop_inv so r :
  reader_inv s0 so r → at_pc r = Idle → MT_StreamReader.exhausted (local r) = true →
  let r' := mk_reader (MT_StreamReader.mk (MT_StreamReader.buf_mem (local r))
                                          (MT_StreamReader.buf_pos (local r)) 0)
                      Idle (block_off r) (log r ++ [Stop]) in
  reader_inv s0 so r' ∧ owned s0 r' = owned s0 r ∧ slack_of r' = slack_of r.
Proof.
  intros [Hpc Hpos Hdib Hmem Hend Hlog Hstop Hexh Hfetch Hsort] Hi Hex r'.
  apply N.leb_le in Hex.
  assert (owned s0 r' = owned s0 r) as Hown.
  { unfold owned, pending. subst r'. cbn [log at_pc local block_off
      MT_StreamReader.buf_pos MT_StreamReader.data_in_buf]. rewrite Hi.
    rewrite offsets_snoc_stop. f_equal.
    rewrite !block_offsets_nil by lia. done. }
  split; [|split; [done|]].
  - constructor; subst r'; cbn [log at_pc local block_off MT_StreamReader.buf_pos
                                MT_StreamReader.data_in_buf MT_StreamReader.buf_mem];
      try done.
    + exists 0. lia.
    + intros p Hp. change edge_size with 9 in Hp. lia.
    + by left.
    + intros off v H%elem_of_got_snoc_stop. by eapply Hlog.
    + by rewrite Hown.
  - unfold slack_of, before_fetch. subst r'. cbn [at_pc]. by rewrite Hi.
Qed.

Lemma winv_owned_lt sys r x :
  winv s0 k sys → r ∈ readers sys → x ∈ owned s0 r →
  x < N.min (stream_off (stream sys)) (limit s0).
Proof.
  intros Hinv Hr Hx.
  assert (x ∈ concat (map (owned s0) (readers sys))) as Hc.
  { apply list_elem_of_In, in_concat. exists (owned s0 r).
    split; [apply in_map|]; by apply list_elem_of_In. }
  rewrite (wi_perm _ _ _ Hinv) in Hc. apply elem_of_block_offsets in Hc.
  change edge_size with 9 in Hc. lia.
Qed.

Lemma winv_no_wrap sys :
  winv s0 k sys → stream_off (stream sys) + buf_size s0 < 2 ^ 64.
Proof.
  intros Hinv. pose proof (wi_slack _ _ _ Hinv) as Hs.
  pose proof (slack_le (readers sys)) as Hl. rewrite (wi_len _ _ _ Hinv) in Hl.
  assert (slack (readers sys) * buf_size s0 <= N.of_nat k * buf_size s0)
    by by apply N.mul_le_mono_r.
  rewrite N.mul_add_distr_r in Hwrap. lia.
Qed.

(* the stream of a system, paused or not *)
Lemma winv_stream sys :
  winv s0 k sys →
  stream sys = set_query_block (query_block (stream sys))
                 (set_stream_off (stream_off (stream sys)) s0).
Proof.
  intros Hinv. pose proof (wi_static _ _ _ Hinv) as H.
  destruct (stream sys) as [fd f nn ne bs eof so qi qb].
  unfold set_query_block, set_stream_off in *.
  cbn [stream_fd stream_file num_nodes num_edges buf_size end_of_file stream_off
       query_index query_block] in *.
  by injection H as -> -> -> -> -> -> ->.
Qed.

(* one step of a reader, the stream paused or not: a transition of the
   protocol, or a Breakpoint returned because of the pause *)
Lemma winv_reader_step sys i r os :
  winv s0 k sys → readers sys !! i = Some r →
  let so := stream_off (stream sys) in
  ∃ so' r',
    reader_step (PreadFull :: os) (stream sys) r
    = (set_query_block (query_block (stream sys)) (set_stream_off so' s0), r')
    ∧ reader_inv s0 so' r'
    ∧ (so' = so ∨ (so' = so + buf_size s0 ∧ at_pc r = BeforeFetchAdd)
       ∨ (so' = query_index s0 ∧ query_index s0 <= so))
    ∧ owned s0 r' = owned s0 r ++ block_offsets (N.min so (limit s0)) (N.min so' (limit s0))
    ∧ (∀ sl sl', sl' + slack_of r = sl + slack_of r' →
         so <= end_of_file s0 + sl * buf_size s0 →
         so' <= end_of_file s0 + sl' * buf_size s0)
    ∧ (query_block (stream sys) = true →
       slack_of r <= slack_of r'
       ∧ so' + slack_of r * buf_size s0 <= so + slack_of r' * buf_size s0).
Proof.
  intros Hinv Hr so.
  assert (reader_inv s0 so r) as Hri.
  { eapply Forall_lookup_1; [apply (wi_readers _ _ _ Hinv)|done]. }
  pose proof (winv_no_wrap sys Hinv) as Hnw. fold so in Hnw.
  pose proof (wi_align _ _ _ Hinv) as Hal. fold so in Hal.
  assert (∀ x, x ∈ owned s0 r → x < N.min so (limit s0)) as Hlt.
  { intros x Hx. eapply (winv_owned_lt sys r); [done| |done].
    by eapply list_elem_of_lookup_2. }
  remember (query_block (stream sys)) as qb eqn:Hq.
  assert (stream sys = set_query_block qb (set_stream_off so s0)) as ->
    by (subst qb so; by apply winv_stream).
  assert ((at_pc r = Idle ∧ MT_StreamReader.exhausted (local r) = true)
          ∨ (at_pc r ≠ Idle ∨ MT_StreamReader.exhausted (local r) = false)) as Hcase.
  { destruct (MT_StreamReader.exhausted (local r)); [|by right; right].
    destruct (at_pc r); [by left|right; left; done..]. }
  destruct qb; destruct Hcase as [[Hi Hex]|Hnot].
  - (* paused, and the reader has to refill *)
    rewrite reader_step_paused by done.
    destruct (paused_stop_inv so r Hri Hi Hex) as (Hri' & Hown & Hsl).
    eexists so, _. split; [reflexivity|]. split; [done|]. split; [by left|].
    split; [|split].
    + rewrite Hown, block_offsets_nil by lia. by rewrite app_nil_r.
    + intros sl sl' Hsl'. rewrite Hsl in Hsl'. assert (sl' = sl) as -> by lia. done.
    + intros _. rewrite Hsl. lia.
  - (* paused, any other step *)
    rewrite reader_step_query_block by done.
    destruct (reader_step_trans s0 k Hsane Hqb Hbs9 Hstart Halign Hwrap os
                (set_stream_off so s0) r so eq_refl Hnw Hri) as (so' & r' & Hstep & Ht).
    rewrite Hstep. cbn [fst snd].
    pose proof (trans_so s0 k Hstart Hwrap _ _ _ _ Ht Hri) as Hso.
    exists so', r'. split; [done|].
    split; [by eapply (trans_reader_inv s0 k)|]. split; [done|].
    split; [by eapply (trans_owned s0 k)|]. split.
    + intros sl sl' Hsl. by eapply (trans_slack s0 k).
    + intros _. unfold slack_of, before_fetch.
      destruct Hsane as [[Hb1 Hb2] _ _ _].
      destruct Ht as [u Hi Hlt' Hu|Hc Hex|ro Hi Hq'|Hi He Hex|Hi Hq'|Hi|ro u Hi Hq' He Hu];
        cbn [at_pc]; rewrite ?Hi.
      * lia.
      * destruct Hc as [[Hi _]|[[Hi _]|(ro & Hi & _)]]; rewrite Hi; lia.
      * destruct (ri_fetch _ _ _ Hri ro Hi) as [Hm _]. lia.
      * exfalso. destruct Hnot as [Hnot|Hnot]; [done|].
        unfold MT_StreamReader.exhausted in Hnot. apply N.leb_gt in Hnot. lia.
      * lia.
      * lia.
      * destruct (ri_fetch _ _ _ Hri ro Hi) as [Hm _].
        case_decide as Hin; [destruct Hin|]; lia.
  - (* running, and the reader has to refill *)
    assert (set_query_block false (set_stream_off so s0) = set_stream_off so s0) as ->
      by (destruct s0; cbn in *; by subst).
    destruct (reader_step_trans s0 k Hsane Hqb Hbs9 Hstart Halign Hwrap os
                (set_stream_off so s0) r so eq_refl Hnw Hri) as (so' & r' & Hstep & Ht).
    rewrite Hstep.
    pose proof (trans_so s0 k Hstart Hwrap _ _ _ _ Ht Hri) as Hso.
    exists so', r'.
    split; [destruct s0; cbn in *; by subst|].
    split; [by eapply (trans_reader_inv s0 k)|]. split; [done|].
    split; [by eapply (trans_owned s0 k)|]. split; [|done].
    intros sl sl' Hsl. by eapply (trans_slack s0 k).
  - assert (set_query_block false (set_stream_off so s0) = set_stream_off so s0) as ->
      by (destruct s0; cbn in *; by subst).
    destruct (reader_step_trans s0 k Hsane Hqb Hbs9 Hstart Halign Hwrap os
                (set_stream_off so s0) r so eq_refl Hnw Hri) as (so' & r' & Hstep & Ht).
    rewrite Hstep.
    pose proof (trans_so s0 k Hstart Hwrap _ _ _ _ Ht Hri) as Hso.
    exists so', r'.
    split; [destruct s0; cbn in *; by subst|].
    split; [by eapply (trans_reader_inv s0 k)|]. split; [done|].
    split; [by eapply (trans_owned s0 k)|]. split; [|done].
    intros sl sl' Hsl. by eapply (trans_slack s0 k).
Qed.


Lemma winv_step sys c :
  winv s0 k sys → full_read c →
  winv s0 k (step sys c)
  ∧ query_block (stream (step sys c)) = query_block (stream sys)
  ∧ (query_block (stream sys) = true →
     slack (readers sys) <= slack (readers (step sys c))
     ∧ stream_off (stream (step sys c)) + slack (readers sys) * buf_size s0
       <= stream_off (stream sys) + slack (readers (step sys c)) * buf_size s0).
Proof.
  intros Hinv Hfull.
  assert (∃ os, c.2 = PreadFull :: os) as [os Hos].
  { unfold full_read in Hfull. destruct (c.2) as [|[] os]; try done. by exists os. }
  unfold step.
  destruct (readers sys !! c.1) as [r|] eqn:Hr; [|split; [done|split; [done|lia]]].
  set (so := stream_off (stream sys)).
  destruct (winv_reader_step sys c.1 r os Hinv Hr)
    as (so' & r' & Hstep & Hri' & Hso & Hown & Hslack & Hpause).
  fold so in Hso, Hown, Hslack, Hpause.
  rewrite Hos, Hstep. cbn [stream readers].
  pose proof (limit_le_query s0 k Hstart Hwrap) as HLQ.
  pose proof (wi_align _ _ _ Hinv) as Hal. fold so in Hal.
  assert (so <= so' ∨ so' = query_index s0) as Hmono by lia.
  assert (so' < limit s0 → stream_off s0 <= so' ∧ (edge_size | so' - stream_off s0)) as Hal'.
  { destruct Hso as [->|[[-> _]|[-> _]]]; [done| |lia].
    intros Hlt. destruct Hal as [Ha1 [x Hx]]; [lia|]. split; [lia|].
    destruct Hbs9 as [y Hy]. exists (x + y). change edge_size with 9 in *. lia. }
  pose proof (slack_insert _ _ _ r' Hr) as Hsi.
  split; [|split].
  - constructor; cbn [stream readers stream_off set_query_block set_stream_off].
    + by apply unpause_stream.
    + rewrite length_insert. apply (wi_len _ _ _ Hinv).
    + apply Forall_insert; [|done].
      eapply Forall_impl; [apply (wi_readers _ _ _ Hinv)|].
      intros x Hx. by eapply (reader_inv_mono s0 k).
    + rewrite (concat_map_insert _ _ _ _ _ _ Hr Hown), (wi_perm _ _ _ Hinv). fold so.
      destruct (aligned_min s0 k Hstart Halign Hwrap so Hal) as [Hs1 Hs2].
      destruct (aligned_min s0 k Hstart Halign Hwrap so' Hal') as [Hs1' Hs2'].
      assert (N.min so (limit s0) <= N.min so' (limit s0)) as Hle by lia.
      rewrite <- block_offsets_app; [done..|].
      by eapply (divide_sub s0 k).
    + done.
    + eapply Hslack; [done|apply (wi_slack _ _ _ Hinv)].
  - done.
  - intros Hq. destruct (Hpause Hq) as [Hp1 Hp2].
    cbn [stream_off set_query_block set_stream_off].
    split; [lia|]. nia.
Qed.

Lemma winv_act sys a :
  winv s0 k sys → full_reads a → winv s0 k (act sys a).
Proof.
  intros Hinv Hf. destruct a as [c| |]; cbn [act].
  - by apply winv_step.
  - destruct Hinv as [Hst Hl Hrs Hp Ha Hs].
    destruct (stream sys) as [fd f nn ne bs eof so qi qb].
    by constructor.
  - destruct Hinv as [Hst Hl Hrs Hp Ha Hs].
    destruct (stream sys) as [fd f nn ne bs eof so qi qb].
    constructor; try done.
    unfold post_query_resume, set_query_block, set_query_index, set_stream_off in *.
    cbn [stream stream_fd stream_file num_nodes num_edges buf_size end_of_file
         stream_off query_index query_block] in *.
    injection Hst as -> -> -> -> -> -> ->. by rewrite Hqi, Hqb.
Qed.

Lemma winv_play acts sys :
  winv s0 k sys → Forall full_reads acts → winv s0 k (play acts sys).
Proof.
  revert sys. induction acts as [|a acts IH]; intros sys Hinv Hf; [done|].
  inversion Hf; subst. cbn. apply IH; [|done]. by apply winv_act.
Qed.

Lemma inv_winv sys : inv s0 k sys → winv s0 k sys.
Proof.
  intros [Hst Hl Hrs Hp Ha Hs _ _]. constructor; try done.
  rewrite Hst. destruct s0. cbn in *. by subst.
Qed.

(* while the stream is paused, the offset moves only for readers that were
   between their check and their fetch_add *)
Lemma paused_run sched : ∀ sys,
  winv s0 k sys → query_block (stream sys) = true → Forall full_read sched →
  winv s0 k (run sched sys)
  ∧ query_block (stream (run sched sys)) = true
  ∧ slack (readers sys) <= slack (readers (run sched sys))
  ∧ stream_off (stream (run sched sys)) + slack (readers sys) * buf_size s0
    <= stream_off (stream sys) + slack (readers (run sched sys)) * buf_size s0.
Proof.
  induction sched as [|c sched IH]; intros sys Hinv Hq Hf.
  - cbn. split; [done|]. split; [done|]. lia.
  - inversion Hf; subst. change (run (c :: sched) sys) with (run sched (step sys c)).
    destruct (winv_step sys c Hinv) as (Hinv' & Hq' & Hb); [done|].
    destruct (Hb Hq) as [Hb1 Hb2].
    destruct (IH (step sys c) Hinv') as (Hinv2 & Hq2 & Hc1 & Hc2); [congruence|done|].
    split; [done|]. split; [done|]. split; [lia|]. nia.
Qed.

End ControllerProofs.

Section Pauses.
Import BinaryGraphStream_MT StreamSpec Readers ReadersSpec Controller.

Lemma played_winv fd content k1 k2 b s mems acts :
  new (Opened fd content) k1 k2 b = Returned s →
  N.of_nat (length content) = header_size + edge_size * num_edges s →
  edge_size <= b → b < 2 ^ 32 →
  header_size + edge_size * num_edges s + (N.of_nat (length mems) + 1) * b < 2 ^ 64 →
  Forall full_reads acts →
  winv s (length mems) (play acts (init s mems))
  ∧ stream_file s = content ∧ stream_off s = header_size
  ∧ limit s = end_of_file s
  ∧ end_of_file s = header_size + edge_size * num_edges s
  ∧ end_of_file s + (N.of_nat (length mems) + 1) * buf_size s < 2 ^ 64.
Proof.
  intros Hnew Hlen Hb1 Hb2 Hw Hfull.
  destruct (new_well_formed _ _ _ _ _ _ (length mems) Hnew Hlen Hb1 Hb2 Hw)
    as (Hf & Hso & Hqi & Hqb & He & Hsane & Hbs9 & Hwrap).
  assert (limit s = end_of_file s) as Hlim.
  { unfold limit. rewrite Hqi. unfold UINT64_MAX.
    remember ((N.of_nat (length mems) + 1) * buf_size s) as X. lia. }
  assert (stream_off s <= limit s) as Hstart.
  { rewrite Hlim, Hso, He. lia. }
  assert ((edge_size | limit s - stream_off s)) as Halign.
  { rewrite Hlim, Hso, He. exists (num_edges s). lia. }
  split; [|done].
  eapply winv_play; try done. eapply inv_winv; try done. by apply inv_init.
Qed.

(** X10.  on_demand_query and post_query_resume at any moments while the
    readers run.  On a freshly constructed stream (block size b >= 9, a file
    as long as its header says, the kernel delivering every block at once),
    for any number of readers and any interleaving of their steps with the two
    calls of the controlling thread: no update is lost or delivered twice (what
    has been returned, with what the readers still hold, is the part of the
    file below stream_off, each record once); each reader is handed its
    updates at increasing file offsets; and whenever every reader is back at a
    Breakpoint, the updates delivered so far are exactly the first n updates
    of the file, for some n: a query done at that moment sees a prefix of the
    stream.  If stream_off has reached the end of the file they are all the
    updates of the file. *)
Theorem pause_resume_exactly_once fd content k1 k2 b s mems acts :
  new (Opened fd content) k1 k2 b = Returned s →
  N.of_nat (length content) = header_size + edge_size * num_edges s →
  edge_size <= b → b < 2 ^ 32 →
  header_size + edge_size * num_edges s + (N.of_nat (length mems) + 1) * b < 2 ^ 64 →
  Forall full_reads acts →
  let sys := play acts (init s mems) in
  ∃ n, n <= num_edges s
       ∧ N.min (stream_off (stream sys)) (end_of_file s) = header_size + edge_size * n
       ∧ delivered sys ++ concat (map (pending s) (readers sys))
         ≡ₚ block_offsets header_size (header_size + edge_size * n)
       ∧ (∀ r, r ∈ readers sys →
            StronglySorted N.lt (offsets (log r))
            ∧ updates (log r) = omap (record_at content) (offsets (log r)))
       ∧ (Forall at_breakpoint (readers sys) →
          delivered sys ≡ₚ block_offsets header_size (header_size + edge_size * n)
          ∧ delivered_updates sys
            ≡ₚ omap (record_at content)
                 (block_offsets header_size (header_size + edge_size * n))
          ∧ (end_of_file s <= stream_off (stream sys) →
             delivered_updates sys ≡ₚ file_updates s)).
Proof.
  intros Hnew Hlen Hb1 Hb2 Hw Hfull sys.
  destruct (played_winv _ _ _ _ _ _ mems acts Hnew Hlen Hb1 Hb2 Hw Hfull)
    as (Hinv & Hf & Hso & Hlim & He & Hwrap).
  fold sys in Hinv.
  pose proof (wi_perm _ _ _ Hinv) as Hperm. rewrite Hso, Hlim in Hperm.
  pose proof (wi_align _ _ _ Hinv) as Hal. rewrite Hso, Hlim in Hal.
  assert (∃ n, n <= num_edges s
               ∧ N.min (stream_off (stream sys)) (end_of_file s)
                 = header_size + edge_size * n) as (n & Hn & Hmin).
  { destruct (N.lt_ge_cases (stream_off (stream sys)) (end_of_file s)) as [Hlt|Hge].
    - destruct (Hal Hlt) as [H1 [x Hx]]. exists x. rewrite N.min_l by lia.
      rewrite He in Hlt. change edge_size with 9 in *. split; lia.
    - exists (num_edges s). rewrite N.min_r by lia. split; [lia|done]. }
  rewrite Hmin in Hperm.
  assert (∀ r, r ∈ readers sys →
            StronglySorted N.lt (offsets (log r))
            ∧ updates (log r) = omap (record_at content) (offsets (log r))) as Hrs.
  { intros r Hr.
    pose proof (proj1 (Forall_forall _ _) (wi_readers _ _ _ Hinv) r Hr) as Hri.
    split.
    - eapply StronglySorted_app_1_l, (ri_sorted _ _ _ Hri).
    - rewrite <- Hf. apply updates_of_offsets, (ri_log _ _ _ Hri). }
  exists n. split; [done|]. split; [done|]. split.
  { unfold delivered. by rewrite <- concat_owned. }
  split; [done|].
  intros Hbp.
  assert (concat (map (pending s) (readers sys)) = []) as Hnp.
  { by eapply winv_no_pending. }
  rewrite concat_owned, Hnp, app_nil_r in Hperm.
  split; [done|].
  assert (delivered_updates sys
          ≡ₚ omap (record_at content)
               (block_offsets header_size (header_size + edge_size * n))) as Hdu.
  { unfold delivered_updates. rewrite <- Hperm.
    rewrite omap_concat, map_map.
    assert (map (fun r => updates (log r)) (readers sys)
            = map (fun r => omap (record_at content) (offsets (log r)))
                  (readers sys)) as ->; [|done].
    apply map_ext_in. intros r Hr%list_elem_of_In. by apply Hrs. }
  split; [done|].
  intros Hge. rewrite Hdu. unfold file_updates. rewrite Hf.
  rewrite N.min_r in Hmin by done. by rewrite Hmin.
Qed.


Lemma pause_resume_exactly_once_witness :
  let sys := play pause_acts (init (sample_stream 20) [sample_mem; sample_mem]) in
  delivered_updates sys ≡ₚ file_updates (sample_stream 20).
Proof.
  intros sys.
  destruct (pause_resume_exactly_once 3 sample_file PreadFull PreadFull 20
              (sample_stream 20) [sample_mem; sample_mem] pause_acts)
    as (n & _ & _ & _ & _ & H).
  - apply new_sample_stream.
  - vm_compute. reflexivity.
  - vm_compute. discriminate.
  - vm_compute. reflexivity.
  - vm_compute. reflexivity.
  - vm_compute. repeat constructor.
  - destruct H as (_ & _ & Hall).
    + vm_compute. repeat constructor.
    + apply Hall. vm_compute. discriminate.
Defined.

(** X11.  What on_demand_query stops.  From the moment the pause flag is
    set, whatever the readers do, stream_off advances by at most one block for
    each reader that was inside read_data, between the check of line 157 and
    its fetch_add, at that moment: no reader starts a new fetch, and the
    number of readers inside read_data does not grow. *)
Theorem pause_bounds_progress fd content k1 k2 b s mems acts sched :
  new (Opened fd content) k1 k2 b = Returned s →
  N.of_nat (length content) = header_size + edge_size * num_edges s →
  edge_size <= b → b < 2 ^ 32 →
  header_size + edge_size * num_edges s + (N.of_nat (length mems) + 1) * b < 2 ^ 64 →
  Forall full_reads acts → Forall full_read sched →
  let sys1 := play acts (init s mems) in
  let sys2 := run sched (act sys1 Pause) in
  query_block (stream sys2) = true
  ∧ inside (readers sys2) <= inside (readers sys1)
  ∧ stream_off (stream sys2) + inside (readers sys2) * buf_size s
    <= stream_off (stream sys1) + inside (readers sys1) * buf_size s.
Proof.
  intros Hnew Hlen Hb1 Hb2 Hw Hfull Hsched sys1 sys2.
  destruct (new_well_formed _ _ _ _ _ _ (length mems) Hnew Hlen Hb1 Hb2 Hw)
    as (Hf & Hso & Hqi & Hqb & He & Hsane & Hbs9 & Hwrap).
  assert (limit s = end_of_file s) as Hlim.
  { unfold limit. rewrite Hqi. unfold UINT64_MAX.
    remember ((N.of_nat (length mems) + 1) * buf_size s) as X. lia. }
  assert (stream_off s <= limit s) as Hstart.
  { rewrite Hlim, Hso, He. lia. }
  assert ((edge_size | limit s - stream_off s)) as Halign.
  { rewrite Hlim, Hso, He. exists (num_edges s). lia. }
  assert (winv s (length mems) (act sys1 Pause)) as Hinv.
  { eapply winv_act; try done. eapply winv_play; try done.
    eapply inv_winv; try done. by apply inv_init. }
  assert (query_block (stream (act sys1 Pause)) = true) as Hq by done.
  assert (paused_run_ok :
    winv s (length mems) (run sched (act sys1 Pause))
    ∧ query_block (stream (run sched (act sys1 Pause))) = true
    ∧ slack (readers (act sys1 Pause)) <= slack (readers (run sched (act sys1 Pause)))
    ∧ stream_off (stream (run sched (act sys1 Pause)))
        + slack (readers (act sys1 Pause)) * buf_size s
      <= stream_off (stream (act sys1 Pause))
         + slack (readers (run sched (act sys1 Pause))) * buf_size s).
  { eapply paused_run; try done. }
  destruct paused_run_ok as (Hinv2 & Hq2 & Hs1 & Hs2).
  fold sys2 in Hinv2, Hq2, Hs1, Hs2.
  change (readers (act sys1 Pause)) with (readers sys1) in *.
  change (stream_off (stream (act sys1 Pause))) with (stream_off (stream sys1)) in *.
  pose proof (inside_slack (readers sys1)) as Hi1.
  pose proof (inside_slack (readers sys2)) as Hi2.
  rewrite (wi_len _ _ _ Hinv2) in Hi2.
  change (length (readers sys1)) with (length (readers (act sys1 Pause))) in Hi1.
  rewrite (wi_len _ _ _ Hinv) in Hi1.
  split; [done|]. split; [lia|]. nia.
Qed.

Lemma pause_bounds_progress_witness :
  let sys1 := play [Reader (0%nat, [PreadFull])]
                   (init (sample_stream 20) [sample_mem; sample_mem]) in
  let sys2 := run (map (fun i => (i, [PreadFull])) [0; 1; 0; 0; 0; 0; 1]%nat)
                  (act sys1 Pause) in
  stream_off (stream sys2) + inside (readers sys2) * 18
  <= stream_off (stream sys1) + inside (readers sys1) * 18.
Proof.
  intros sys1 sys2.
  destruct (pause_bounds_progress 3 sample_file PreadFull PreadFull 20
              (sample_stream 20) [sample_mem; sample_mem]
              [Reader (0%nat, [PreadFull])]
              (map (fun i => (i, [PreadFull])) [0; 1; 0; 0; 0; 0; 1]%nat))
    as (_ & _ & H).
  - apply new_sample_stream.
  - vm_compute. reflexivity.
  - vm_compute. discriminate.
  - vm_compute. reflexivity.
  - vm_compute. reflexivity.
  - vm_compute. repeat constructor.
  - vm_compute. repeat constructor.
  - exact H.
Defined.

End Pauses.

Section Uninterrupted.
Import BinaryGraphStream_MT StreamSpec Readers ReadersSpec.






End Uninterrupted.

Section Invalidated.
Import Graph.

(** X14.  Graph::update once the DSU is not trusted.  In a build without
    USE_EAGER_DSU, and in an eager build once dsu_valid is false, any run of
    updates on an unlocked graph returns, hands both orientations of every
    edge to the guttering system, in order, and leaves parent, size and the
    spanning forest as they were; dsu_valid is false after the first update
    and update never sets it again. *)
Theorem updates_when_invalid eager lhs fuel g us :
  update_locked g = false → eager = false ∨ dsu_valid g = false →
  ∃ g', apply_updates eager lhs fuel g us = (g', Returned tt)
        ∧ parent g' = parent g ∧ size g' = size g
        ∧ spanning_forest g' = spanning_forest g
        ∧ num_nodes g' = num_nodes g ∧ update_locked g' = false
        ∧ dsu_valid g' = dsu_valid g && bool_decide (us = [])
        ∧ gts g' = gts g ++ gutter_calls us.
Proof.
  revert g. induction us as [|[[u thr] cas] us IH]; intros g Hl Hc.
  - exists g. cbn. rewrite andb_true_r, app_nil_r. done.
  - cbn [apply_updates]. unfold update. rewrite Hl.
    set (g0 := gts_insert _ thr (gts_insert _ thr g)).
    assert (∃ g1, (if eager
                   then eager_dsu_step lhs fuel cas g0
                          (mkEdge (dst (edge u)) (src (edge u)))
                   else (set_dsu_valid false g0, Returned tt)) = (g1, Returned tt)
                  ∧ parent g1 = parent g ∧ size g1 = size g
                  ∧ spanning_forest g1 = spanning_forest g
                  ∧ num_nodes g1 = num_nodes g ∧ update_locked g1 = false
                  ∧ dsu_valid g1 = false
                  ∧ gts g1 = gts g ++ [(mkEdge (src (edge u)) (dst (edge u)), thr);
                                       (mkEdge (dst (edge u)) (src (edge u)), thr)])
      as (g1 & -> & Hp & Hs & Hf & Hn & Hl1 & Hv & Hg).
    { destruct eager.
      - destruct Hc as [|Hv]; [done|]. unfold eager_dsu_step.
        change (dsu_valid g0) with (dsu_valid g). rewrite Hv.
        exists g0. subst g0. split_and!; try done.
        cbn [gts gts_insert]. rewrite <- app_assoc. reflexivity.
      - exists (set_dsu_valid false g0). subst g0. split_and!; try done.
        cbn [gts gts_insert set_dsu_valid]. rewrite <- app_assoc. reflexivity. }
    destruct (IH g1 Hl1) as (g' & Hrun & Hp' & Hs' & Hf' & Hn' & Hl' & Hv' & Hg');
      [by right|].
    exists g'. rewrite Hrun. split; [done|].
    rewrite Hp', Hs', Hf', Hn', Hv', Hg', Hp, Hs, Hf, Hn, Hv, Hg.
    split_and!; try done.
    + rewrite (bool_decide_eq_false_2 ((u, thr, cas) :: us = [])) by done.
      by rewrite andb_false_r.
    + unfold gutter_calls. cbn. by rewrite <- app_assoc.
Qed.

Lemma updates_when_invalid_witness :
  ∃ g', apply_updates true true 0 (set_dsu_valid false sample_graph)
          [(ins 0 1, 0%Z, []); (del 2 3, 1%Z, [])] = (g', Returned tt)
        ∧ parent g' = [0; 1; 2; 3]
        ∧ gts g' = [(mkEdge 0 1, 0%Z); (mkEdge 1 0, 0%Z);
                    (mkEdge 2 3, 1%Z); (mkEdge 3 2, 1%Z)].
Proof.
  destruct (updates_when_invalid true true 0 (set_dsu_valid false sample_graph)
              [(ins 0 1, 0%Z, []); (del 2 3, 1%Z, [])])
    as (g' & Hrun & Hp & _ & _ & _ & _ & _ & Hg).
  - reflexivity.
  - right. reflexivity.
  - exists g'. split; [exact Hrun|]. split; [exact Hp|exact Hg].
Defined.

End Invalidated.

Section Merge.
Import Graph DsuSpec DsuMerge.

(* hanging root [l] below root [w]: every node keeps its root, except that
   the nodes below [l] now have root [w] *)
Lemma link_root_of (par : list N) l w :
  par !! N.to_nat l = Some l → par !! N.to_nat w = Some w → l ≠ w →
  ∀ y r, root_of (<[N.to_nat l := w]> par) y r
         ↔ ∃ r0, root_of par y r0 ∧ r = (if decide (r0 = l) then w else r0).
Proof.
  intros Hl Hw Hne y r.
  assert (N.to_nat l < length par)%nat as Hlen by by eapply lookup_lt_Some.
  split.
  - induction 1 as [y Hy|y p r Hy Hp Hr IH].
    + rewrite lookup_insert_N in Hy by done. case_decide; simplify_eq.
      exists y. split; [by apply root_self|]. by rewrite decide_False.
    + rewrite lookup_insert_N in Hy by done. case_decide; simplify_eq.
      * destruct IH as (r0 & Hr0 & ->).
        assert (r0 = p) as ->
          by (apply (root_of_unique par p); [done|by apply root_self]).
        exists y. split; [by apply root_self|].
        by repeat case_decide.
      * destruct IH as (r0 & Hr0 & ->). exists r0. split; [|done].
        by eapply root_step.
  - intros (r0 & Hr0 & ->).
    induction Hr0 as [y Hy|y p r0 Hy Hp Hr0 IH].
    + case_decide as Hyl.
      * subst y. eapply root_step; [by rewrite lookup_insert_N, decide_True|done|].
        apply root_self. by rewrite lookup_insert_N, decide_False.
      * apply root_self. by rewrite lookup_insert_N, decide_False.
    + eapply root_step; [|done|done].
      rewrite lookup_insert_N by done. rewrite decide_False; [done|].
      intros ->. congruence.
Qed.

Lemma forest_weaken par rank R R' :
  (R ≤ R')%nat → forest par rank R → forest par rank R'.
Proof.
  intros Hle Hf x p Hx. destruct (Hf x p Hx) as (H1 & H2 & H3).
  split; [done|]. split; [lia|done].
Qed.

Lemma forest_link par rank R l w :
  forest par rank R →
  par !! N.to_nat l = Some l → par !! N.to_nat w = Some w → l ≠ w →
  forest (<[N.to_nat l := w]> par) (lifted rank R w) (2 * R + 1).
Proof.
  intros Hf Hl Hw Hne x p Hx.
  assert (N.to_nat l < length par)%nat as Hlen by by eapply lookup_lt_Some.
  rewrite length_insert. unfold lifted.
  rewrite lookup_insert_N in Hx by done.
  destruct (Hf l l Hl) as (_ & Hrl & _). destruct (Hf w w Hw) as (Hwl & Hrw & _).
  case_decide as Hlx; simplify_eq.
  - rewrite decide_False by done. rewrite decide_True by done.
    split; [done|]. split; lia.
  - destruct (Hf x p Hx) as (Hpl & Hrx & Hlt).
    split; [done|]. split; [case_decide; lia|].
    intros Hpx. specialize (Hlt Hpx).
    destruct (decide (x = w)) as [->|Hxw]; [congruence|].
    case_decide; lia.
Qed.

(* the union loop from the two endpoints of an edge, with what it leaves of
   the forest *)
Lemma union_loop_wf lhs fuel cas g src_ dst_ rank R f :
  dsu_wf g rank R →
  spanning_forest g !! N.to_nat src_ = Some f →
  (N.to_nat dst_ < length (parent g))%nat →
  (R < fuel)%nat → (length cas < fuel)%nat →
  ∃ par ra rb,
    root_of (parent g) src_ ra ∧ root_of (parent g) dst_ rb
    ∧ forest par rank R ∧ length par = length (parent g)
    ∧ (∀ y r, root_of par y r ↔ root_of (parent g) y r)
    ∧ if decide (ra = rb)
      then union_loop lhs fuel cas g src_ dst_ src_ dst_ = (set_parent par g, Returned tt)
      else ∃ w l sw sl,
          by_size (size g) ra rb = Some (w, l, sw, sl)
          ∧ ((w = ra ∧ l = rb) ∨ (w = rb ∧ l = ra))
          ∧ union_loop lhs fuel cas g src_ dst_ src_ dst_
            = (linked g par w l sw sl src_ dst_ f, Returned tt).
Proof.
  intros [Hf Hsz Hsf] Hlook Hd HR Hcas.
  assert (N.to_nat src_ < length (parent g))%nat as Hs.
  { rewrite <- Hsf. by eapply lookup_lt_Some. }
  destruct fuel as [|fuel]; [lia|].
  destruct (find_both_spec lhs (S fuel) (parent g) rank R src_ dst_ Hf Hs Hd HR)
    as (par & ra & rb & Hfb & Hra & Hrb & Hf' & Hlen & Heq).
  exists par, ra, rb. split; [done|]. split; [done|]. split; [done|].
  split; [done|]. split; [done|].
  case_decide as Hab.
  - subst rb. cbn [union_loop]. rewrite Hfb. cbn zeta beta iota.
    by rewrite N.eqb_refl.
  - assert (par !! N.to_nat ra = Some ra) as Hpa.
    { eapply root_of_is_root. by apply Heq. }
    assert (par !! N.to_nat rb = Some rb) as Hpb.
    { eapply root_of_is_root. by apply Heq. }
    destruct (lookup_lt_is_Some_2 (size g) (N.to_nat ra)) as [sa Hsa].
    { rewrite Hsz, <- Hlen. by eapply lookup_lt_Some. }
    destruct (lookup_lt_is_Some_2 (size g) (N.to_nat rb)) as [sb Hsb].
    { rewrite Hsz, <- Hlen. by eapply lookup_lt_Some. }
    pose proof (union_loop_turn lhs fuel cas g src_ dst_ src_ dst_ par ra rb sa sb f
                  Hfb Hab Hsa Hsb Hpa Hpb Hlook) as Ht.
    unfold by_size. rewrite Hsa, Hsb.
    destruct (N.ltb_spec sa sb) as [Hlt|Hge]; destruct Ht as [Hle Ht];
      eexists _, _, _, _; (split; [done|]); (split; [tauto|]); rewrite Ht;
      (destruct cas as [|[] cas]; [done| |done]); cbn [hd tl].
    + rewrite (union_loop_roots lhs cas fuel (set_parent par g) src_ dst_ rb ra
                 rb ra sb sa f); try done; [|simpl in Hcas; lia].
      unfold by_size. cbn. rewrite Hsa, Hsb.
      by destruct (N.ltb_spec sb sa); [lia|].
    + rewrite (union_loop_roots lhs cas fuel (set_parent par g) src_ dst_ ra rb
                 ra rb sa sb f); try done; [|simpl in Hcas; lia].
      unfold by_size. cbn. rewrite Hsa, Hsb.
      by destruct (N.ltb_spec sa sb); [lia|].
Qed.

Lemma same_set_roots par par' :
  (∀ y r, root_of par' y r ↔ root_of par y r) →
  ∀ x y, same_set par' x y ↔ same_set par x y.
Proof.
  intros H x y. unfold same_set. split; intros (r & Hx & Hy); exists r;
    split; by apply H.
Qed.

(* the sets after root [l] has been hung below root [w] *)
Lemma same_set_link (par : list N) l w a b :
  par !! N.to_nat l = Some l → par !! N.to_nat w = Some w → l ≠ w →
  ((root_of par a l ∧ root_of par b w) ∨ (root_of par a w ∧ root_of par b l)) →
  ∀ x y, same_set (<[N.to_nat l := w]> par) x y
         ↔ same_set par x y
           ∨ (same_set par x a ∧ same_set par y b)
           ∨ (same_set par x b ∧ same_set par y a).
Proof.
  intros Hl Hw Hne Hab x y. unfold same_set. split.
  - intros (r & Hx & Hy).
    apply (link_root_of par l w Hl Hw Hne) in Hx as (rx & Hx & Ex).
    apply (link_root_of par l w Hl Hw Hne) in Hy as (ry & Hy & Ey).
    destruct (decide (rx = ry)) as [->|Hxy]; [left; by exists ry|].
    right. subst r.
    assert ((rx = l ∧ ry = w) ∨ (rx = w ∧ ry = l)) as Hc.
    { repeat case_decide; subst; try done; auto. }
    destruct Hab as [[Ha Hb]|[Ha Hb]]; destruct Hc as [[-> ->]|[-> ->]].
    + left. split; [by exists l|by exists w].
    + right. split; [by exists w|by exists l].
    + right. split; [by exists l|by exists w].
    + left. split; [by exists w|by exists l].
  - assert (∀ z rz, root_of par z rz →
              root_of (<[N.to_nat l := w]> par) z (if decide (rz = l) then w else rz))
      as Hup.
    { intros z rz Hz. apply (link_root_of par l w Hl Hw Hne). by exists rz. }
    assert (∀ z, root_of par z l ∨ root_of par z w →
                 root_of (<[N.to_nat l := w]> par) z w) as Hlw.
    { intros z [Hz|Hz]; apply Hup in Hz.
      - by rewrite decide_True in Hz.
      - by rewrite decide_False in Hz. }
    assert (∀ z c rc, same_set par z c → root_of par c rc → root_of par z rc) as Hsame.
    { intros z c rc (r & Hz & Hc) Hrc.
      by rewrite (root_of_unique _ _ _ _ Hrc Hc). }
    intros [(r & Hx & Hy)|[[Hxa Hyb]|[Hxb Hya]]].
    + eexists. split; by apply Hup.
    + exists w. destruct Hab as [[Ha Hb]|[Ha Hb]];
        split; apply Hlw; eauto.
    + exists w. destruct Hab as [[Ha Hb]|[Ha Hb]];
        split; apply Hlw; eauto.
Qed.

(* an eager update on an edge that is not recorded *)
Lemma eager_update_step lhs fuel cas g upd thr rank R f :
  let src_ := N.min (src (edge upd)) (dst (edge upd)) in
  let dst_ := N.max (src (edge upd)) (dst (edge upd)) in
  update_locked g = false → dsu_valid g = true →
  spanning_forest g !! N.to_nat src_ = Some f → dst_ ∉ f →
  dsu_wf g rank R → (N.to_nat dst_ < length (parent g))%nat →
  (R < fuel)%nat → (length cas < fuel)%nat →
  ∃ g' rank',
    update true lhs fuel cas g upd thr = (g', Returned tt)
    ∧ dsu_wf g' rank' (2 * R + 1)
    ∧ dsu_valid g' = true ∧ update_locked g' = false
    ∧ length (parent g') = length (parent g)
    ∧ (∀ x y, same_set (parent g') x y
              ↔ same_set (parent g) x y
                ∨ (same_set (parent g) x src_ ∧ same_set (parent g) y dst_)
                ∨ (same_set (parent g) x dst_ ∧ same_set (parent g) y src_))
    ∧ (same_set (parent g) src_ dst_ → spanning_forest g' = spanning_forest g)
    ∧ (¬ same_set (parent g) src_ dst_ →
       spanning_forest g' = <[N.to_nat src_ := {[dst_]} ∪ f]> (spanning_forest g)).
Proof.
  intros src_ dst_ Hl Hv Hf Hnin Hwf Hd HR Hcas.
  rewrite update_eager_unfold by done.
  unfold eager_dsu_step. cbn [src dst].
  rewrite (N.min_comm (dst (edge upd))), (N.max_comm (dst (edge upd))).
  fold src_ dst_.
  set (g0 := gts_insert _ thr (gts_insert _ thr g)).
  change (dsu_valid g0) with (dsu_valid g). rewrite Hv.
  change (spanning_forest g0) with (spanning_forest g). rewrite Hf.
  rewrite decide_False by done.
  assert (dsu_wf g0 rank R) as Hwf0 by (destruct Hwf; by constructor).
  destruct (union_loop_wf lhs fuel cas g0 src_ dst_ rank R f Hwf0 Hf Hd HR Hcas)
    as (par & ra & rb & Hra & Hrb & Hfp & Hlen & Heq & Hu).
  change (parent g0) with (parent g) in *.
  destruct Hwf as [Hfo Hsz Hsf].
  assert (same_set (parent g) src_ dst_ ↔ ra = rb) as Hsame.
  { split.
    - intros (r & H1 & H2).
      by rewrite (root_of_unique _ _ _ _ Hra H1), (root_of_unique _ _ _ _ Hrb H2).
    - intros ->. by exists rb. }
  case_decide as Hab.
  - (* already in one set *)
    rewrite Hu. exists (set_parent par g0), rank.
    split; [done|]. split.
    { constructor; cbn [parent size spanning_forest set_parent g0 gts_insert].
      - by eapply forest_weaken; [|done]; lia.
      - congruence.
      - congruence. }
    split; [done|]. split; [done|]. split; [done|]. split.
    + intros x y. cbn [parent set_parent]. rewrite (same_set_roots _ _ Heq).
      split; [by left|]. intros [H|[[Hx Hy]|[Hx Hy]]]; [done| |].
      * destruct Hx as (r1 & Hx1 & Hs1). destruct Hy as (r2 & Hy2 & Hd2).
        exists r1. split; [done|].
        rewrite (root_of_unique _ _ _ _ Hs1 Hra), Hab,
          <- (root_of_unique _ _ _ _ Hd2 Hrb). done.
      * destruct Hx as (r1 & Hx1 & Hd1). destruct Hy as (r2 & Hy2 & Hs2).
        exists r1. split; [done|].
        rewrite (root_of_unique _ _ _ _ Hd1 Hrb), <- Hab,
          <- (root_of_unique _ _ _ _ Hs2 Hra). done.
    + split; [done|]. intros Hn. exfalso. by apply Hn, Hsame.
  - destruct Hu as (w & l & sw & sl & Hby & Hwl & ->).
    assert (par !! N.to_nat ra = Some ra) as Hpa.
    { eapply root_of_is_root. by apply Heq. }
    assert (par !! N.to_nat rb = Some rb) as Hpb.
    { eapply root_of_is_root. by apply Heq. }
    assert (par !! N.to_nat l = Some l ∧ par !! N.to_nat w = Some w ∧ l ≠ w)
      as (Hpl & Hpw & Hlw) by (destruct Hwl as [[-> ->]|[-> ->]]; done).
    exists (linked g0 par w l sw sl src_ dst_ f), (lifted rank R w).
    split; [done|]. split.
    { constructor; cbn [parent size spanning_forest linked g0 gts_insert].
      - by apply forest_link.
      - rewrite !length_insert. congruence.
      - rewrite !length_insert. congruence. }
    split; [done|]. split; [done|].
    split; [cbn [parent linked]; by rewrite length_insert|]. split.
    + intros x y. cbn [parent linked].
      rewrite (same_set_link par l w src_ dst_ Hpl Hpw Hlw).
      * by rewrite !(same_set_roots _ _ Heq).
      * destruct Hwl as [[-> ->]|[-> ->]]; [right|left]; split; by apply Heq.
    + split; [|done]. intros Hn. exfalso. by apply Hab, Hsame.
Qed.

(** X15.  An eager update that is not a recorded tree edge, on a well-formed
    disjoint-set forest (get_parent taken as the path-halving find, the thread
    running alone): the call returns and leaves a well-formed forest,
    dsu_valid stays set, and afterwards two nodes are in the same set exactly
    when they were before or when one was in the set of one endpoint and the
    other in the set of the other endpoint: the update merges the sets of its
    two endpoints and nothing else.  The edge is recorded in the spanning
    forest exactly when the two sets were different. *)
Theorem eager_update_merges lhs fuel cas g upd thr rank R f :
  let src_ := N.min (src (edge upd)) (dst (edge upd)) in
  let dst_ := N.max (src (edge upd)) (dst (edge upd)) in
  update_locked g = false → dsu_valid g = true →
  spanning_forest g !! N.to_nat src_ = Some f → dst_ ∉ f →
  dsu_wf g rank R → (N.to_nat dst_ < length (parent g))%nat →
  (R < fuel)%nat → (length cas < fuel)%nat →
  ∃ g' rank',
    update true lhs fuel cas g upd thr = (g', Returned tt)
    ∧ dsu_wf g' rank' (2 * R + 1)
    ∧ dsu_valid g' = true ∧ update_locked g' = false
    ∧ length (parent g') = length (parent g)
    ∧ (∀ x y, same_set (parent g') x y
              ↔ same_set (parent g) x y
                ∨ (same_set (parent g) x src_ ∧ same_set (parent g) y dst_)
                ∨ (same_set (parent g) x dst_ ∧ same_set (parent g) y src_))
    ∧ (same_set (parent g) src_ dst_ → spanning_forest g' = spanning_forest g)
    ∧ (¬ same_set (parent g) src_ dst_ →
       spanning_forest g' = <[N.to_nat src_ := {[dst_]} ∪ f]> (spanning_forest g)).
Proof. apply eager_update_step. Qed.

Lemma eager_update_merges_witness :
  ∃ g', Graph.update true true 4 [true; false] sample_graph (ins 2 1) 0%Z
        = (g', Returned tt)
        ∧ same_set (parent g') 1 2.
Proof.
  destruct (eager_update_merges true 4 [true; false] sample_graph (ins 2 1) 0%Z
              (fun _ => 0%nat) 0 ∅)
    as (g' & rank' & Hu & _ & _ & _ & _ & Hs & _ & _).
  - reflexivity.
  - reflexivity.
  - reflexivity.
  - set_solver.
  - exact sample_graph_wf.
  - vm_compute. lia.
  - lia.
  - simpl. lia.
  - exists g'. split; [exact Hu|]. apply Hs. right. left.
    split; [exists 1|exists 2]; split; apply root_self; reflexivity.
Defined.

End Merge.

Section Connectivity.
Import Graph DsuSpec DsuMerge.

Lemma same_set_sym par x y : same_set par x y → same_set par y x.
Proof. intros (r & Hx & Hy). by exists r. Qed.

Lemma same_set_trans par x y z :
  same_set par x y → same_set par y z → same_set par x z.
Proof.
  intros (r & Hx & Hy) (r' & Hy' & Hz). exists r. split; [done|].
  by rewrite (root_of_unique _ _ _ _ Hy Hy').
Qed.

Lemma root_of_lt par x r : root_of par x r → (N.to_nat x < length par)%nat.
Proof. destruct 1; by eapply lookup_lt_Some. Qed.

Lemma root_exists par rank R x :
  forest par rank R → (N.to_nat x < length par)%nat → ∃ r, root_of par x r.
Proof.
  intros Hf Hx.
  destruct (get_parent_spec (S R) par rank R x Hf Hx) as (? & r & _ & Hr & _); [lia|].
  by exists r.
Qed.

Lemma same_set_refl par rank R x :
  forest par rank R → (N.to_nat x < length par)%nat → same_set par x x.
Proof. intros Hf Hx. destruct (root_exists par rank R x Hf Hx) as [r Hr]. by exists r. Qed.

Lemma same_set_decide par rank R x y :
  forest par rank R → (N.to_nat x < length par)%nat → (N.to_nat y < length par)%nat →
  same_set par x y ∨ ¬ same_set par x y.
Proof.
  intros Hf Hx Hy.
  destruct (root_exists par rank R x Hf Hx) as [rx Hrx].
  destruct (root_exists par rank R y Hf Hy) as [ry Hry].
  destruct (decide (rx = ry)) as [->|Hne]; [left; by exists ry|].
  right. intros (r & H1 & H2). apply Hne.
  by rewrite (root_of_unique _ _ _ _ Hrx H1), (root_of_unique _ _ _ _ Hry H2).
Qed.

Lemma recorded_insert (sf : list (gset N)) a b f c d :
  sf !! N.to_nat a = Some f →
  recorded (<[N.to_nat a := {[b]} ∪ f]> sf) c d ↔ recorded sf c d ∨ (c = a ∧ d = b).
Proof.
  intros Ha. assert (N.to_nat a < length sf)%nat as Hlt by by eapply lookup_lt_Some.
  unfold recorded. destruct (decide (c = a)) as [->|Hne].
  - rewrite list_lookup_insert_eq by done. split.
    + intros (f' & [= <-] & Hd). apply elem_of_union in Hd as [Hd|Hd].
      * right. split; [done|]. by apply elem_of_singleton in Hd.
      * left. by exists f.
    + intros [(f' & Hf' & Hd)|[_ ->]]; eexists; (split; [done|]).
      * simplify_eq. by apply elem_of_union_r.
      * apply elem_of_union_l. by apply elem_of_singleton.
  - rewrite list_lookup_insert_ne by lia. split; [by left|]. by intros [?|[? _]].
Qed.

Lemma toggles_app us vs e : toggles (us ++ vs) e = (toggles us e + toggles vs e)%nat.
Proof. unfold toggles. by rewrite filter_app, length_app. Qed.

Lemma toggles_one x e :
  toggles [x] e = if decide (ends x.1.1 = e) then 1%nat else 0%nat.
Proof. unfold toggles. rewrite filter_cons, filter_nil. by case_decide. Qed.

Lemma toggles_zero us e : (∀ x, x ∈ us → ends x.1.1 ≠ e) → toggles us e = 0%nat.
Proof.
  intros H. unfold toggles. induction us as [|x us IH]; [done|].
  rewrite filter_cons. rewrite decide_False by (apply H; left).
  apply IH. intros y Hy. apply H. by right.
Qed.

Lemma toggles_elem us e : (0 < toggles us e)%nat → ∃ x, x ∈ us ∧ ends x.1.1 = e.
Proof.
  unfold toggles. induction us as [|x us IH]; [cbn; lia|].
  rewrite filter_cons. case_decide as Hx.
  - intros _. exists x. split; [left|done].
  - intros H. destruct (IH H) as (y & Hy & E). exists y. split; [by right|done].
Qed.

(* an eager update that finds dsu_valid unset *)
Lemma apply_updates_invalid lhs fuel us : ∀ g,
  update_locked g = false → dsu_valid g = false →
  ∃ g', apply_updates true lhs fuel g us = (g', Returned tt)
        ∧ dsu_valid g' = false ∧ parent g' = parent g.
Proof.
  induction us as [|[[u thr] cas] us IH]; intros g Hl Hv; [by exists g|].
  cbn [apply_updates]. rewrite update_eager_unfold by done.
  unfold eager_dsu_step.
  set (g0 := gts_insert _ thr (gts_insert _ thr g)).
  change (dsu_valid g0) with (dsu_valid g). rewrite Hv.
  destruct (IH g0) as (g' & -> & Hv' & Hp); [done..|]. by exists g'.
Qed.

(* one eager update while the forests track the updates *)
Lemma update_tracks lhs fuel g pre rank R u thr cas :
  tracks g pre rank R → dsu_valid g = true →
  (N.to_nat (ends u).2 < length (parent g))%nat →
  (R < fuel)%nat → (length cas < fuel)%nat →
  ∃ g', update true lhs fuel cas g u thr = (g', Returned tt)
        ∧ update_locked g' = false
        ∧ length (parent g') = length (parent g)
        ∧ (dsu_valid g' = true → ∃ rank', tracks g' (pre ++ [(u, thr, cas)]) rank' (2 * R + 1))
        ∧ (dsu_valid g' = false → (2 ≤ toggles (pre ++ [(u, thr, cas)]) (ends u))%nat).
Proof.
  intros [Hwf Hl Hrec Hspan Hseen] Hv Hb HR Hcas.
  set (a := N.min (src (edge u)) (dst (edge u))).
  set (b := N.max (src (edge u)) (dst (edge u))).
  change (ends u) with (a, b) in *. cbn [snd] in Hb.
  assert (a <= b) as Hab by lia.
  assert (N.to_nat a < length (parent g))%nat as Ha by lia.
  destruct (lookup_lt_is_Some_2 (spanning_forest g) (N.to_nat a)) as [f Hf].
  { by rewrite (wf_spanning_forest _ _ _ Hwf). }
  destruct (decide (b ∈ f)) as [Hin|Hnin].
  - (* the edge is recorded: the DSU is given up *)
    rewrite update_eager_unfold by done.
    unfold eager_dsu_step. cbn [src dst].
    rewrite (N.min_comm (dst (edge u))), (N.max_comm (dst (edge u))).
    fold a b.
    set (g0 := gts_insert _ thr (gts_insert _ thr g)).
    change (dsu_valid g0) with (dsu_valid g). rewrite Hv.
    change (spanning_forest g0) with (spanning_forest g). rewrite Hf.
    rewrite decide_True by done.
    eexists. split; [done|]. split; [done|]. split; [done|].
    split; [done|]. intros _.
    destruct (Hrec a b) as (_ & Hone & _); [by exists f|].
    rewrite toggles_app, toggles_one, Hone. cbn [fst].
    change (ends u) with (a, b). rewrite decide_True by done. lia.
  - destruct (eager_update_step lhs fuel cas g u thr rank R f Hl Hv Hf Hnin Hwf Hb HR Hcas)
      as (g' & rank' & Hu & Hwf' & Hv' & Hl' & Hlen & Hsame & Hsf1 & Hsf2).
    fold a b in Hsame, Hsf1, Hsf2.
    exists g'. split; [done|]. split; [done|]. split; [done|].
    split; [|congruence]. intros _. exists rank'.
    assert (same_set (parent g) a a) as Haa
      by (eapply same_set_refl; [apply Hwf|done]).
    assert (same_set (parent g) b b) as Hbb
      by (eapply same_set_refl; [apply Hwf|done]).
    assert (same_set (parent g') a b) as Hab'.
    { apply Hsame. right. left. done. }
    assert (∀ x y, same_set (parent g) x y → same_set (parent g') x y) as Hmono.
    { intros x y H. apply Hsame. by left. }
    destruct (same_set_decide (parent g) rank R a b (wf_forest _ _ _ Hwf) Ha Hb)
      as [Hconn|Hnconn].
    + (* the endpoints were in one set already *)
      specialize (Hsf1 Hconn).
      assert (∀ x y, same_set (parent g') x y → same_set (parent g) x y) as Hback.
      { intros x y H. apply Hsame in H as [H|[[Hx Hy]|[Hx Hy]]]; [done| |].
        - eapply same_set_trans; [exact Hx|]. eapply same_set_trans; [exact Hconn|].
          by apply same_set_sym.
        - eapply same_set_trans; [exact Hx|]. eapply same_set_trans;
            [apply same_set_sym; exact Hconn|]. by apply same_set_sym. }
      constructor; [done|done| | |].
      * rewrite Hsf1. intros c d Hcd. destruct (Hrec c d Hcd) as (H1 & H2 & H3).
        split; [by apply Hmono|]. split; [|done].
        rewrite toggles_app, toggles_one, H2. cbn [fst].
        change (ends u) with (a, b).
        rewrite decide_False; [done|]. intros [= -> ->].
        destruct Hcd as (f' & Hf' & Hd). congruence.
      * rewrite Hsf1. intros x y H. by apply Hspan, Hback.
      * intros x Hx. apply elem_of_app in Hx as [Hx|Hx].
        -- by apply Hmono, Hseen.
        -- apply list_elem_of_singleton in Hx as ->. done.
    + (* two sets become one, and the edge is recorded *)
      specialize (Hsf2 Hnconn).
      constructor; [done|done| | |].
      * rewrite Hsf2. intros c d Hcd.
        apply (recorded_insert _ a b f c d Hf) in Hcd as [Hcd|[-> ->]].
        -- destruct (Hrec c d Hcd) as (H1 & H2 & H3).
           split; [by apply Hmono|]. split; [|done].
           rewrite toggles_app, toggles_one, H2. cbn [fst].
           change (ends u) with (a, b).
           rewrite decide_False; [done|]. intros [= -> ->].
           destruct Hcd as (f' & Hf' & Hd). congruence.
        -- split; [done|]. split; [|done].
           rewrite toggles_app, toggles_one. cbn [fst].
           change (ends u) with (a, b). rewrite decide_True by done.
           rewrite toggles_zero; [done|].
           intros x Hx E. apply Hnconn. specialize (Hseen x Hx).
           by rewrite E in Hseen.
      * rewrite Hsf2.
        assert (∀ x y, rtsc (recorded (spanning_forest g)) x y →
                       rtsc (recorded (<[N.to_nat a := {[b]} ∪ f]> (spanning_forest g))) x y)
          as Hup.
        { intros x y H. eapply rtc_subrel; [|done].
          intros c d [H'|H']; [left|right]; apply (recorded_insert _ a b f _ _ Hf);
            by left. }
        assert (rtsc (recorded (<[N.to_nat a := {[b]} ∪ f]> (spanning_forest g))) a b)
          as Hedge.
        { apply rtc_once. left. apply (recorded_insert _ a b f _ _ Hf). by right. }
        intros x y H. apply Hsame in H as [H|[[Hx Hy]|[Hx Hy]]].
        -- by apply Hup, Hspan.
        -- etrans; [by apply Hup, Hspan|]. etrans; [done|].
           by apply Hup, Hspan, same_set_sym.
        -- etrans; [by apply Hup, Hspan|]. etrans; [by apply (symmetry Hedge)|].
           by apply Hup, Hspan, same_set_sym.
      * intros x Hx. apply elem_of_app in Hx as [Hx|Hx].
        -- by apply Hmono, Hseen.
        -- apply list_elem_of_singleton in Hx as ->. done.
Qed.

Lemma toggles_le_app us vs e : (toggles us e ≤ toggles (us ++ vs) e)%nat.
Proof. rewrite toggles_app. lia. Qed.

Lemma apply_updates_tracks lhs rest : ∀ pre g rank R fuel,
  tracks g pre rank R → dsu_valid g = true →
  Forall (fun x : GraphUpdate * Z * list bool =>
            (N.to_nat (ends x.1.1).2 < length (parent g))%nat) rest →
  (enough R rest ≤ fuel)%nat →
  ∃ g', apply_updates true lhs fuel g rest = (g', Returned tt)
        ∧ length (parent g') = length (parent g)
        ∧ (dsu_valid g' = true → ∃ rank' R', tracks g' (pre ++ rest) rank' R')
        ∧ (dsu_valid g' = false → ∃ e, (2 ≤ toggles (pre ++ rest) e)%nat).
Proof.
  induction rest as [|[[u thr] cas] rest IH]; intros pre g rank R fuel Htr Hv Hall Hfuel.
  - exists g. rewrite app_nil_r. split; [done|]. split; [done|].
    split; [by exists rank, R|congruence].
  - apply Forall_cons in Hall as [Hu Hall]. cbn [fst] in Hu.
    cbn [enough snd] in Hfuel.
    destruct (update_tracks lhs fuel g pre rank R u thr cas Htr Hv Hu)
      as (g1 & Hup & Hl1 & Hlen1 & Hval & Hinv); [lia..|].
    cbn [apply_updates]. rewrite Hup.
    replace (pre ++ (u, thr, cas) :: rest) with ((pre ++ [(u, thr, cas)]) ++ rest)
      by by rewrite <- app_assoc.
    destruct (dsu_valid g1) eqn:Hv1.
    + destruct (Hval eq_refl) as [rank1 Htr1].
      destruct (IH (pre ++ [(u, thr, cas)]) g1 rank1 (2 * R + 1)%nat fuel Htr1 Hv1)
        as (g' & Hrun & Hlen & H1 & H2); [by rewrite Hlen1|lia|].
      exists g'. split; [done|]. split; [congruence|]. done.
    + destruct (apply_updates_invalid lhs fuel rest g1 Hl1 Hv1) as (g' & Hrun & Hv' & Hp).
      exists g'. split; [done|]. split; [congruence|].
      split; [congruence|]. intros _. exists (ends u).
      etrans; [by apply Hinv|]. apply toggles_le_app.
Qed.

(** X16.  Eager updates from a fresh disjoint-set forest (every node its own
    root, no edge recorded; get_parent taken as the path-halving find, the
    thread running alone): the run of updates returns, and as long as
    dsu_valid is still set the DSU is the connectivity of the graph that the
    updates describe, in which an edge is present when it has been named an odd
    number of times: two nodes are in the same set exactly when a path of
    present edges joins them, the edges recorded in spanning_forest are
    present edges, and they join the same nodes.  dsu_valid is unset only
    when some edge has been named twice. *)
Theorem eager_updates_connectivity lhs (n : nat) g us :
  parent g = map N.of_nat (seq 0 n) → length (size g) = n →
  spanning_forest g = replicate n ∅ →
  update_locked g = false → dsu_valid g = true →
  Forall (fun x : GraphUpdate * Z * list bool =>
            N.max (src (edge x.1.1)) (dst (edge x.1.1)) < N.of_nat n) us →
  ∃ fuel0, ∀ fuel, (fuel0 ≤ fuel)%nat →
    ∃ g', apply_updates true lhs fuel g us = (g', Returned tt)
      ∧ (dsu_valid g' = true →
         (∀ a b, recorded (spanning_forest g') a b → present us a b)
         ∧ ∀ x y, x < N.of_nat n → y < N.of_nat n →
             (same_set (parent g') x y ↔ connected us x y)
             ∧ (same_set (parent g') x y ↔ rtsc (recorded (spanning_forest g')) x y))
      ∧ (dsu_valid g' = false → ∃ e, (2 ≤ toggles us e)%nat).
Proof.
  intros Hp Hsz Hsf Hl Hv Hall.
  assert (length (parent g) = n) as Hlen by (by rewrite Hp, length_map, length_seq).
  assert (∀ x p, parent g !! N.to_nat x = Some p → p = x) as Hid.
  { intros x p. rewrite Hp, list_lookup_fmap.
    destruct (seq 0 n !! N.to_nat x) as [i|] eqn:E; [|done].
    apply lookup_seq in E as [-> _]. cbn. intros [= <-]. lia. }
  assert (tracks g [] (fun _ => 0%nat) 0) as Htr.
  { constructor.
    - constructor; [|congruence|by rewrite Hsf, length_replicate].
      intros x p Hx. pose proof (Hid x p Hx) as ->.
      split; [by eapply lookup_lt_Some|]. split; [lia|done].
    - done.
    - intros a b (f & Hf & Hb). rewrite Hsf in Hf.
      apply lookup_replicate in Hf as [-> _]. set_solver.
    - intros x y (r & Hx & Hy).
      assert (∀ z r', root_of (parent g) z r' → r' = z) as Hroot.
      { intros z r'. destruct 1 as [z Hz|z p r' Hz Hne _]; [done|].
        by apply Hid in Hz. }
      apply Hroot in Hx, Hy. subst. reflexivity.
    - intros x Hx. by apply elem_of_nil in Hx. }
  exists (enough 0 us). intros fuel Hfuel.
  destruct (apply_updates_tracks lhs us [] g (fun _ => 0%nat) 0%nat fuel Htr Hv)
    as (g' & Hrun & Hlen' & Hval & Hinv); [|done|].
  { eapply Forall_impl; [done|]. intros x Hx. cbn beta in Hx. cbn [ends snd]. rewrite Hlen. lia. }
  rewrite app_nil_l in Hval, Hinv.
  exists g'. split; [done|]. split; [|done].
  intros Hv'. destruct (Hval Hv') as (rank' & R' & [Hwf' _ Hrec Hspan Hseen]).
  assert (∀ a b, recorded (spanning_forest g') a b → present us a b) as Hpres.
  { intros a b Hab. destruct (Hrec a b Hab) as (_ & Hone & Hle).
    unfold present. rewrite N.min_l, N.max_r by done. by rewrite Hone. }
  split; [done|]. intros x y Hx Hy.
  assert (same_set (parent g') x x) as Hxx.
  { eapply same_set_refl; [apply Hwf'|]. lia. }
  assert (∀ c d, present us c d → same_set (parent g') c d) as Hps.
  { intros c d Hcd. unfold present in Hcd.
    destruct (toggles_elem us (N.min c d, N.max c d)) as (z & Hz & E).
    { destruct (toggles us _); [done|lia]. }
    specialize (Hseen z Hz). rewrite E in Hseen. cbn [fst snd] in Hseen.
    destruct (N.le_ge_cases c d).
    - by rewrite N.min_l, N.max_r in Hseen.
    - rewrite N.min_r, N.max_l in Hseen by done. by apply same_set_sym. }
  assert (∀ (P : relation N), (∀ c d, P c d → same_set (parent g') c d) →
            rtsc P x y → same_set (parent g') x y) as Hclose.
  { intros P HP H. induction H as [x|x z y Hxz _ IH]; [done|].
    assert (same_set (parent g') x z) as Hs
      by (destruct Hxz as [H|H]; [by apply HP|by apply same_set_sym, HP]).
    eapply same_set_trans; [done|]. apply IH.
    - destruct Hs as (r & _ & Hr). apply root_of_lt in Hr. lia.
    - done.
    - destruct Hs as (r & _ & Hr). eapply same_set_refl; [apply Hwf'|].
      by eapply root_of_lt. }
  split; split.
  - intros H. eapply rtc_subrel; [|by apply Hspan].
    intros c d [H'|H']; [left|right]; by apply Hpres.
  - by apply Hclose.
  - apply Hspan.
  - apply Hclose. intros c d Hcd. by apply Hrec.
Qed.

Lemma eager_updates_connectivity_witness :
  ∃ fuel0, ∀ fuel, (fuel0 ≤ fuel)%nat →
    ∃ g', apply_updates true true fuel sample_graph
            [(ins 0 1, 0%Z, []); (ins 3 2, 0%Z, [true]); (ins 1 0, 0%Z, [])]
          = (g', Returned tt)
      ∧ (dsu_valid g' = false → ∃ e, (2 ≤ toggles
            [(ins 0 1, 0%Z, []); (ins 3 2, 0%Z, [true]); (ins 1 0, 0%Z, [])] e)%nat).
Proof.
  destruct (eager_updates_connectivity true 4 sample_graph
              [(ins 0 1, 0%Z, []); (ins 3 2, 0%Z, [true]); (ins 1 0, 0%Z, [])])
    as [fuel0 H].
  - reflexivity.
  - reflexivity.
  - reflexivity.
  - reflexivity.
  - reflexivity.
  - repeat constructor.
  - exists fuel0. intros fuel Hfuel. destruct (H fuel Hfuel) as (g' & Hrun & _ & Hinv).
    by exists g'.
Defined.

End Connectivity.

Section Configuration.
Import GraphConfiguration.

Lemma string_app_assoc (a b c : string) : (a +:+ b) +:+ c = a +:+ (b +:+ c).
Proof.
  induction a as [|x a IH]; [reflexivity|].
  change (String x ((a +:+ b) +:+ c) = String x (a +:+ b +:+ c)). by rewrite IH.
Qed.

Lemma string_app_empty_r (a : string) : a +:+ EmptyString = a.
Proof.
  induction a as [|x a IH]; [reflexivity|].
  change (String x (a +:+ EmptyString) = String x a). by rewrite IH.
Qed.

Lemma apply_fields st k :
  let st' := apply st k in
  _gutter_sys st'.1 = default (_gutter_sys st.1)
                        (match k with Gutter_sys g => Some g | _ => None end)
  ∧ _disk_dir st'.1 = default (_disk_dir st.1)
                        (match k with Disk_dir d => Some d | _ => None end)
  ∧ _backup_in_mem st'.1 = default (_backup_in_mem st.1)
                             (match k with Backup_in_mem b => Some b | _ => None end)
  ∧ _num_groups st'.1 = default (_num_groups st.1)
                          (match k with Num_groups n => Some (N.max 1 n) | _ => None end)
  ∧ _group_size st'.1 = default (_group_size st.1)
                          (match k with Group_size n => Some (N.max 1 n) | _ => None end)
  ∧ st'.2 = st.2 +:+ warning k.
Proof.
  destruct st as [c out]. destruct k as [g|d|b|n|n]; cbn [apply fst snd];
    try (by rewrite string_app_empty_r).
  - unfold num_groups. cbn [_num_groups].
    destruct (N.ltb_spec n 1); cbn [fst snd _gutter_sys _disk_dir _backup_in_mem
                                    _num_groups _group_size default].
    + assert (n = 0) as -> by lia. done.
    + split_and!; try done; [unfold id; lia|]. destruct n; [lia|done].
  - unfold group_size. cbn [_group_size].
    destruct (N.ltb_spec n 1); cbn [fst snd _gutter_sys _disk_dir _backup_in_mem
                                    _num_groups _group_size default].
    + assert (n = 0) as -> by lia. done.
    + split_and!; try done; [unfold id; lia|]. destruct n; [lia|done].
Qed.

Lemma last_set_snoc {A} (f : call → option A) calls k d :
  last_set f (calls ++ [k]) d = default (last_set f calls d) (f k).
Proof.
  unfold last_set. rewrite omap_app. cbn [omap list_omap].
  destruct (f k) as [a|]; cbn [default].
  - by rewrite last_snoc.
  - by rewrite app_nil_r.
Qed.

(** X13.  GraphConfiguration: a chain of setter calls.  After any chain of
    calls each field holds what the last call for that field gave, calls for
    other fields leaving it alone; num_groups and group_size store 1 in place
    of 0, so after a call they are never below 1, and a configuration whose
    two counts are at least 1 keeps them so; and std::cout has received, in
    the order of the calls, one warning for each call of num_groups or
    group_size with the value 0 and nothing else. *)
Theorem chain_last_call_wins calls c :
  let c' := (chain calls c).1 in
  _gutter_sys c'
  = last_set (fun k => match k with Gutter_sys g => Some g | _ => None end)
             calls (_gutter_sys c)
  ∧ _disk_dir c'
    = last_set (fun k => match k with Disk_dir d => Some d | _ => None end)
               calls (_disk_dir c)
  ∧ _backup_in_mem c'
    = last_set (fun k => match k with Backup_in_mem b => Some b | _ => None end)
               calls (_backup_in_mem c)
  ∧ _num_groups c'
    = last_set (fun k => match k with Num_groups n => Some (N.max 1 n) | _ => None end)
               calls (_num_groups c)
  ∧ _group_size c'
    = last_set (fun k => match k with Group_size n => Some (N.max 1 n) | _ => None end)
               calls (_group_size c)
  ∧ (1 <= _num_groups c → 1 <= _num_groups c')
  ∧ (1 <= _group_size c → 1 <= _group_size c')
  ∧ (chain calls c).2 = foldr (fun k out => warning k +:+ out) EmptyString calls.
Proof.
  induction calls as [|k calls IH] using rev_ind.
  - cbn. split_and!; done.
  - unfold chain in *. rewrite foldl_app. cbn [foldl].
    destruct IH as (H1 & H2 & H3 & H4 & H5 & H6 & H7 & H8).
    pose proof (apply_fields (foldl apply (c, EmptyString) calls) k)
      as (A1 & A2 & A3 & A4 & A5 & A6).
    cbn zeta in *. rewrite !last_set_snoc.
    rewrite A1, A2, A3, A4, A5, A6, H1, H2, H3, H4, H5, H8.
    split_and!; try done.
    + intros Hc. specialize (H6 Hc). rewrite H4 in H6.
      destruct k; cbn [default from_option]; unfold id; lia.
    + intros Hc. specialize (H7 Hc). rewrite H5 in H7.
      destruct k; cbn [default from_option]; unfold id; lia.
    + rewrite foldr_app. cbn [foldr]. rewrite string_app_empty_r.
      clear. induction calls as [|k' calls IH]; cbn [foldr]; [done|].
      by rewrite string_app_assoc, IH.
Qed.

End Configuration.
